(** * chisel: session lifecycle and forwarding core

    A shallow embedding of the code behind the specification's claims:
    - [Tunnel]   package tunnel: [BindSSH], [getSSH], [keepAliveLoop]
    - [Cnet]     package cnet: the WebSocket adapter [wsConn] and its [Read]
    - [Cio]      share/cio/pipe.go: [chunkedCopy], [Pipe]
    - [Proxy]    package tunnel: the accept loop of [runTCP], its workers
                 and [pipeRemote]
    - [Chshare]  share/version.go: the protocol identifiers
    - [Client]   client/client_connect.go: [connectionLoop],
                 [connectionOnce]
    - [CnetWrite] package cnet: [wsConn.Write]
    - [Remotes]  package tunnel: [BindRemotes], [NewProxy], [listen], [Run]
    - [NewTunnel] package tunnel: [New]
    - [Traffic], [TrafficTest]  share/traffic/headers.go and its test
    - [Meter]    share/cnet/meter.go
    - [Simulator] share/traffic/simulator.go

    Goroutines are modelled by interleaving: every atomic action of a
    goroutine is one step on an explicit state, and an execution is a list
    of such steps.  Libraries outside the repository (gorilla/websocket,
    math/rand, the clock) enter as the values their calls return. *)

From Stdlib Require Import ZArith List Bool Lia String Floats Uint63.
From Stdlib.Strings Require Import Byte.
From stdpp Require gmap strings.
Import ListNotations.

Set Default Proof Using "Type".

(** ** Results of code that may panic *)

Inductive res (A : Type) : Type :=
| Ok (a : A)
| Panic (msg : string).
Arguments Ok {A} a.
Arguments Panic {A} msg.

Definition res_bind {A B} (r : res A) (k : A -> res B) : res B :=
match r with
| Ok a => k a
| Panic m => Panic m
end.

(** ** 64-bit signed integers

    [int64], [int] and [time.Duration]: arithmetic wraps around. *)

Definition wrap64 (z : Z) : Z := ((z + 2 ^ 63) mod 2 ^ 64 - 2 ^ 63)%Z.

(** ** package tunnel: the tunnel *)

Module Tunnel.

(** An [ssh.Conn] is only ever stored, compared with nil and handed
    back, so a session is represented by an identifier. *)
Definition Conn : Type := nat.

(** Modelled from the spec: the "activating" latch, type [waitGroup],
    whose declaration is not part of the given sources.  It is a counter:
    [Add] raises it, [Done] lowers it when it is positive, [DoneAll]
    lowers it to zero, and [Wait] returns as soon as it is zero. *)
Record waitGroup : Type := { wg_n : nat }.

Definition wg_Add (k : nat) (w : waitGroup) : waitGroup :=
  {| wg_n := wg_n w + k |}.
Definition wg_Done (w : waitGroup) : waitGroup :=
  {| wg_n := Nat.pred (wg_n w) |}.
Definition wg_DoneAll (w : waitGroup) : waitGroup :=
  {| wg_n := 0 |}.
(** [Wait] returns without blocking. *)
Definition wg_open (w : waitGroup) : bool := Nat.eqb (wg_n w) 0.

(** The fields of [Tunnel] that BindSSH and getSSH touch. *)
Record Tunnel : Type := {
  activeConn : option Conn;
  activatingConn : waitGroup
}.

(** [New]: no session, latch armed once ([t.activatingConn.Add(1)]). *)
Definition New : Tunnel :=
  {| activeConn := None; activatingConn := wg_Add 1 {| wg_n := 0 |} |}.

(** The atomic actions of one [BindSSH] call, in program order on the
    calling goroutine, and the one action of the goroutine it starts:
    - [BindStore c]: lock; panic when a session is stored; store [c];
      unlock                                      (lines 96-101)
    - [BindRelease]: [t.activatingConn.Done()]    (line 102)
    - [BindRearm]:   [t.activatingConn.Add(1)]    (line 115)
    - [BindClear]:   lock; [activeConn = nil]; unlock (lines 116-118)
    - [CtxWatcher]:  the goroutine of lines 88-94 once its context is
      done: [c.Close()] and [t.activatingConn.DoneAll()]. *)
Inductive action : Type :=
| BindStore (c : Conn)
| BindRelease
| BindRearm
| BindClear
| CtxWatcher.

Definition exec (a : action) (t : Tunnel) : res Tunnel :=
  match a with
  | BindStore c =>
      match activeConn t with
      | Some _ => Panic "double bind ssh"
      | None => Ok {| activeConn := Some c; activatingConn := activatingConn t |}
      end
  | BindRelease =>
      Ok {| activeConn := activeConn t; activatingConn := wg_Done (activatingConn t) |}
  | BindRearm =>
      Ok {| activeConn := activeConn t; activatingConn := wg_Add 1 (activatingConn t) |}
  | BindClear =>
      Ok {| activeConn := None; activatingConn := activatingConn t |}
  | CtxWatcher =>
      Ok {| activeConn := activeConn t; activatingConn := wg_DoneAll (activatingConn t) |}
  end.

Fixpoint run (sched : list action) (t : Tunnel) : res Tunnel :=
  match sched with
  | [] => Ok t
  | a :: rest => res_bind (exec a t) (run rest)
  end.

(** The four actions of the caller of [BindSSH], in program order;
    [c.Wait()] blocks between the second and the third. *)
Definition BindSSH (c : Conn) : list action :=
  [BindStore c; BindRelease; BindRearm; BindClear].

Definition is_watcher (a : action) : bool :=
  match a with
  | CtxWatcher => true
  | _ => false
  end.

(** The caller's part of a schedule.  A schedule [sched] is an execution
    of [BindSSH c] together with watcher goroutines (of this call, or left
    over from earlier ones) when [caller sched = BindSSH c]: the watchers
    may fire anywhere, also after the return. *)
Definition caller (sched : list action) : list action :=
  filter (fun a => negb (is_watcher a)) sched.

(** What follows the re-arming of the latch in a schedule. *)
Fixpoint after_rearm (sched : list action) : list action :=
  match sched with
  | [] => []
  | BindRearm :: rest => rest
  | _ :: rest => after_rearm rest
  end.

(** A watcher fires after the latch was re-armed. *)
Definition released (sched : list action) : bool :=
  existsb is_watcher (after_rearm sched).

(** A [context.Context], as far as [getSSH] looks at it. *)
Record Context : Type := { cancelled : bool }.

Definition live : Context := {| cancelled := false |}.
Definition done : Context := {| cancelled := true |}.

(** Modelled from the spec: the helper [isDone], which is not part of the
    given sources; it reports whether the context is cancelled, without
    blocking. *)
Definition isDone (ctx : Context) : bool := cancelled ctx.

(** [getSSH] evaluated against one tunnel state.  [Waits] is the select
    of lines 136-146 with no case ready: the context is not done, the timer
    that starts with the call has not fired, and the latch is closed.  When
    the latch is open the third case is ready and the stored session is
    read again. *)
Inductive getSSH_result : Type :=
| Returned (c : option Conn)
| Waits.

Definition getSSH (ctx : Context) (t : Tunnel) : getSSH_result :=
  if isDone ctx then Returned None
  else match activeConn t with
       | Some c => Returned (Some c)
       | None =>
           if wg_open (activatingConn t) then Returned (activeConn t)
           else Waits
       end.



(** *** keepAliveLoop *)

(** [float64(d)] for an [int64]. *)
Definition float64_of_int64 (z : Z) : float :=
  if (z <? 0)%Z then (- PrimFloat.of_uint63 (Uint63.of_Z (- z)))%float
  else PrimFloat.of_uint63 (Uint63.of_Z z).

(** [time.Duration(f)] for a [float64]: the fraction is dropped.  For a
    value that does not fit an [int64], a NaN or an infinity the language
    leaves the result to the implementation; the amd64 result is used. *)
Definition Duration_of_float64 (f : float) : Z :=
  match Prim2SF f with
  | S754_zero _ => 0%Z
  | S754_finite sign m e =>
      let mag := if (0 <=? e)%Z then (Z.pos m * 2 ^ e)%Z else Z.shiftr (Z.pos m) (- e) in
      let v := if sign then (- mag)%Z else mag in
      if ((- 2 ^ 63 <=? v) && (v <? 2 ^ 63))%Z then v else (- 2 ^ 63)%Z
  | _ => (- 2 ^ 63)%Z
  end.

(** The float64 constants 0.30 and 0.1 of lines 199 and 210. *)
Definition jitterPercent : float := 0x1.3333333333333p-2%float.
Definition clampFactor : float := 0x1.999999999999ap-4%float.

(** Lines 203-207: the jittered duration before the clamp, for the draw
    [u] of [rng.Float64()].  Every float64 operation is rounded on its
    own. *)
Definition jittered (KeepAlive : Z) (u : float) : Z :=
  let baseDuration := float64_of_int64 KeepAlive in
  let jitterRange := (baseDuration * jitterPercent)%float in
  let jitter := ((u * 2 - 1) * jitterRange)%float in
  Duration_of_float64 (baseDuration + jitter)%float.

(** Line 210. *)
Definition minDuration (KeepAlive : Z) : Z :=
  Duration_of_float64 (float64_of_int64 KeepAlive * clampFactor)%float.

(** Lines 203-213: the duration handed to [time.Sleep]. *)
Definition keepAlive_duration (KeepAlive : Z) (u : float) : Z :=
  let actualDuration := jittered KeepAlive u in
  if (actualDuration <? minDuration KeepAlive)%Z then minDuration KeepAlive
  else actualDuration.

(** math/rand as [keepAliveLoop] uses it: a source made from a seed, and
    [Float64], which draws from a source and advances it. *)
Record Rand (R : Type) : Type := {
  NewSource : Z -> R;
  Float64 : R -> float * R
}.
Arguments NewSource {R} _ _.
Arguments Float64 {R} _ _.

(** What [sshConn.SendRequest("ping", true, nil)] returns. *)
Inductive ping : Type :=
| PingError
| PingReply (b : string).

(** Line 220: [len(b) > 0 && !bytes.Equal(b, []byte("pong"))]. *)
Definition strange (b : string) : bool :=
  (0 <? String.length b)%nat && negb (String.eqb b "pong").

(** The loop of lines 201-225 against the answers [pings] of the peer:
    the durations slept, in order.  When the answers run out the loop is
    in its next sleep. *)
Fixpoint keepAlive_sleeps {R} (rand : Rand R) (KeepAlive : Z) (rng : R)
    (pings : list ping) : list Z :=
  let (u, rng') := Float64 rand rng in
  let actualDuration := keepAlive_duration KeepAlive u in
  match pings with
  | [] => [actualDuration]
  | PingError :: _ => [actualDuration]
  | PingReply b :: rest =>
      if strange b then [actualDuration]
      else actualDuration :: keepAlive_sleeps rand KeepAlive rng' rest
  end.

(** [keepAliveLoop]: the source is made on entry (line 198), seeded with
    the clock [now] of the call. *)
Definition keepAliveLoop {R} (rand : Rand R) (KeepAlive : Z) (now : Z)
    (pings : list ping) : list Z :=
  keepAlive_sleeps rand KeepAlive (NewSource rand now) pings.



End Tunnel.

(** ** package cnet: the WebSocket adapter *)

Module Cnet.

Definition bytes : Type := list Byte.byte.

Inductive error : Type :=
| ErrReadLimit
| ErrClosed
| ErrTransport (msg : string).

(** What the peer's side of the WebSocket delivers next: a data message,
    or a failure of the transport. *)
Inductive event : Type :=
| Frame (payload : bytes)
| Fail (e : error).

(** The part of gorilla/websocket's [Conn] that [Read] drives.  It is a
    library outside this repository; its contract is taken as documented:
    [SetReadLimit] sets the maximum size in bytes of a message read from
    the peer, and a message above a positive limit makes the read fail with
    [ErrReadLimit]; a read error is permanent.  The messages still to arrive
    are the list [inbound], after which the peer has closed. *)
Record Conn : Type := {
  readLimit : Z;
  inbound : list event;
  readErr : option error
}.

Definition SetReadLimit (limit : Z) (k : Conn) : Conn :=
  {| readLimit := limit; inbound := inbound k; readErr := readErr k |}.

Definition over_limit (limit : Z) (p : bytes) : bool :=
  ((0 <? limit) && (limit <? Z.of_nat (List.length p)))%Z.

Definition failed (k : Conn) (rest : list event) (e : error) : Conn :=
  {| readLimit := readLimit k; inbound := rest; readErr := Some e |}.

Definition ReadMessage (k : Conn) : Conn * (bytes + error) :=
  match readErr k with
  | Some e => (k, inr e)
  | None =>
      match inbound k with
      | [] => (failed k [] ErrClosed, inr ErrClosed)
      | Fail e :: rest => (failed k rest e, inr e)
      | Frame p :: rest =>
          if over_limit (readLimit k) p
          then (failed k rest ErrReadLimit, inr ErrReadLimit)
          else ({| readLimit := readLimit k; inbound := rest; readErr := None |}, inl p)
      end
  end.

(** [wsConn]; the random source only times the delay of [Write] and is
    left out. *)
Record wsConn : Type := {
  conn : Conn;
  buff : bytes;
  readBufSize : Z;
  writeBufSize : Z
}.

Definition NewWebSocketConn (websocketConn : Conn) : wsConn :=
  {| conn := websocketConn;
     buff := [];
     readBufSize := 32 * 1024;
     writeBufSize := 64 * 1024 |}.

Definition set_buff (c : wsConn) (b : bytes) : wsConn :=
  {| conn := conn c; buff := b;
     readBufSize := readBufSize c; writeBufSize := writeBufSize c |}.

Definition set_conn (c : wsConn) (k : Conn) : wsConn :=
  {| conn := k; buff := buff c;
     readBufSize := readBufSize c; writeBufSize := writeBufSize c |}.

(** Lines 55-76: copy [src] into a destination of [ldst] bytes and keep
    the remainder.  The result is the new connection, the bytes written to
    the front of [dst] (their number is the returned [n]) and the error.
    [make([]byte, c.readBufSize)] panics on a negative size. *)
Definition Read_copy (c : wsConn) (src : bytes) (ldst : nat)
  : res (wsConn * (bytes * option error)) :=
  if (ldst <? List.length src)%nat then
    let r := skipn ldst src in
    let lr := Z.of_nat (List.length r) in
    if (lr <=? readBufSize c)%Z then
      Ok (set_buff c r, (firstn ldst src, None))
    else if (readBufSize c <? 0)%Z then
      Panic "makeslice: len out of range"
    else
      Ok (set_buff c (firstn (Z.to_nat (readBufSize c)) r), (firstn ldst src, None))
  else
    Ok (c, (src, None)).

(** [Read] into a destination slice of length [ldst]. *)
Definition Read (c : wsConn) (ldst : nat) : res (wsConn * (bytes * option error)) :=
  if (0 <? List.length (buff c))%nat then
    Read_copy (set_buff c []) (buff c) ldst
  else
    let k := SetReadLimit (readBufSize c) (conn c) in
    match ReadMessage k with
    | (k', inl msg) => Read_copy (set_conn c k') msg ldst
    | (k', inr err) => Ok (set_conn c k', ([], Some err))
    end.

(** Successive calls of [Read], one per destination length. *)
Fixpoint Reads (c : wsConn) (sizes : list nat)
  : res (wsConn * list (bytes * option error)) :=
  match sizes with
  | [] => Ok (c, [])
  | ldst :: rest =>
      res_bind (Read c ldst) (fun '(c1, r) =>
      res_bind (Reads c1 rest) (fun '(c2, rs) => Ok (c2, r :: rs)))
  end.

(** The messages that [ReadMessage] hands over under a read limit: those
    before the first transport failure or oversized message. *)
Fixpoint accepted (limit : Z) (evs : list event) : list bytes :=
  match evs with
  | Frame p :: rest =>
      if over_limit limit p then [] else p :: accepted limit rest
  | _ => []
  end.

(** The bytes a connection still owes its reader: the leftover buffer,
    then the messages the transport will hand over. *)
Definition stream (c : wsConn) : bytes :=
  buff c ++
  match readErr (conn c) with
  | Some _ => []
  | None => List.concat (accepted (readBufSize c) (inbound (conn c)))
  end.

(** What holds of every adapter made by [NewWebSocketConn]: the read
    limit it hands to the transport is positive and the leftover fits it. *)
Definition buffer_bounded (c : wsConn) : Prop :=
  (0 < readBufSize c)%Z /\ (Z.of_nat (List.length (buff c)) <= readBufSize c)%Z.

End Cnet.

(** ** share/cio/pipe.go *)

Module Cio.

Definition chunkSizeMin : Z := 1 * 1024.
Definition chunkSizeMax : Z := 32 * 1024.

Inductive error : Type :=
| EOF
| ErrShortWrite
| ErrOther (msg : string).

(** What [src.Read] and [dst.Write] return. *)
Record read_result : Type := { nr : Z; er : option error }.
Record write_result : Type := { nw : Z; ew : option error }.

(** The tail of one iteration of the loop of [chunkedCopy] (lines 54-59),
    [continue] being the next iteration. *)
Definition after_read (r : read_result) (total : Z)
    (continue : option (Z * option error)) : option (Z * option error) :=
  match er r with
  | Some EOF => Some (total, None)
  | Some e => Some (total, Some e)
  | None => continue
  end.

(** [chunkedCopy(dst, src, rng)].  The two endpoints are given by what
    their calls return, in order: [reads] answers the successive
    [src.Read(buf[:chunkSize])], each as a function of the length asked
    for, and [writes] the successive [dst.Write]; [intn i n] is the draw
    [rng.Intn(n)] of iteration [i].  The delays between chunks only take
    time.  [None]: a call never returns, the copy blocks for ever. *)
Fixpoint chunkedCopy (intn : nat -> Z -> Z) (i : nat)
    (reads : list (Z -> read_result)) (writes : list write_result)
    (total : Z) : option (Z * option error) :=
  match reads with
  | [] => None
  | rd :: reads' =>
      let chunkSize := (chunkSizeMin + intn i (chunkSizeMax - chunkSizeMin + 1))%Z in
      let r := rd chunkSize in
      if (0 <? nr r)%Z then
        match writes with
        | [] => None
        | w :: writes' =>
            let short := ((nw w <? 0) || (nr r <? nw w))%Z in
            let nw' := if short then 0%Z else nw w in
            let ew' :=
              if short then
                match ew w with
                | None => Some ErrShortWrite
                | Some e => Some e
                end
              else ew w in
            let total' := wrap64 (total + nw') in
            match ew' with
            | Some e => Some (total', Some e)
            | None =>
                if (nr r =? nw')%Z then
                  after_read r total' (chunkedCopy intn (S i) reads' writes' total')
                else Some (total', Some ErrShortWrite)
            end
        end
      else
        after_read r total (chunkedCopy intn (S i) reads' writes total)
  end.

(** [Pipe(src, dst)] as three goroutines.  Goroutine [A] (lines 79-83) runs
    [received, _ = chunkedCopy(src, dst, rng1)], goroutine [B] (lines 84-88)
    runs [sent, _ = chunkedCopy(dst, src, rng2)], both then [o.Do(close)]
    and [wg.Done()]; [Main] is the caller in [wg.Wait()] and the return.
    A goroutine is at one of these points. *)
Inductive pc : Type :=
| Copying
| AtOnce
| ClosingSrc
| ClosingDst
| AtDone
| Finished.

(** [sync.Once]: not yet called, running its function, done. *)
Inductive once_state : Type :=
| OnceIdle
| OnceRunning
| OnceDone.

Inductive tid : Type :=
| A
| B
| Main.

Record pipe_state : Type := {
  pcA : pc;
  pcB : pc;
  once : once_state;
  wg : nat;
  src_closes : nat;
  dst_closes : nat;
  sent : Z;
  received : Z;
  returned : option (Z * Z)
}.

(** After [wg.Add(2)] and the two [go] statements. *)
Definition pipe_init : pipe_state :=
  {| pcA := Copying; pcB := Copying; once := OnceIdle; wg := 2;
     src_closes := 0; dst_closes := 0; sent := 0; received := 0;
     returned := None |}.

Definition get_pc (t : tid) (s : pipe_state) : pc :=
  match t with
  | A => pcA s
  | B => pcB s
  | Main => Finished
  end.

Definition set_pc (t : tid) (p : pc) (s : pipe_state) : pipe_state :=
  match t with
  | A => {| pcA := p; pcB := pcB s; once := once s; wg := wg s;
            src_closes := src_closes s; dst_closes := dst_closes s;
            sent := sent s; received := received s; returned := returned s |}
  | B => {| pcA := pcA s; pcB := p; once := once s; wg := wg s;
            src_closes := src_closes s; dst_closes := dst_closes s;
            sent := sent s; received := received s; returned := returned s |}
  | Main => s
  end.

(** The assignment of the copy's first result by goroutine [t]. *)
Definition set_count (t : tid) (n : Z) (s : pipe_state) : pipe_state :=
  match t with
  | A => {| pcA := pcA s; pcB := pcB s; once := once s; wg := wg s;
            src_closes := src_closes s; dst_closes := dst_closes s;
            sent := sent s; received := n; returned := returned s |}
  | B => {| pcA := pcA s; pcB := pcB s; once := once s; wg := wg s;
            src_closes := src_closes s; dst_closes := dst_closes s;
            sent := n; received := received s; returned := returned s |}
  | Main => s
  end.

Definition set_once (o : once_state) (s : pipe_state) : pipe_state :=
  {| pcA := pcA s; pcB := pcB s; once := o; wg := wg s;
     src_closes := src_closes s; dst_closes := dst_closes s;
     sent := sent s; received := received s; returned := returned s |}.

Definition close_src (s : pipe_state) : pipe_state :=
  {| pcA := pcA s; pcB := pcB s; once := once s; wg := wg s;
     src_closes := S (src_closes s); dst_closes := dst_closes s;
     sent := sent s; received := received s; returned := returned s |}.

Definition close_dst (s : pipe_state) : pipe_state :=
  {| pcA := pcA s; pcB := pcB s; once := once s; wg := wg s;
     src_closes := src_closes s; dst_closes := S (dst_closes s);
     sent := sent s; received := received s; returned := returned s |}.

Definition wg_Done (s : pipe_state) : pipe_state :=
  {| pcA := pcA s; pcB := pcB s; once := once s; wg := Nat.pred (wg s);
     src_closes := src_closes s; dst_closes := dst_closes s;
     sent := sent s; received := received s; returned := returned s |}.

Definition do_return (s : pipe_state) : pipe_state :=
  {| pcA := pcA s; pcB := pcB s; once := once s; wg := wg s;
     src_closes := src_closes s; dst_closes := dst_closes s;
     sent := sent s; received := received s;
     returned := Some (sent s, received s) |}.

(** One step of goroutine [t].  [copyA] and [copyB] are the results of
    the two [chunkedCopy] calls.  [None]: [t] cannot move (its copy has not
    returned, [o.Do] waits for the other goroutine to finish the function,
    [wg.Wait] waits for the counter, or [t] is done). *)
Definition step (copyA copyB : option (Z * option error)) (t : tid)
    (s : pipe_state) : option pipe_state :=
  match t with
  | Main =>
      match returned s, wg s with
      | None, 0 => Some (do_return s)
      | _, _ => None
      end
  | _ =>
      match get_pc t s with
      | Copying =>
          match (match t with A => copyA | _ => copyB end) with
          | Some (n, _) => Some (set_pc t AtOnce (set_count t n s))
          | None => None
          end
      | AtOnce =>
          match once s with
          | OnceIdle => Some (set_pc t ClosingSrc (set_once OnceRunning s))
          | OnceRunning => None
          | OnceDone => Some (set_pc t AtDone s)
          end
      | ClosingSrc => Some (set_pc t ClosingDst (close_src s))
      | ClosingDst => Some (set_pc t AtDone (set_once OnceDone (close_dst s)))
      | AtDone => Some (set_pc t Finished (wg_Done s))
      | Finished => None
      end
  end.

(** A schedule: the goroutine that moves at each step. *)
Fixpoint run (copyA copyB : option (Z * option error)) (sched : list tid)
    (s : pipe_state) : option pipe_state :=
  match sched with
  | [] => Some s
  | t :: rest =>
      match step copyA copyB t s with
      | Some s' => run copyA copyB rest s'
      | None => None
      end
  end.

(** States of [Pipe] that some schedule reaches. *)
Definition reachable (copyA copyB : option (Z * option error)) (s : pipe_state) : Prop :=
  exists sched, run copyA copyB sched pipe_init = Some s.

(** No goroutine can move. *)
Definition terminal (copyA copyB : option (Z * option error)) (s : pipe_state) : Prop :=
  forall t, step copyA copyB t s = None.

(** [Pipe] has returned [(sent, received)]: both goroutines are through,
    both endpoints were closed once. *)
Definition pipe_done (sent received : Z) : pipe_state :=
  {| pcA := Finished; pcB := Finished; once := OnceDone; wg := 0;
     src_closes := 1; dst_closes := 1; sent := sent; received := received;
     returned := Some (sent, received) |}.

(** The goroutine of the opposite direction. *)
Definition other (t : tid) : tid :=
  match t with
  | A => B
  | B => A
  | Main => Main
  end.

(** Past [o.Do(close)]. *)
Definition past_once (p : pc) : bool :=
  match p with
  | AtDone | Finished => true
  | _ => false
  end.

(** Before [o.Do(close)] / inside the function that [o.Do] runs. *)
Definition before_once (p : pc) : Prop := p = Copying \/ p = AtOnce.

(** The goroutine at [p] runs the close function and has closed this
    many endpoints so far. *)
Definition closing (p : pc) (srcs dsts : nat) : Prop :=
  (p = ClosingSrc /\ srcs = 0 /\ dsts = 0) \/ (p = ClosingDst /\ srcs = 1 /\ dsts = 0).

Definition not_closing (p : pc) : Prop := p <> ClosingSrc /\ p <> ClosingDst.

Definition unfinished (p : pc) : nat :=
  match p with
  | Finished => 0
  | _ => 1
  end.

(** What holds in every state of [Pipe]. *)
Definition pipe_inv (copyA copyB : option (Z * option error)) (s : pipe_state) : Prop :=
  match once s with
  | OnceIdle =>
      before_once (pcA s) /\ before_once (pcB s) /\ src_closes s = 0 /\ dst_closes s = 0
  | OnceRunning =>
      (closing (pcA s) (src_closes s) (dst_closes s) /\ before_once (pcB s)) \/
      (closing (pcB s) (src_closes s) (dst_closes s) /\ before_once (pcA s))
  | OnceDone =>
      not_closing (pcA s) /\ not_closing (pcB s) /\ src_closes s = 1 /\ dst_closes s = 1 /\
      (past_once (pcA s) || past_once (pcB s) = true)
  end /\
  wg s = unfinished (pcA s) + unfinished (pcB s) /\
  (pcA s <> Copying -> exists e, copyA = Some (received s, e)) /\
  (pcB s <> Copying -> exists e, copyB = Some (sent s, e)) /\
  (forall r, returned s = Some r ->
     pcA s = Finished /\ pcB s = Finished /\ r = (sent s, received s)).

(** Steps a goroutine still has to take at most. *)
Definition rank (p : pc) : nat :=
  match p with
  | Copying => 5
  | AtOnce => 4
  | ClosingSrc => 3
  | ClosingDst => 2
  | AtDone => 1
  | Finished => 0
  end.

Definition measure (s : pipe_state) : nat :=
  rank (pcA s) + rank (pcB s) + match returned s with Some _ => 0 | None => 1 end.

End Cio.

(** ** package tunnel: the proxy *)

Module Proxy.

(** The fields of [Proxy] behind the connection limit: the buffered channel
    [connPool] (only the number of tokens in it matters), its capacity, and
    [connStats.ActiveConnections], which [pipeRemote] raises on entry and
    lowers on exit and so counts the forwarded connections in flight.
    [rejected] counts the local connections closed by the accept loop. *)
Record Proxy : Type := {
  maxConns : nat;
  connPool_cap : nat;
  connPool : nat;
  ActiveConnections : nat;
  rejected : nat
}.

(** [NewProxy]: [maxConns: 100], [connPool: make(chan struct{}, 100)]. *)
Definition NewProxy : Proxy :=
  {| maxConns := 100; connPool_cap := 100; connPool := 0;
     ActiveConnections := 0; rejected := 0 |}.

(** The atomic steps of the goroutines of [runTCP]:
    - [runTCP_accept]: the accept loop got a local connection and runs
      the select of lines 161-167: a token is sent when the channel has
      room and [pipeRemote] is started, otherwise the connection is closed;
    - [connectionWorker_recv]: one of the ten [connectionWorker]
      goroutines takes the case [<-p.connPool] of its select (lines
      179-180);
    - [pipeRemote_return]: a [pipeRemote] goroutine returns; its deferred
      release receives a token when there is one (lines 187-193). *)
Inductive event : Type :=
| runTCP_accept
| connectionWorker_recv
| pipeRemote_return.

(** [None]: the step cannot be taken in this state (a receive on an empty
    channel blocks; no [pipeRemote] is running). *)
Definition step (e : event) (p : Proxy) : option Proxy :=
  match e with
  | runTCP_accept =>
      if connPool p <? connPool_cap p then
        Some {| maxConns := maxConns p; connPool_cap := connPool_cap p;
                connPool := S (connPool p);
                ActiveConnections := S (ActiveConnections p);
                rejected := rejected p |}
      else
        Some {| maxConns := maxConns p; connPool_cap := connPool_cap p;
                connPool := connPool p;
                ActiveConnections := ActiveConnections p;
                rejected := S (rejected p) |}
  | connectionWorker_recv =>
      match connPool p with
      | 0 => None
      | S n =>
          Some {| maxConns := maxConns p; connPool_cap := connPool_cap p;
                  connPool := n;
                  ActiveConnections := ActiveConnections p;
                  rejected := rejected p |}
      end
  | pipeRemote_return =>
      match ActiveConnections p with
      | 0 => None
      | S a =>
          Some {| maxConns := maxConns p; connPool_cap := connPool_cap p;
                  connPool := Nat.pred (connPool p);
                  ActiveConnections := a;
                  rejected := rejected p |}
      end
  end.

Fixpoint run (sched : list event) (p : Proxy) : option Proxy :=
  match sched with
  | [] => Some p
  | e :: rest =>
      match step e p with
      | Some p' => run rest p'
      | None => None
      end
  end.

(** [n] local connections accepted one after the other, a worker taking
    the token of each before the next arrives, and no pipe finished yet. *)
Fixpoint accepts_drained (n : nat) : list event :=
  match n with
  | 0 => []
  | S m => runTCP_accept :: connectionWorker_recv :: accepts_drained m
  end.

Definition is_worker (e : event) : bool :=
  match e with
  | connectionWorker_recv => true
  | _ => false
  end.

End Proxy.

(** ** share/version.go *)

Module Chshare.

Definition ProtocolVersion : string := "chisel-v3".
Definition MaskedWebSocketProtocol : string := "chat".
Definition MaskedSSHServerVersion : string := "SSH-2.0-OpenSSH_8.0".
Definition MaskedSSHClientVersion : string := "SSH-2.0-OpenSSH_8.0".
Definition BuildVersion : string := "0.0.0-src".

End Chshare.

(** ** client/client_connect.go *)

Module Client.

(** [time.Duration] counts nanoseconds. *)
Definition Millisecond : Z := 1000000.
Definition Second : Z := 1000 * Millisecond.
Definition Minute : Z := 60 * Second.

(** The supervisor's sleep is never longer than this (lines 70, 82). *)
Definition hard_ceiling : Z := 10 * Minute.
(** A success older than this switches to probing (line 76). *)
Definition probe_window : Z := 5 * Minute.
(** The adaptive term while probing (line 78). *)
Definition probe_backoff : Z := 5 * Second.
(** An attempt counts as connected when it lasted longer (line 181). *)
Definition stability_threshold : Z := 5 * Second.

(** The [websocket.Dialer] that [connectionOnce] prepares (lines 113-120),
    with the values it reads from the environment and the configuration. *)
Record Dialer : Type := {
  HandshakeTimeout : Z;
  Subprotocols : list string;
  ReadBufferSize : Z;
  WriteBufferSize : Z
}.

Definition connectionOnce_dialer (ws_timeout ws_buff_size : Z) : Dialer :=
  {| HandshakeTimeout := ws_timeout;
     Subprotocols := [Chshare.MaskedWebSocketProtocol];
     ReadBufferSize := ws_buff_size;
     WriteBufferSize := ws_buff_size |}.

(** The value of the Upgrade request's [Sec-WebSocket-Protocol] header:
    the dialer's subprotocols, comma separated. *)
Definition Sec_WebSocket_Protocol (d : Dialer) : string :=
  String.concat ", " (Subprotocols d).

(** [time.Since(t)] read at clock [now], both in nanoseconds: the
    difference, kept within the range of [time.Duration]. *)
Definition Since (t now : Z) : Z :=
  Z.max (- 2 ^ 63) (Z.min (2 ^ 63 - 1) (now - t)).

(** What one call of [connectionOnce] meets on its way: whether the
    context is cancelled on entry (lines 102-107), the errors of
    [setProxy] (line 123; none when no proxy is configured), of
    [DialContext] (line 138), of [ssh.NewClientConn] (line 149), the clock
    [t0] of line 164, the error and the reply body of the config request
    (lines 165-176), what [BindSSH] returned and the clock when it had
    returned (lines 179-181). *)
Record attempt : Type := {
  ctx_done : bool;
  proxy_err : option string;
  dial_err : option string;
  handshake_err : option string;
  t0 : Z;
  config_err : option string;
  configerr : string;
  bind_err : option string;
  t_return : Z
}.

(** [connectionOnce]: the results [(connected, err)]. *)
Definition connectionOnce (a : attempt) : bool * option string :=
  if ctx_done a then (false, Some "Cancelled"%string) else
  match proxy_err a with
  | Some e => (false, Some e)
  | None =>
  match dial_err a with
  | Some e => (false, Some e)
  | None =>
  match handshake_err a with
  | Some e => (false, Some e)
  | None =>
  match config_err a with
  | Some e => (false, Some e)
  | None =>
      if (0 <? String.length (configerr a))%nat then (false, Some (configerr a))
      else ((stability_threshold <? Since (t0 a) (t_return a))%Z, bind_err a)
  end end end end.

(** The attempt got as far as handing its session to [BindSSH]. *)
Definition session_bound (a : attempt) : bool :=
  negb (ctx_done a) &&
  match proxy_err a, dial_err a, handshake_err a, config_err a with
  | None, None, None, None => (String.length (configerr a) =? 0)%nat
  | _, _, _, _ => false
  end.

(** How long the session of a bound attempt was up: from the config
    request to the return of [BindSSH]. *)
Definition session_uptime (a : attempt) : Z := Since (t0 a) (t_return a).

(** The supervisor's state across iterations of [connectionLoop]:
    the attempt counter of the [backoff.Backoff] value [b] (set to zero by
    [b.Reset()]), and the three local variables. *)
Record backoff_state : Type := {
  b_attempt : Z;
  lastSuccess : option Z;
  consecutiveFailures : Z;
  adaptiveBackoff : Z
}.

(** [connectionLoop] before its first iteration (lines 22-25). *)
Definition initial_state : backoff_state :=
  {| b_attempt := 0; lastSuccess := None;
     consecutiveFailures := 0; adaptiveBackoff := 0 |}.

(** Lines 28-37: account for the attempt that just ended at time [now]. *)
Definition record_attempt (connected : bool) (now : Z) (s : backoff_state)
  : backoff_state :=
  if connected then
    {| b_attempt := 0; lastSuccess := Some now;
       consecutiveFailures := 0; adaptiveBackoff := 0 |}
  else
    {| b_attempt := b_attempt s; lastSuccess := lastSuccess s;
       consecutiveFailures := wrap64 (consecutiveFailures s + 1);
       adaptiveBackoff := adaptiveBackoff s |}.

(** Lines 64-84: the sleep before the next attempt.  [baseDuration] is
    what [b.Duration()] returned, [since] is [time.Since(lastSuccess)]
    when [lastSuccess] is not the zero time.  The result is
    [(finalBackoff, adaptiveBackoff)]. *)
Definition retry_backoff (baseDuration : Z) (consecutiveFailures : Z)
    (adaptiveBackoff : Z) (since : option Z) : Z * Z :=
  let adaptive1 :=
    if (3 <? consecutiveFailures)%Z then
      let a := wrap64 (baseDuration * wrap64 (Z.quot consecutiveFailures 3)) in
      if (hard_ceiling <? a)%Z then hard_ceiling else a
    else adaptiveBackoff in
  let adaptive2 :=
    match since with
    | Some d => if (probe_window <? d)%Z then probe_backoff else adaptive1
    | None => adaptive1
    end in
  let finalBackoff := wrap64 (baseDuration + adaptive2) in
  let finalBackoff := if (hard_ceiling <? finalBackoff)%Z then hard_ceiling else finalBackoff in
  (finalBackoff, adaptive2).

(** How an iteration of [connectionLoop] ends: the loop is left (line
    61), or it sleeps [finalBackoff] before the next attempt. *)
Inductive decision : Type :=
| GiveUp
| Retry (finalBackoff : Z).

(** One iteration of [connectionLoop] (lines 27-93).  [Duration_for n] is
    what [b.Duration()] returns when the attempt counter of [b] is [n] (the
    call also advances the counter); [now1] and [now2] are the clock at
    lines 32 and 76. *)
Definition connectionLoop_iteration (Duration_for : Z -> Z) (MaxRetryCount : Z)
    (a : attempt) (now1 now2 : Z) (s : backoff_state) : backoff_state * decision :=
  let connected := fst (connectionOnce a) in
  let s1 := record_attempt connected now1 s in
  let attempt := b_attempt s1 in
  if ((0 <=? MaxRetryCount) && (MaxRetryCount <=? attempt))%Z then (s1, GiveUp)
  else
    let baseDuration := Duration_for (b_attempt s1) in
    let since := option_map (fun t => Since t now2) (lastSuccess s1) in
    let r := retry_backoff baseDuration (consecutiveFailures s1)
               (adaptiveBackoff s1) since in
    ({| b_attempt := b_attempt s1 + 1; lastSuccess := lastSuccess s1;
        consecutiveFailures := consecutiveFailures s1;
        adaptiveBackoff := snd r |},
     Retry (fst r)).

(** The probe condition of line 76. *)
Definition probing (since : option Z) : bool :=
  match since with
  | Some d => (probe_window <? d)%Z
  | None => false
  end.

End Client.

(** ** The contract of [Read] *)

(** The [Read] contract in the words of the specification: a leftover
    from a prior message is drained first; otherwise one message is read,
    as many bytes as fit are returned and the whole remainder is kept. *)
Definition Read_as_specified (c : Cnet.wsConn) (ldst : nat)
  : Cnet.wsConn * (Cnet.bytes * option Cnet.error) :=
  match Cnet.buff c with
  | _ :: _ =>
      (Cnet.set_buff c (skipn ldst (Cnet.buff c)), (firstn ldst (Cnet.buff c), None))
  | [] =>
      match Cnet.ReadMessage (Cnet.SetReadLimit (Cnet.readBufSize c) (Cnet.conn c)) with
      | (k', inl frame) =>
          (Cnet.set_buff (Cnet.set_conn c k') (skipn ldst frame), (firstn ldst frame, None))
      | (k', inr e) => (Cnet.set_conn c k', ([], Some e))
      end
  end.

(** ** package cnet: [wsConn.Write] *)

Module CnetWrite.

(** The write side of gorilla/websocket's [Conn]: the messages handed to
    it so far, in order, and how many more [WriteMessage] accepts before it
    fails with [writeErr] ([None]: it never fails).  A write error is
    permanent. *)
Record WConn : Type := {
  outbound : list Cnet.bytes;
  writable : option nat;
  writeErr : Cnet.error
}.

Definition WriteMessage (k : WConn) (p : Cnet.bytes) : WConn * option Cnet.error :=
  match writable k with
  | Some 0 => (k, Some (writeErr k))
  | Some (S n) =>
      ({| outbound := outbound k ++ [p]; writable := Some n; writeErr := writeErr k |},
       None)
  | None =>
      ({| outbound := outbound k ++ [p]; writable := None; writeErr := writeErr k |},
       None)
  end.

(** [b[i:j]]; a slice expression with [j < i] or out of range panics. *)
Definition slice (b : Cnet.bytes) (i j : Z) : res Cnet.bytes :=
  if ((0 <=? i) && (i <=? j) && (j <=? Z.of_nat (List.length b)))%Z then
    Ok (firstn (Z.to_nat (j - i)) (skipn (Z.to_nat i) b))
  else Panic "slice bounds out of range".

(** How a call ends: with a value, with a panic, or never. *)
Inductive outcome (A : Type) : Type :=
| Returns (a : A)
| Panics (msg : string)
| Loops.
Arguments Returns {A} a.
Arguments Panics {A} msg.
Arguments Loops {A}.

(** The loop of lines 106-115, [i] being its variable; [fuel] bounds the
    number of iterations. *)
Fixpoint Write_loop (fuel : nat) (maxChunkSize : Z) (b : Cnet.bytes) (i : Z)
    (k : WConn) : outcome (WConn * (Z * option Cnet.error)) :=
  match fuel with
  | 0 => Loops
  | S fuel' =>
      if (i <? Z.of_nat (List.length b))%Z then
        let end_ := (i + maxChunkSize)%Z in
        let end_ := if (Z.of_nat (List.length b) <? end_)%Z
                    then Z.of_nat (List.length b) else end_ in
        match slice b i end_ with
        | Panic m => Panics m
        | Ok chunk =>
            match WriteMessage k chunk with
            | (k', Some err) => Returns (k', (i, Some err))
            | (k', None) => Write_loop fuel' maxChunkSize b (i + maxChunkSize)%Z k'
            end
        end
      else Returns (k, (Z.of_nat (List.length b), None))
  end.

(** [Write] (lines 79-124) on the write side [k].  The random delay before
    the frames only takes time.  With a chunk size of at least one the
    loop ends within [len(b)] iterations, which is the fuel given. *)
Definition Write (c : Cnet.wsConn) (k : WConn) (b : Cnet.bytes)
  : outcome (WConn * (Z * option Cnet.error)) :=
  let maxChunkSize := Cnet.writeBufSize c in
  if (maxChunkSize <? Z.of_nat (List.length b))%Z then
    Write_loop (S (List.length b)) maxChunkSize b 0 k
  else
    match WriteMessage k b with
    | (k', Some err) => Returns (k', (0%Z, Some err))
    | (k', None) => Returns (k', (Z.of_nat (List.length b), None))
    end.

(** The messages [Write] on a fresh adapter turns [b] into when the
    transport accepts them all: [b] cut every [size] bytes. *)
Fixpoint chunks (fuel : nat) (size : nat) (b : Cnet.bytes) : list Cnet.bytes :=
  match fuel with
  | 0 => []
  | S fuel' =>
      match b with
      | [] => []
      | _ => firstn size b :: chunks fuel' size (skipn size b)
      end
  end.

Definition frames_of (c : Cnet.wsConn) (b : Cnet.bytes) : list Cnet.bytes :=
  if (Cnet.writeBufSize c <? Z.of_nat (List.length b))%Z then
    chunks (List.length b) (Z.to_nat (Cnet.writeBufSize c)) b
  else [b].

(** A peer's read side that is about to receive these messages. *)
Definition receiving (frames : list Cnet.bytes) : Cnet.Conn :=
  {| Cnet.readLimit := 0; Cnet.inbound := map Cnet.Frame frames; Cnet.readErr := None |}.

(** A transport that never refuses a message. *)
Definition unlimited (sent : list Cnet.bytes) : WConn :=
  {| outbound := sent; writable := None; writeErr := Cnet.ErrClosed |}.

End CnetWrite.

(** ** What [Write] hands to the transport *)

(** The write side after it took the messages [fs]. *)
Definition sent_on (k : CnetWrite.WConn) (fs : list Cnet.bytes) (left : option nat)
  : CnetWrite.WConn :=
  {| CnetWrite.outbound := CnetWrite.outbound k ++ fs;
     CnetWrite.writable := left;
     CnetWrite.writeErr := CnetWrite.writeErr k |}.

(** [Write] in terms of the messages [fs] it has to send, the first at
    offset [i] of a payload of [lenb] bytes, each of [M] bytes but the
    last: the transport takes them all, or the [m] it still accepts, and
    then the count returned is the number of bytes in those. *)
Definition Write_result (M lenb i : Z) (k : CnetWrite.WConn) (fs : list Cnet.bytes)
  : CnetWrite.WConn * (Z * option Cnet.error) :=
  match CnetWrite.writable k with
  | None => (sent_on k fs None, (lenb, None))
  | Some m =>
      if (List.length fs <=? m)%nat
      then (sent_on k fs (Some (m - List.length fs)), (lenb, None))
      else (sent_on k (firstn m fs) (Some 0),
            ((i + Z.of_nat m * M)%Z, Some (CnetWrite.writeErr k)))
  end.

(** The transport still accepts [n] messages. *)
Definition accepts (k : CnetWrite.WConn) (n : nat) : Prop :=
  match CnetWrite.writable k with
  | None => True
  | Some m => n <= m
  end.

(** ** Counting the events of [runTCP] *)

(** The local connections the accept loop got in a schedule, and the
    [pipeRemote] goroutines that returned in it. *)
Definition accepts_in (sched : list Proxy.event) : nat :=
  List.length (List.filter (fun e => match e with Proxy.runTCP_accept => true | _ => false end) sched).

Definition returns_in (sched : list Proxy.event) : nat :=
  List.length (List.filter (fun e => match e with Proxy.pipeRemote_return => true | _ => false end) sched).

(** ** What [chunkedCopy] reads *)

(** What the successive [src.Read] calls of [chunkedCopy] return: the
    answers of [reads] to the chunk sizes drawn from iteration [i] on. *)
Fixpoint answers (intn : nat -> Z -> Z) (i : nat) (reads : list (Z -> Cio.read_result))
  : list Cio.read_result :=
  match reads with
  | [] => []
  | rd :: reads' =>
      rd (Cio.chunkSizeMin + intn i (Cio.chunkSizeMax - Cio.chunkSizeMin + 1))%Z
      :: answers intn (S i) reads'
  end.

(** The reads that returned bytes. *)
Definition with_data (rs : list Cio.read_result) : list Cio.read_result :=
  List.filter (fun r => (0 <? Cio.nr r)%Z) rs.

(** ** The answers that keep [keepAliveLoop] going *)

(** A ping answered without error whose reply body is empty or is
    [pong]. *)
Definition normal_ping (p : Tunnel.ping) : bool :=
  match p with
  | Tunnel.PingError => false
  | Tunnel.PingReply b => String.eqb b "" || String.eqb b "pong"
  end.

(** The answers before the first that is not normal. *)
Fixpoint leading_normal (pings : list Tunnel.ping) : list Tunnel.ping :=
  match pings with
  | [] => []
  | p :: rest => if normal_ping p then p :: leading_normal rest else []
  end.

(** ** package tunnel: from remotes to running proxies *)

Module Remotes.

(** The fields of [settings.Remote] that [listen] and [Run] look at. *)
Record Remote : Type := {
  Reverse : bool;
  Stdio : bool;
  LocalProto : string;
  LocalHost : string;
  LocalPort : string
}.

Inductive error : Type :=
| ErrNoRemotes               (* errors.New("no remotes") *)
| ErrInboundBlocked          (* errors.New("inbound connections blocked") *)
| ErrResolve (e : string)    (* p.Errorf("resolve: %s", err) *)
| ErrTCP (e : string)        (* p.Errorf("tcp: %s", err) *)
| ErrUDP (e : string)        (* the error of listenUDP *)
| ErrUnknownLocalProto.      (* p.Errorf("unknown local proto") *)

(** The network as [listen] meets it: a state [N] and what
    [net.ResolveTCPAddr], [net.ListenTCP] and [listenUDP] return on it.
    Addresses and listeners are handles. *)
Record Net (N : Type) : Type := {
  ResolveTCPAddr : N -> string -> N * (string + Z);
  ListenTCP : N -> Z -> N * (string + Z);
  listenUDP : N -> Remote -> N * (string + Z)
}.
Arguments ResolveTCPAddr {N} _ _ _.
Arguments ListenTCP {N} _ _ _.
Arguments listenUDP {N} _ _ _.

(** [Proxy], as far as listening goes; [inbound] is what
    [p.sshTun.IsInbound()] returns, the [Inbound] of the tunnel the proxy
    was made for. *)
Record Proxy : Type := {
  id : Z;
  remote : Remote;
  inbound : bool;
  tcp : option Z;
  udp : option Z
}.

Definition set_tcp (p : Proxy) (l : Z) : Proxy :=
  {| id := id p; remote := remote p; inbound := inbound p;
     tcp := Some l; udp := udp p |}.
Definition set_udp (p : Proxy) (l : Z) : Proxy :=
  {| id := id p; remote := remote p; inbound := inbound p;
     tcp := tcp p; udp := Some l |}.

(** [listen] (lines 64-95). *)
Definition listen {N} (net : Net N) (p : Proxy) (n : N) : N * (Proxy * option error) :=
  if Reverse (remote p) && negb (inbound p) then (n, (p, None))
  else if Stdio (remote p) then (n, (p, None))
  else if String.eqb (LocalProto (remote p)) "tcp" then
    match ResolveTCPAddr net n (LocalHost (remote p) ++ ":" ++ LocalPort (remote p)) with
    | (n1, inl e) => (n1, (p, Some (ErrResolve e)))
    | (n1, inr addr) =>
        match ListenTCP net n1 addr with
        | (n2, inl e) => (n2, (p, Some (ErrTCP e)))
        | (n2, inr l) => (n2, (set_tcp p l, None))
        end
    end
  else if String.eqb (LocalProto (remote p)) "udp" then
    match listenUDP net n (remote p) with
    | (n1, inl e) => (n1, (p, Some (ErrUDP e)))
    | (n1, inr l) => (n1, (set_udp p l, None))
    end
  else (n, (p, Some ErrUnknownLocalProto)).

(** [NewProxy] (lines 50-62): the proxy is returned also when [listen]
    failed. *)
Definition NewProxy {N} (net : Net N) (sshTun_inbound : bool) (index : Z)
    (r : Remote) (n : N) : N * (Proxy * option error) :=
  let id := wrap64 (index + 1) in
  listen net {| id := id; remote := r; inbound := sshTun_inbound;
                tcp := None; udp := None |} n.

(** What [Run] (lines 99-108) goes on to do: [runStdio]; the branch of
    [runTCP] that only waits for the context (lines 124-129); the accept
    loop of [runTCP] on [p.tcp]; [p.udp.run]. *)
Inductive running : Type :=
| runStdio
| runTCP_waits
| runTCP_accepts (l : option Z)
| udp_run (l : option Z).

Definition Run (p : Proxy) : res running :=
  if Stdio (remote p) then Ok runStdio
  else if String.eqb (LocalProto (remote p)) "tcp" then
    if Reverse (remote p) && negb (inbound p) then Ok runTCP_waits
    else Ok (runTCP_accepts (tcp p))
  else if String.eqb (LocalProto (remote p)) "udp" then Ok (udp_run (udp p))
  else Panic "should not get here".

(** A proxy of an inbound tunnel that has the listener its [Run] needs,
    so that [Run] does not panic. *)
Definition ready (p : Proxy) : Prop :=
  inbound p = true /\
  (Run p = Ok runStdio /\ Stdio (remote p) = true \/
   (exists l, Run p = Ok (runTCP_accepts (Some l)) /\ tcp p = Some l) \/
   (exists l, Run p = Ok (udp_run (Some l)) /\ udp p = Some l)).

(** The fields of [Tunnel] that [BindRemotes] touches. *)
Record Tunnel : Type := {
  Inbound : bool;
  proxyCount : Z
}.

(** The loop of lines 173-180 over the remaining remotes; [proxies] are
    those made so far, in order. *)
Fixpoint BindRemotes_loop {N} (net : Net N) (t : Tunnel) (remotes : list Remote)
    (proxies : list Proxy) (n : N) : N * (Tunnel * (error + list Proxy)) :=
  match remotes with
  | [] => (n, (t, inr proxies))
  | r :: rest =>
      match NewProxy net (Inbound t) (proxyCount t) r n with
      | (n1, (_, Some err)) => (n1, (t, inl err))
      | (n1, (p, None)) =>
          BindRemotes_loop net
            {| Inbound := Inbound t; proxyCount := wrap64 (proxyCount t + 1) |}
            rest (proxies ++ [p]) n1
      end
  end.

(** [BindRemotes] (lines 165-193) up to the point where it blocks: an
    error, or the proxies it starts [Run] on, one goroutine each. *)
Definition BindRemotes {N} (net : Net N) (t : Tunnel) (remotes : list Remote) (n : N)
  : N * (Tunnel * (error + list Proxy)) :=
  match remotes with
  | [] => (n, (t, inl ErrNoRemotes))
  | _ =>
      if negb (Inbound t) then (n, (t, inl ErrInboundBlocked))
      else BindRemotes_loop net t remotes [] n
  end.

(** A network on which every address resolves and every listener opens,
    the state counting the listeners handed out. *)
Definition open_net : Net Z :=
  {| ResolveTCPAddr := fun n _ => (n, inr 0%Z);
     ListenTCP := fun n _ => ((n + 1)%Z, inr n);
     listenUDP := fun n _ => ((n + 1)%Z, inr n) |}.

End Remotes.

(** ** package tunnel: [New] *)

Module NewTunnel.

(** [Config]. *)
Record Config : Type := {
  Inbound : bool;
  Outbound : bool;
  Socks : bool;
  KeepAlive : Z
}.

(** The tunnel [New] returns: the session state that [BindSSH] and
    [getSSH] work on, and the fields set up here.  [healthCheck] is the
    period of the ticker, when there is one; the goroutine
    [connectionPoolHealthCheck] runs exactly then. *)
Record Tunnel : Type := {
  config : Config;
  session : Tunnel.Tunnel;
  proxyCount : Z;
  connPool : list Tunnel.Conn;
  maxPoolSize : Z;
  socksServer : bool;
  healthCheck : option Z
}.

(** [time.NewTicker(d)]: the duration must be greater than zero; if not,
    [NewTicker] panics. *)
Definition NewTicker (d : Z) : res Z :=
  if (d <=? 0)%Z then Panic "non-positive interval for NewTicker" else Ok d.

(** [New] (lines 58-83); [c.KeepAlive / 2] is integer division. *)
Definition New (c : Config) : res Tunnel :=
  let t := {| config := c;
              session := {| Tunnel.activeConn := None;
                            Tunnel.activatingConn :=
                              Tunnel.wg_Add 1 {| Tunnel.wg_n := 0 |} |};
              proxyCount := 0;
              connPool := [];
              maxPoolSize := 5;
              socksServer := Socks c;
              healthCheck := None |} in
  if (0 <? KeepAlive c)%Z then
    res_bind (NewTicker (Z.quot (KeepAlive c) 2)) (fun ticker =>
    Ok {| config := config t; session := session t; proxyCount := proxyCount t;
          connPool := connPool t; maxPoolSize := maxPoolSize t;
          socksServer := socksServer t; healthCheck := Some ticker |})
  else Ok t.

End NewTunnel.

(** ** [connectionLoop] over many iterations *)

(** What one iteration of [connectionLoop] meets: the attempt, the clock
    at lines 32 and 76, and whether the context is cancelled while the
    loop sleeps (the select of lines 87-93). *)
Record round : Type := {
  round_attempt : Client.attempt;
  now1 : Z;
  now2 : Z;
  cancelled_in_sleep : bool
}.

(** How [connectionLoop] ends: it gives up (line 61), closes the client
    and returns; it returns on cancellation (line 92); or it is still
    going when the rounds given are used up. *)
Inductive loop_end : Type :=
| GaveUp
| Cancelled
| StillRunning.

(** [connectionLoop] from the state [s] on: the sleeps it takes, in
    order, and how it ends. *)
Fixpoint connectionLoop_from (Duration_for : Z -> Z) (MaxRetryCount : Z)
    (rounds : list round) (s : Client.backoff_state) : list Z * loop_end :=
  match rounds with
  | [] => ([], StillRunning)
  | r :: rest =>
      match Client.connectionLoop_iteration Duration_for MaxRetryCount
              (round_attempt r) (now1 r) (now2 r) s with
      | (_, Client.GiveUp) => ([], GaveUp)
      | (s', Client.Retry finalBackoff) =>
          if cancelled_in_sleep r then ([finalBackoff], Cancelled)
          else
            let (sleeps, e) := connectionLoop_from Duration_for MaxRetryCount rest s' in
            (finalBackoff :: sleeps, e)
      end
  end.

(** [connectionLoop] (lines 20-97). *)
Definition connectionLoop (Duration_for : Z -> Z) (MaxRetryCount : Z)
    (rounds : list round) : list Z * loop_end :=
  connectionLoop_from Duration_for MaxRetryCount rounds Client.initial_state.

(** The attempt of a round did not count as connected. *)
Definition failed_round (r : round) : bool :=
  negb (fst (Client.connectionOnce (round_attempt r))).

(** ** share/traffic/headers.go *)

Module Traffic.
Import stdpp.base stdpp.gmap stdpp.strings.

(** [http.Header], a [map[string][]string]. *)
Definition Header : Type := gmap string (list string).

(** [textproto.CanonicalMIMEHeaderKey], through which [Set], [Get] and
    [Del] pass their key.  It is a library outside this repository; its
    documented behaviour: the first letter and any letter following a
    hyphen are converted to upper case, the rest to lower case; a key with
    a space or another byte that is not valid in a header field name is
    returned without modifications. *)
Definition is_lower (c : Ascii.ascii) : bool :=
  (97 <=? Ascii.nat_of_ascii c)%nat && (Ascii.nat_of_ascii c <=? 122)%nat.
Definition is_upper (c : Ascii.ascii) : bool :=
  (65 <=? Ascii.nat_of_ascii c)%nat && (Ascii.nat_of_ascii c <=? 90)%nat.
Definition is_digit (c : Ascii.ascii) : bool :=
  (48 <=? Ascii.nat_of_ascii c)%nat && (Ascii.nat_of_ascii c <=? 57)%nat.

Definition validHeaderFieldByte (c : Ascii.ascii) : bool :=
  is_lower c || is_upper c || is_digit c ||
  existsb (Ascii.eqb c) (list_ascii_of_string "!#$%&'*+-.^_`|~").

Fixpoint canonical_from (upper : bool) (s : string) : string :=
  match s with
  | EmptyString => EmptyString
  | String c rest =>
      let c' :=
        if upper && is_lower c then Ascii.ascii_of_nat (Ascii.nat_of_ascii c - 32)
        else if negb upper && is_upper c then Ascii.ascii_of_nat (Ascii.nat_of_ascii c + 32)
        else c in
      String c' (canonical_from (Ascii.eqb c' (Ascii.ascii_of_nat 45)) rest)
  end.

Definition CanonicalMIMEHeaderKey (s : string) : string :=
  if forallb validHeaderFieldByte (list_ascii_of_string s)
  then canonical_from true s else s.

(** [h.Set(key, value)], [h.Get(key)] and [h.Del(key)]. *)
Definition Header_Set (h : Header) (key value : string) : Header :=
  <[CanonicalMIMEHeaderKey key := [value]]> h.

Definition Header_Get (h : Header) (key : string) : string :=
  match h !! CanonicalMIMEHeaderKey key with
  | Some (v :: _) => v
  | _ => ""
  end.

Definition Header_Del (h : Header) (key : string) : Header :=
  delete (CanonicalMIMEHeaderKey key) h.

Definition userAgents : list string :=
  ["Mozilla/5.0 (Windows NT 10.0; Win64; x64) AppleWebKit/537.36 (KHTML, like Gecko) Chrome/120.0.0.0 Safari/537.36";
   "Mozilla/5.0 (Windows NT 10.0; Win64; x64) AppleWebKit/537.36 (KHTML, like Gecko) Chrome/119.0.0.0 Safari/537.36";
   "Mozilla/5.0 (Macintosh; Intel Mac OS X 10_15_7) AppleWebKit/537.36 (KHTML, like Gecko) Chrome/120.0.0.0 Safari/537.36";
   "Mozilla/5.0 (Windows NT 10.0; Win64; x64; rv:121.0) Gecko/20100101 Firefox/121.0";
   "Mozilla/5.0 (Macintosh; Intel Mac OS X 10_15_7) AppleWebKit/605.1.15 (KHTML, like Gecko) Version/17.1 Safari/605.1.15";
   "Mozilla/5.0 (Windows NT 10.0; Win64; x64) AppleWebKit/537.36 (KHTML, like Gecko) Chrome/120.0.0.0 Safari/537.36 Edg/120.0.0.0"].

Definition languages : list string :=
  ["en-US,en;q=0.9";
   "en-GB,en;q=0.9";
   "zh-CN,zh;q=0.9,en;q=0.8";
   "ja,en-US;q=0.9,en;q=0.8";
   "de-DE,de;q=0.9,en;q=0.8";
   "fr-FR,fr;q=0.9,en;q=0.8";
   "es-ES,es;q=0.9,en;q=0.8"].

Definition origins : list string :=
  ["https://www.google.com";
   "https://www.github.com";
   "https://www.stackoverflow.com";
   "https://www.reddit.com";
   "https://www.youtube.com";
   "https://www.facebook.com";
   "https://www.twitter.com"].

(** The package's generator [rng]: [Intn] draws from a source and
    advances it. *)
Record Rand (R : Type) : Type := {
  Intn : R -> Z -> Z * R
}.
Arguments Intn {R} _ _ _.

(** What math/rand documents of [Intn(n)] for [n > 0]: a number in
    [0, n). *)
Definition Intn_in_range {R} (rand : Rand R) : Prop :=
  forall (rng : R) (n : Z), (0 < n)%Z -> (0 <= fst (Intn rand rng n) < n)%Z.

(** [l[i]]; an index out of range panics. *)
Definition index (l : list string) (i : Z) : res string :=
  if (i <? 0)%Z then Panic "index out of range"
  else match nth_error l (Z.to_nat i) with
       | Some s => Ok s
       | None => Panic "index out of range"
       end.

(** [GenerateRealisticHeaders] (lines 48-80). *)
Definition GenerateRealisticHeaders {R} (rand : Rand R) (rng : R) : res (Header * R) :=
  let headers : Header := empty in
  let (i, rng) := Intn rand rng (Z.of_nat (List.length userAgents)) in
  res_bind (index userAgents i) (fun ua =>
  let headers := Header_Set headers "User-Agent" ua in
  let headers := Header_Set headers "Accept" "*/*" in
  let (i, rng) := Intn rand rng (Z.of_nat (List.length languages)) in
  res_bind (index languages i) (fun lang =>
  let headers := Header_Set headers "Accept-Language" lang in
  let headers := Header_Set headers "Accept-Encoding" "gzip, deflate, br" in
  let (i, rng) := Intn rand rng (Z.of_nat (List.length origins)) in
  res_bind (index origins i) (fun origin =>
  let headers := Header_Set headers "Origin" origin in
  let headers := Header_Set headers "Cache-Control" "no-cache" in
  let headers := Header_Set headers "Pragma" "no-cache" in
  Ok (headers, rng)))).

(** [MergeHeaders] (lines 84-98).  A [range] over a map visits every entry
    once, in an order the language leaves open: [realistic_order] and
    [user_order] are the entries of the two maps in the order the two loops
    visit them. *)
Definition MergeHeaders_in (user_order realistic_order : list (string * list string))
  : Header :=
  let result : Header := empty in
  let result := fold_left (fun res kv => <[fst kv := snd kv]> res) realistic_order result in
  let result := fold_left (fun res kv => <[fst kv := snd kv]> res) user_order result in
  result.

(** The keys [GenerateRealisticHeaders] sets. *)
Definition generated_keys : list string :=
  ["User-Agent"; "Accept"; "Accept-Language"; "Accept-Encoding"; "Origin";
   "Cache-Control"; "Pragma"].

(** headers_test.go, [TestGenerateRealisticHeaders] (lines 8-45): the
    messages it reports with [t.Errorf], in order; the test passes when
    there are none. *)
Definition requiredHeaders : list string :=
  ["User-Agent"; "Accept"; "Accept-Language"; "Accept-Encoding"; "Origin";
   "Connection"; "Upgrade"].

Definition TestGenerateRealisticHeaders {R} (rand : Rand R) (rng : R)
  : res (list string) :=
  res_bind (GenerateRealisticHeaders rand rng) (fun '(headers, _) =>
  let missing :=
    flat_map (fun header =>
                if String.eqb (Header_Get headers header) ""
                then [String.append "Required header " (String.append header " is missing")]
                else [])
      requiredHeaders in
  let userAgent := Header_Get headers "User-Agent" in
  let found := existsb (String.eqb userAgent) userAgents in
  let not_listed :=
    if found then []
    else [String.append "User-Agent "
            (String.append userAgent " is not in the expected list")] in
  let upgrade :=
    if String.eqb (Header_Get headers "Upgrade") "websocket" then []
    else [String.append "Upgrade header should be 'websocket', got '"
            (String.append (Header_Get headers "Upgrade") "'")] in
  Ok (missing ++ not_listed ++ upgrade)).

(** A generator that always draws 0. *)
Definition zero_rand : Rand unit := {| Intn := fun _ _ => (0%Z, tt) |}.

End Traffic.

(** ** share/cnet/meter.go *)

Module Meter.

(** The atomic fields of [Meter]. *)
Record Meter : Type := {
  sent : Z;
  recv : Z;
  printing : bool;
  last : Z;
  lsent : Z;
  lrecv : Z
}.

(** [NewMeter]: every field at its zero value. *)
Definition NewMeter : Meter :=
  {| sent := 0; recv := 0; printing := false; last := 0; lsent := 0; lrecv := 0 |}.

(** Where a [goprint] goroutine is: the line of its next atomic operation
    (the sleep of line 39 only takes time). *)
Inductive goprint_pc : Type :=
| L41   (* s := m.sent.Load() *)
| L42   (* r := m.recv.Load() *)
| L44   (* curr := time.Now().UnixNano() *)
| L45   (* last := m.last.Load() *)
| L47   (* ls := m.lsent.Load() *)
| L48   (* lr := m.lrecv.Load(), then the speeds of lines 52-53 *)
| L58   (* m.lsent.Store(s) *)
| L59   (* m.lrecv.Store(r) *)
| L61   (* m.last.Store(curr) *)
| L62.  (* m.printing.Store(false), and the goroutine ends *)

(** A [goprint] goroutine: its position and its local variables. *)
Record goprint : Type := {
  pc : goprint_pc;
  s : Z;
  r : Z;
  curr : Z;
  last_ : Z;
  ls : Z
}.

Definition at_ (g : goprint) (p : goprint_pc) : goprint :=
  {| pc := p; s := s g; r := r g; curr := curr g; last_ := last_ g; ls := ls g |}.

(** A meter, the [goprint] goroutines running on it, and the byte counts
    [(s - ls, r - lr)] that the speeds of lines 52-53 were computed from,
    in order. *)
Record system : Type := {
  meter : Meter;
  printers : list goprint;
  deltas : list (Z * Z)
}.

Definition initial : system :=
  {| meter := NewMeter; printers := []; deltas := [] |}.

(** The atomic operations of the goroutines around a meter:
    - [recv_Add n]: [m.recv.Add(int64(n))] of [meterReader.Read];
    - [sent_Add n]: [m.sent.Add(int64(n))] of [meterWriter.Write];
    - [print]: the compare-and-swap of [Meter.print], which starts a
      [goprint] goroutine when it succeeds;
    - [goprint_step i now]: the [i]-th running [goprint] goroutine does its
      next operation, the clock reading [now]. *)
Inductive event : Type :=
| recv_Add (n : Z)
| sent_Add (n : Z)
| print
| goprint_step (i : nat) (now : Z).

Definition set_meter (st : system) (m : Meter) : system :=
  {| meter := m; printers := printers st; deltas := deltas st |}.

(** Replace the [i]-th goroutine, or remove it when it has ended. *)
Fixpoint put {A} (i : nat) (x : option A) (l : list A) : list A :=
  match l, i with
  | [], _ => []
  | _ :: rest, 0 => match x with Some y => y :: rest | None => rest end
  | a :: rest, S j => a :: put j x rest
  end.

(** One operation of a [goprint] goroutine on the meter: the meter after
    it, the goroutine after it ([None]: it has ended), and the byte counts
    it computed, if it did. *)
Definition goprint_op (now : Z) (g : goprint) (m : Meter)
  : Meter * option goprint * option (Z * Z) :=
  match pc g with
  | L41 => (m, Some {| pc := L42; s := sent m; r := r g; curr := curr g;
                       last_ := last_ g; ls := ls g |}, None)
  | L42 => (m, Some {| pc := L44; s := s g; r := recv m; curr := curr g;
                       last_ := last_ g; ls := ls g |}, None)
  | L44 => (m, Some {| pc := L45; s := s g; r := r g; curr := now;
                       last_ := last_ g; ls := ls g |}, None)
  | L45 => (m, Some {| pc := L47; s := s g; r := r g; curr := curr g;
                       last_ := last m; ls := ls g |}, None)
  | L47 => (m, Some {| pc := L48; s := s g; r := r g; curr := curr g;
                       last_ := last_ g; ls := lsent m |}, None)
  | L48 => (m, Some (at_ g L58), Some (wrap64 (s g - ls g), wrap64 (r g - lrecv m)))
  | L58 => ({| sent := sent m; recv := recv m; printing := printing m;
               last := last m; lsent := s g; lrecv := lrecv m |},
            Some (at_ g L59), None)
  | L59 => ({| sent := sent m; recv := recv m; printing := printing m;
               last := last m; lsent := lsent m; lrecv := r g |},
            Some (at_ g L61), None)
  | L61 => ({| sent := sent m; recv := recv m; printing := printing m;
               last := curr g; lsent := lsent m; lrecv := lrecv m |},
            Some (at_ g L62), None)
  | L62 => ({| sent := sent m; recv := recv m; printing := false;
               last := last m; lsent := lsent m; lrecv := lrecv m |},
            None, None)
  end.

(** [None]: there is no [i]-th goroutine to step. *)
Definition step (e : event) (st : system) : option system :=
  let m := meter st in
  match e with
  | recv_Add n =>
      Some (set_meter st {| sent := sent m; recv := wrap64 (recv m + n);
                            printing := printing m; last := last m;
                            lsent := lsent m; lrecv := lrecv m |})
  | sent_Add n =>
      Some (set_meter st {| sent := wrap64 (sent m + n); recv := recv m;
                            printing := printing m; last := last m;
                            lsent := lsent m; lrecv := lrecv m |})
  | print =>
      if printing m then Some st
      else
        Some {| meter := {| sent := sent m; recv := recv m; printing := true;
                            last := last m; lsent := lsent m; lrecv := lrecv m |};
                printers := printers st
                            ++ [{| pc := L41; s := 0; r := 0; curr := 0;
                                   last_ := 0; ls := 0 |}];
                deltas := deltas st |}
  | goprint_step i now =>
      match nth_error (printers st) i with
      | None => None
      | Some g =>
          match goprint_op now g m with
          | (m', g', d) =>
              Some {| meter := m';
                      printers := put i g' (printers st);
                      deltas := deltas st ++ match d with Some x => [x] | None => [] end |}
          end
      end
  end.

Fixpoint run (sched : list event) (st : system) : option system :=
  match sched with
  | [] => Some st
  | e :: rest =>
      match step e st with
      | Some st' => run rest st'
      | None => None
      end
  end.

(** The bytes a schedule adds to the two counters; [Read] and [Write]
    return counts that are not negative. *)
Definition added_recv (e : event) : Z :=
  match e with recv_Add n => n | _ => 0%Z end.
Definition added_sent (e : event) : Z :=
  match e with sent_Add n => n | _ => 0%Z end.
Definition counts_ok (e : event) : Prop :=
  (0 <= added_recv e)%Z /\ (0 <= added_sent e)%Z.

Definition total_recv (sched : list event) : Z :=
  fold_right Z.add 0%Z (map added_recv sched).
Definition total_sent (sched : list event) : Z :=
  fold_right Z.add 0%Z (map added_sent sched).

(** The operations a goroutine has behind it. *)
Definition passed (g : goprint) (p : goprint_pc) : bool :=
  let rank q :=
    match q with
    | L41 => 0 | L42 => 1 | L44 => 2 | L45 => 3 | L47 => 4
    | L48 => 5 | L58 => 6 | L59 => 7 | L61 => 8 | L62 => 9
    end in
  (rank p <? rank (pc g))%nat.

(** What every reachable state satisfies. *)
Definition goprint_inv (m : Meter) (g : goprint) : Prop :=
  (passed g L41 = true -> (lsent m <= s g <= sent m)%Z) /\
  (passed g L42 = true -> (lrecv m <= r g <= recv m)%Z) /\
  (pc g = L48 -> ls g = lsent m).

Definition meter_inv (st : system) : Prop :=
  (0 <= lsent (meter st) <= sent (meter st))%Z /\
  (0 <= lrecv (meter st) <= recv (meter st))%Z /\
  (if printing (meter st)
   then exists g, printers st = [g] /\ goprint_inv (meter st) g
   else printers st = []) /\
  Forall (fun d => (0 <= fst d)%Z /\ (0 <= snd d)%Z) (deltas st).

End Meter.

(** ** share/traffic/simulator.go *)

Module Simulator.

(** [TrafficPattern] is an [int]; the three named values. *)
Definition PatternHTTPLike : Z := 0.
Definition PatternSSHLike : Z := 1.
Definition PatternRandom : Z := 2.

(** [Simulator]; [cancelled] is the state of its context, times are in
    nanoseconds. *)
Record Simulator : Type := {
  pattern : Z;
  enabled : bool;
  intensity : Z;
  cancelled : bool;
  lastUpdate : Z;
  burstMode : bool;
  burstCount : Z;
  idlePeriod : Z
}.

(** [NewSimulator] at clock [now]. *)
Definition NewSimulator (p : Z) (now : Z) : Simulator :=
  {| pattern := p; enabled := true; intensity := 100; cancelled := false;
     lastUpdate := now; burstMode := false; burstCount := 0; idlePeriod := 0 |}.

(** The simulator's generator: [Intn] and [Int63n] draw from a source and
    advance it; for [n > 0] both return a number in [0, n). *)
Record Rand (R : Type) : Type := {
  Intn : R -> Z -> Z * R;
  Int63n : R -> Z -> Z * R
}.
Arguments Intn {R} _ _ _.
Arguments Int63n {R} _ _ _.

Definition in_range {R} (rand : Rand R) : Prop :=
  forall (rng : R) (n : Z), (0 < n)%Z ->
    (0 <= fst (Intn rand rng n) < n)%Z /\ (0 <= fst (Int63n rand rng n) < n)%Z.

Definition set_burst (s : Simulator) (mode : bool) (count idle last : Z) : Simulator :=
  {| pattern := pattern s; enabled := enabled s; intensity := intensity s;
     cancelled := cancelled s; lastUpdate := last;
     burstMode := mode; burstCount := count; idlePeriod := idle |}.

(** [simulateHTTPLike] (lines 112-133) at clock [now]. *)
Definition simulateHTTPLike {R} (rand : Rand R) (now : Z) (s : Simulator) (rng : R)
  : Z * (Simulator * R) :=
  if burstMode s then
    let count := wrap64 (burstCount s - 1) in
    if (count <=? 0)%Z then
      let (d1, rng) := Int63n rand rng (3 * Client.Second) in
      let s := set_burst s false count (wrap64 (d1 + 2 * Client.Second)) (lastUpdate s) in
      let (d2, rng) := Int63n rand rng (150 * Client.Millisecond) in
      (wrap64 (d2 + 50 * Client.Millisecond), (s, rng))
    else
      let s := set_burst s true count (idlePeriod s) (lastUpdate s) in
      let (d2, rng) := Int63n rand rng (150 * Client.Millisecond) in
      (wrap64 (d2 + 50 * Client.Millisecond), (s, rng))
  else
    if (idlePeriod s <? Client.Since (lastUpdate s) now)%Z then
      let (k, rng) := Intn rand rng 10 in
      let s := set_burst s true (wrap64 (k + 5)) (idlePeriod s) now in
      let (d, rng) := Int63n rand rng (2 * Client.Second) in
      (wrap64 (d + 1 * Client.Second), (s, rng))
    else
      let (d, rng) := Int63n rand rng (2 * Client.Second) in
      (wrap64 (d + 1 * Client.Second), (s, rng)).

(** [simulateSSHLike] (lines 136-155) and [simulateRandom] (lines 158-177)
    differ in their numbers only: the bound and base of the interval in a
    burst, the percentage of calls that start a burst, the bound and base
    of the burst length, the bound and base of the interval outside a
    burst. *)
Definition simulate_with {R} (rand : Rand R)
    (burst_n burst_base chance count_n count_base normal_n normal_base : Z)
    (s : Simulator) (rng : R) : Z * (Simulator * R) :=
  if burstMode s then
    let count := wrap64 (burstCount s - 1) in
    let s := set_burst s (negb (count <=? 0)%Z) count (idlePeriod s) (lastUpdate s) in
    let (d, rng) := Int63n rand rng burst_n in
    (wrap64 (d + burst_base), (s, rng))
  else
    let (c, rng) := Intn rand rng 100 in
    if (c <? chance)%Z then
      let (k, rng) := Intn rand rng count_n in
      let s := set_burst s true (wrap64 (k + count_base)) (idlePeriod s) (lastUpdate s) in
      let (d, rng) := Int63n rand rng normal_n in
      (wrap64 (d + normal_base), (s, rng))
    else
      let (d, rng) := Int63n rand rng normal_n in
      (wrap64 (d + normal_base), (s, rng)).

Definition simulateSSHLike {R} (rand : Rand R) (s : Simulator) (rng : R)
  : Z * (Simulator * R) :=
  simulate_with rand (400 * Client.Millisecond) (100 * Client.Millisecond)
    5 8 3 (2500 * Client.Millisecond) (500 * Client.Millisecond) s rng.

Definition simulateRandom {R} (rand : Rand R) (s : Simulator) (rng : R)
  : Z * (Simulator * R) :=
  simulate_with rand (100 * Client.Millisecond) (10 * Client.Millisecond)
    10 20 5 (5 * Client.Second) (100 * Client.Millisecond) s rng.

(** The switch of [simulatePattern] (lines 88-100); with a pattern that
    is none of the three the interval stays zero. *)
Definition interval_of {R} (rand : Rand R) (now : Z) (s : Simulator) (rng : R)
  : Z * (Simulator * R) :=
  if (pattern s =? PatternHTTPLike)%Z then simulateHTTPLike rand now s rng
  else if (pattern s =? PatternSSHLike)%Z then simulateSSHLike rand s rng
  else if (pattern s =? PatternRandom)%Z then simulateRandom rand s rng
  else (0%Z, (s, rng)).

(** [simulatePattern] (lines 85-109): the duration it sleeps. *)
Definition simulatePattern {R} (rand : Rand R) (now : Z) (s : Simulator) (rng : R)
  : Z * (Simulator * R) :=
  let '(interval, (s, rng)) := interval_of rand now s rng in
  let actualInterval :=
    Tunnel.Duration_of_float64
      (Tunnel.float64_of_int64 interval
       * (Tunnel.float64_of_int64 (intensity s) / 100))%float in
  let actualInterval :=
    if (actualInterval <? 50 * Client.Millisecond)%Z then (50 * Client.Millisecond)%Z
    else actualInterval in
  (actualInterval, (s, rng)).

(** The loop of [run] (lines 73-82): it returns when the context is
    cancelled, and otherwise goes on, here for as many iterations as there
    are clock readings.  The result is the durations slept and the state
    after them. *)
Fixpoint run {R} (rand : Rand R) (nows : list Z) (s : Simulator) (rng : R)
  : list Z * (Simulator * R) :=
  match nows with
  | [] => ([], (s, rng))
  | now :: rest =>
      if cancelled s then ([], (s, rng))
      else
        let '(d, (s1, rng1)) := simulatePattern rand now s rng in
        let '(ds, sr) := run rand rest s1 rng1 in
        (d :: ds, sr)
  end.

(** [Start] (lines 57-63): whether it starts the goroutine of [run]. *)
Definition Start (s : Simulator) : bool := enabled s.

(** [Stop] (lines 66-70) and [SetEnabled] (lines 191-196): a simulator
    made by [NewSimulator] has a [cancel] function, which cancels its
    context for good. *)
Definition Stop (s : Simulator) : Simulator :=
  {| pattern := pattern s; enabled := enabled s; intensity := intensity s;
     cancelled := true; lastUpdate := lastUpdate s;
     burstMode := burstMode s; burstCount := burstCount s;
     idlePeriod := idlePeriod s |}.

Definition SetEnabled (s : Simulator) (e : bool) : Simulator :=
  {| pattern := pattern s; enabled := e; intensity := intensity s;
     cancelled := if e then cancelled s else true; lastUpdate := lastUpdate s;
     burstMode := burstMode s; burstCount := burstCount s;
     idlePeriod := idlePeriod s |}.

(** [SetPattern] (lines 204-206). *)
Definition SetPattern (s : Simulator) (p : Z) : Simulator :=
  {| pattern := p; enabled := enabled s; intensity := intensity s;
     cancelled := cancelled s; lastUpdate := lastUpdate s;
     burstMode := burstMode s; burstCount := burstCount s;
     idlePeriod := idlePeriod s |}.

(** Lines 180-188. *)
Definition SetIntensity (s : Simulator) (i : Z) : Simulator :=
  let i := if (i <? 0)%Z then 0%Z else i in
  let i := if (100 <? i)%Z then 100%Z else i in
  {| pattern := pattern s; enabled := enabled s; intensity := i;
     cancelled := cancelled s; lastUpdate := lastUpdate s;
     burstMode := burstMode s; burstCount := burstCount s;
     idlePeriod := idlePeriod s |}.

(** The length a burst has when a call starts one, by pattern. *)
Definition burst_length_range (p : Z) : Z * Z :=
  if (p =? PatternHTTPLike)%Z then (5, 14)%Z
  else if (p =? PatternSSHLike)%Z then (3, 10)%Z
  else (5, 24)%Z.

(** A simulator in a burst has calls of the burst left. *)
Definition burst_inv (s : Simulator) : Prop :=
  burstMode s = true -> (1 <= burstCount s < 2 ^ 63)%Z.

(** A generator that always draws 0. *)
Definition zero_rand : Rand unit :=
  {| Intn := fun _ _ => (0%Z, tt); Int63n := fun _ _ => (0%Z, tt) |}.

(** The calls a user of the simulator makes on it. *)
Inductive call : Type :=
| call_Stop
| call_SetEnabled (e : bool)
| call_SetIntensity (i : Z)
| call_SetPattern (p : Z).

Definition do_call (s : Simulator) (c : call) : Simulator :=
  match c with
  | call_Stop => Stop s
  | call_SetEnabled e => SetEnabled s e
  | call_SetIntensity i => SetIntensity s i
  | call_SetPattern p => SetPattern s p
  end.

(** A call that stops the simulator. *)
Definition stops (c : call) : bool :=
  match c with
  | call_Stop => true
  | call_SetEnabled e => negb e
  | _ => false
  end.

End Simulator.

(** ** headers_test.go: [TestMergeHeaders] *)

Module TrafficTest.
Import stdpp.base stdpp.gmap stdpp.strings.

(** [MergeHeaders], [range] giving the order in which a loop visits the
    entries of a map. *)
Definition MergeHeaders (range : Traffic.Header -> list (string * list string))
    (userHeaders realisticHeaders : Traffic.Header) : Traffic.Header :=
  Traffic.MergeHeaders_in (range userHeaders) (range realisticHeaders).

(** What the language says of [range] over a map: every entry is visited
    once. *)
Definition visits_all (range : Traffic.Header -> list (string * list string)) : Prop :=
  forall h, Permutation (range h) (map_to_list h).

(** [TestMergeHeaders] (lines 47-69): the messages it reports. *)
Definition TestMergeHeaders {R} (rand : Traffic.Rand R) (rng : R)
    (range : Traffic.Header -> list (string * list string)) : res (list string) :=
  res_bind (Traffic.GenerateRealisticHeaders rand rng) (fun '(realisticHeaders, _) =>
  let userHeaders : Traffic.Header := empty in
  let userHeaders := Traffic.Header_Set userHeaders "User-Agent" "Custom-Agent/1.0" in
  let userHeaders := Traffic.Header_Set userHeaders "X-Custom-Header" "custom-value" in
  let merged := MergeHeaders range userHeaders realisticHeaders in
  let e1 :=
    if String.eqb (Traffic.Header_Get merged "User-Agent") "Custom-Agent/1.0" then []
    else [String.append "User header should take precedence, got '"
            (String.append (Traffic.Header_Get merged "User-Agent") "'")] in
  let e2 :=
    if String.eqb (Traffic.Header_Get merged "X-Custom-Header") "custom-value" then []
    else [String.append "Custom header should be present, got '"
            (String.append (Traffic.Header_Get merged "X-Custom-Header") "'")] in
  let e3 :=
    if String.eqb (Traffic.Header_Get merged "Accept") "" then
      ["Realistic headers should still be present"]
    else [] in
  Ok (e1 ++ e2 ++ e3)).

End TrafficTest.

(** * Theorems *)

Section TunnelFacts.
Import Tunnel.

Lemma run_app (s1 s2 : list action) (t : Tunnel) :
  run (s1 ++ s2) t = res_bind (run s1 t) (run s2).
Proof.
  revert t; induction s1 as [|a s1 IH]; intros t; simpl; [reflexivity|].
  destruct (exec a t) as [t'|m]; simpl; [apply IH | reflexivity].
Qed.


(** Only watchers run: the session stays, the latch opens if one fires. *)
Lemma run_watchers sched : forall t,
  caller sched = [] ->
  run sched t
  = Ok {| activeConn := activeConn t;
          activatingConn :=
            if existsb is_watcher sched then {| wg_n := 0 |} else activatingConn t |}.
Proof.
  induction sched as [|a rest IH]; intros t Hc.
  - destruct t; reflexivity.
  - destruct a; simpl in Hc; try discriminate.
    simpl. rewrite IH by exact Hc. simpl.
    destruct (existsb is_watcher rest); reflexivity.
Qed.

Lemma run_to_clear sched : forall t,
  caller sched = [BindClear] ->
  run sched t
  = Ok {| activeConn := None;
          activatingConn :=
            if existsb is_watcher sched then {| wg_n := 0 |} else activatingConn t |}.
Proof.
  induction sched as [|a rest IH]; intros t Hc; [discriminate|].
  destruct a; simpl in Hc; try discriminate.
  - injection Hc as Hc. simpl. rewrite run_watchers by exact Hc. reflexivity.
  - simpl. rewrite IH by exact Hc. simpl.
    destruct (existsb is_watcher rest); reflexivity.
Qed.

Lemma run_to_rearm sched : forall t,
  caller sched = [BindRearm; BindClear] ->
  wg_n (activatingConn t) = 0 ->
  run sched t
  = Ok {| activeConn := None;
          activatingConn := {| wg_n := if released sched then 0 else 1 |} |}.
Proof.
  induction sched as [|a rest IH]; intros t Hc Hz; [discriminate|].
  destruct a; simpl in Hc; try discriminate.
  - injection Hc as Hc. simpl. rewrite run_to_clear by exact Hc.
    unfold released, wg_Add; simpl. rewrite Hz.
    destruct (existsb is_watcher rest); reflexivity.
  - simpl. rewrite IH by (simpl; auto). reflexivity.
Qed.

Lemma run_to_release sched : forall t,
  caller sched = [BindRelease; BindRearm; BindClear] ->
  wg_n (activatingConn t) <= 1 ->
  run sched t
  = Ok {| activeConn := None;
          activatingConn := {| wg_n := if released sched then 0 else 1 |} |}.
Proof.
  induction sched as [|a rest IH]; intros t Hc Hle; [discriminate|].
  destruct a; simpl in Hc; try discriminate.
  - injection Hc as Hc. simpl. rewrite run_to_rearm by (simpl; auto; lia).
    reflexivity.
  - simpl. rewrite IH by (simpl; auto; lia). reflexivity.
Qed.

(** A whole call, with watchers firing wherever they like. *)
Lemma run_BindSSH c sched : forall t,
  caller sched = BindSSH c ->
  activeConn t = None ->
  wg_n (activatingConn t) <= 1 ->
  run sched t
  = Ok {| activeConn := None;
          activatingConn := {| wg_n := if released sched then 0 else 1 |} |}.
Proof.
  induction sched as [|a rest IH]; intros t Hc Hn Hle; [discriminate|].
  destruct a; simpl in Hc; try discriminate.
  - injection Hc as -> Hc. simpl. rewrite Hn. simpl.
    rewrite run_to_release by (simpl; auto). reflexivity.
  - simpl. rewrite IH by (simpl; auto; lia). reflexivity.
Qed.



(** The state a call leaves behind is again one a call can start from. *)
Corollary BindSSH_keeps_precondition c sched t t2 :
  caller sched = BindSSH c ->
  activeConn t = None ->
  wg_n (activatingConn t) <= 1 ->
  run sched t = Ok t2 ->
  activeConn t2 = None /\ wg_n (activatingConn t2) <= 1.
Proof.
  intros Hc Hn Hle Hrun. rewrite (run_BindSSH c sched t Hc Hn Hle) in Hrun.
  injection Hrun as <-. simpl. split; [reflexivity|].
  destruct (released sched); lia.
Qed.

End TunnelFacts.

(** C10.  A [getSSH] call whose context is already cancelled on entry
    returns nil at once, whatever the tunnel holds: the cancellation check
    comes before the lookup of the active session.  When a session is
    stored, a caller with a live context is handed it. *)
Theorem getSSH_cancelled_returns_nil (ctx : Tunnel.Context) (t : Tunnel.Tunnel) :
  Tunnel.cancelled ctx = true ->
  Tunnel.getSSH ctx t = Tunnel.Returned None /\
  (forall c, Tunnel.activeConn t = Some c ->
     Tunnel.getSSH Tunnel.live t = Tunnel.Returned (Some c)).
Proof.
  intros Hc. split.
  - unfold Tunnel.getSSH, Tunnel.isDone. rewrite Hc. reflexivity.
  - intros c Ha. unfold Tunnel.getSSH. simpl. rewrite Ha. reflexivity.
Qed.

(** Session 7 is stored and the latch is open: the caller with the
    cancelled context gets nil, the one with a live context the session. *)
Lemma getSSH_cancelled_returns_nil_witness :
  Tunnel.getSSH Tunnel.done
    {| Tunnel.activeConn := Some 7; Tunnel.activatingConn := {| Tunnel.wg_n := 0 |} |}
  = Tunnel.Returned None /\
  Tunnel.getSSH Tunnel.live
    {| Tunnel.activeConn := Some 7; Tunnel.activatingConn := {| Tunnel.wg_n := 0 |} |}
  = Tunnel.Returned (Some 7).
Proof.
  destruct (getSSH_cancelled_returns_nil Tunnel.done
              {| Tunnel.activeConn := Some 7;
                 Tunnel.activatingConn := {| Tunnel.wg_n := 0 |} |} eq_refl)
    as [H1 H2].
  split; [exact H1 | apply H2; reflexivity].
Defined.




Section CnetFacts.
Import Cnet.

Lemma NewWebSocketConn_bounded k : buffer_bounded (NewWebSocketConn k).
Proof. split; simpl; lia. Qed.

(** The branch of lines 66-70 cuts the remainder down to [readBufSize]
    bytes when it is reached. *)
Lemma Read_copy_cuts c src ldst :
  (0 <= readBufSize c)%Z ->
  (readBufSize c < Z.of_nat (List.length src) - Z.of_nat ldst)%Z ->
  Read_copy c src ldst
  = Ok (set_buff c (firstn (Z.to_nat (readBufSize c)) (skipn ldst src)),
        (firstn ldst src, None)).
Proof.
  intros H0 Hlt. unfold Read_copy.
  assert (Hl : (ldst <? List.length src)%nat = true) by (apply Nat.ltb_lt; lia).
  rewrite Hl, length_skipn.
  destruct (Z.leb_spec (Z.of_nat (List.length src - ldst)) (readBufSize c)); [lia|].
  destruct (Z.ltb_spec (readBufSize c) 0); [lia | reflexivity].
Qed.

(** It is not reached for a source within the read limit: the whole
    remainder is kept. *)
Lemma Read_copy_keeps_all c src ldst :
  (Z.of_nat (List.length src) <= readBufSize c)%Z ->
  buff c = [] ->
  Read_copy c src ldst = Ok (set_buff c (skipn ldst src), (firstn ldst src, None)).
Proof.
  intros Hle Hb. unfold Read_copy.
  destruct (Nat.ltb_spec ldst (List.length src)) as [Hlt|Hge].
  - rewrite length_skipn.
    destruct (Z.leb_spec (Z.of_nat (List.length src - ldst)) (readBufSize c)); [reflexivity | lia].
  - rewrite skipn_all2, firstn_all2 by lia.
    destruct c as [k b r w]; simpl in Hb; subst b; reflexivity.
Qed.

Lemma ReadMessage_within_limit L k k' msg :
  (0 < L)%Z ->
  ReadMessage (SetReadLimit L k) = (k', inl msg) ->
  (Z.of_nat (List.length msg) <= L)%Z /\
  readErr k = None /\
  inbound k = Frame msg :: inbound k' /\
  readErr k' = None.
Proof.
  intros HL. unfold ReadMessage, SetReadLimit; simpl.
  destruct (readErr k); [discriminate|].
  destruct (inbound k) as [|[p|e] rest]; try discriminate.
  destruct (over_limit L p) eqn:Hov; [discriminate|].
  intros [= <- <-]; simpl. repeat split.
  unfold over_limit in Hov. apply andb_false_iff in Hov.
  destruct Hov as [Hov|Hov]; [apply Z.ltb_ge in Hov | apply Z.ltb_ge in Hov]; lia.
Qed.

Lemma ReadMessage_error_ends_stream L k k' e :
  ReadMessage (SetReadLimit L k) = (k', inr e) ->
  readErr k' = Some e /\
  match readErr k with Some _ => [] | None => List.concat (accepted L (inbound k)) end = [].
Proof.
  unfold ReadMessage, SetReadLimit; simpl.
  destruct (readErr k) eqn:He.
  - intros [= <- <-]; simpl. auto.
  - destruct (inbound k) as [|[p|e'] rest]; simpl.
    + intros [= <- <-]; auto.
    + destruct (over_limit L p); intros [= <- <-]; auto.
    + intros [= <- <-]; auto.
Qed.

(** One call of [Read] on a bounded adapter: it does what the contract
    says, stays bounded and hands out the next bytes of the stream. *)
Lemma Read_step c ldst :
  buffer_bounded c ->
  Read c ldst = Ok (Read_as_specified c ldst) /\
  buffer_bounded (fst (Read_as_specified c ldst)) /\
  fst (snd (Read_as_specified c ldst)) ++ stream (fst (Read_as_specified c ldst))
  = stream c.
Proof.
  intros [Hpos Hfit]. unfold Read, Read_as_specified.
  destruct (buff c) as [|b0 bs] eqn:Hb.
  - simpl Nat.ltb. cbv iota.
    destruct (ReadMessage (SetReadLimit (readBufSize c) (conn c))) as [k' [msg|e]] eqn:Hrm.
    + destruct (ReadMessage_within_limit _ _ _ _ Hpos Hrm) as (Hlen & He & Hin & He').
      split; [apply Read_copy_keeps_all; simpl; [lia | exact Hb]|].
      split.
      * split; simpl; [exact Hpos|]. rewrite length_skipn. lia.
      * unfold stream; simpl. rewrite Hb, He, He', Hin; simpl.
        destruct (over_limit (readBufSize c) msg) eqn:Hov.
        { unfold over_limit in Hov. apply andb_true_iff in Hov.
          destruct Hov as [_ Hov]. apply Z.ltb_lt in Hov. lia. }
        simpl. rewrite app_assoc, firstn_skipn. reflexivity.
    + destruct (ReadMessage_error_ends_stream _ _ _ _ Hrm) as [He' Hnil].
      split; [reflexivity|]. split.
      * split; simpl; [exact Hpos | rewrite Hb; simpl; lia].
      * unfold stream; simpl. rewrite Hb, He', Hnil. reflexivity.
  - simpl Nat.ltb. cbv iota.
    split.
    + rewrite Read_copy_keeps_all by (simpl; auto). reflexivity.
    + split.
      * split; simpl; [exact Hpos|]. rewrite length_skipn. lia.
      * unfold stream; simpl. rewrite Hb, app_assoc, firstn_skipn. reflexivity.
Qed.

Lemma Reads_stream sizes : forall c,
  buffer_bounded c ->
  exists c' rs,
    Reads c sizes = Ok (c', rs) /\
    buffer_bounded c' /\
    List.concat (map fst rs) ++ stream c' = stream c.
Proof.
  induction sizes as [|ldst rest IH]; intros c Hc; simpl.
  - exists c, []. auto.
  - destruct (Read_step c ldst Hc) as (Hr & Hb & Hs).
    rewrite Hr. destruct (Read_as_specified c ldst) as [c1 [out err]]; simpl in *.
    destruct (IH c1 Hb) as (c2 & rs & Hrs & Hb2 & Hs2).
    rewrite Hrs; simpl. exists c2, ((out, err) :: rs).
    split; [reflexivity|]. split; [exact Hb2|].
    simpl. rewrite <- app_assoc, Hs2. exact Hs.
Qed.

(** Two messages of three and two bytes read through destinations of
    two, two, eight and eight bytes; then the peer has closed. *)
Example Reads_two_messages :
  match Reads (NewWebSocketConn
                 {| readLimit := 0;
                    inbound := [Frame [x01; x02; x03]; Frame [x04; x05]];
                    readErr := None |})
              [2; 2; 8; 8] with
  | Ok (_, rs) =>
      rs = [([x01; x02], None); ([x03], None); ([x04; x05], None);
            ([], Some ErrClosed)]
  | Panic _ => False
  end.
Proof. vm_compute. reflexivity. Qed.

(** A message one byte above the read limit is refused by the transport:
    [Read] returns its error and no byte. *)
Example Read_oversized_message :
  match Read (NewWebSocketConn
                {| readLimit := 0;
                   inbound := [Frame (repeat x00 (Z.to_nat (32 * 1024 + 1)))];
                   readErr := None |}) 16 with
  | Ok (c, r) => r = ([], Some ErrReadLimit) /\ buff c = []
  | Panic _ => False
  end.
Proof. vm_compute. split; reflexivity. Qed.

End CnetFacts.

(** C1.  On an adapter made by [NewWebSocketConn], after any sequence of
    [Read] calls, the next [Read(buf)] does what the contract says: a
    leftover from a prior message is drained first; otherwise one message
    is read from the transport, as many bytes as fit in [buf] are returned
    and the entire remainder is kept.  No byte of a message the transport
    handed over is dropped: the bytes returned by the calls so far,
    followed by what the adapter still owes (leftover, then the messages to
    come), are the concatenation of the messages. *)
Theorem wsConn_Read_preserves_stream (k : Cnet.Conn) (sizes : list nat) :
  exists c rs,
    Cnet.Reads (Cnet.NewWebSocketConn k) sizes = Ok (c, rs) /\
    (forall ldst, Cnet.Read c ldst = Ok (Read_as_specified c ldst)) /\
    List.concat (map fst rs) ++ Cnet.stream c = Cnet.stream (Cnet.NewWebSocketConn k) /\
    Cnet.stream (Cnet.NewWebSocketConn k)
    = match Cnet.readErr k with
      | Some _ => []
      | None => List.concat (Cnet.accepted (32 * 1024) (Cnet.inbound k))
      end.
Proof.
  destruct (Reads_stream sizes (Cnet.NewWebSocketConn k) (NewWebSocketConn_bounded k))
    as (c & rs & Hrs & Hb & Hs).
  exists c, rs. split; [exact Hrs|]. split.
  - intros ldst. apply (Read_step c ldst Hb).
  - split; [exact Hs | reflexivity].
Qed.

Section ProxyFacts.
Import Proxy.

(** The limit the code is after: without the [connectionWorker]
    goroutines every token in [connPool] belongs to a running
    [pipeRemote], so the capacity of the channel bounds the connections in
    flight. *)
Lemma connPool_bounds_without_workers sched : forall p p',
  forallb (fun e => negb (is_worker e)) sched = true ->
  connPool p = ActiveConnections p ->
  connPool p <= connPool_cap p ->
  run sched p = Some p' ->
  connPool p' = ActiveConnections p' /\
  ActiveConnections p' <= connPool_cap p' /\
  connPool_cap p' = connPool_cap p.
Proof.
  induction sched as [|e rest IH]; intros p p' Hnw Heq Hle Hrun; simpl in *.
  - injection Hrun as <-. split; [exact Heq | split; [lia | reflexivity]].
  - apply andb_true_iff in Hnw. destruct Hnw as [He Hrest].
    destruct e; simpl in He; try discriminate; simpl in Hrun.
    + destruct (Nat.ltb_spec (connPool p) (connPool_cap p)) as [Hlt|Hge];
        (eapply IH in Hrun; [| exact Hrest | simpl; lia | simpl; lia]);
        simpl in Hrun; exact Hrun.
    + destruct (ActiveConnections p) as [|a] eqn:Ha; [discriminate|].
      eapply IH in Hrun; [| exact Hrest | simpl; lia | simpl; lia].
      simpl in Hrun. exact Hrun.
Qed.

Lemma accepts_drained_run n : forall p,
  connPool p = 0 -> 0 < connPool_cap p ->
  run (accepts_drained n) p
  = Some {| maxConns := maxConns p; connPool_cap := connPool_cap p;
            connPool := 0;
            ActiveConnections := n + ActiveConnections p;
            rejected := rejected p |}.
Proof.
  induction n as [|n IH]; intros p Hz Hcap.
  - destruct p; simpl in *; subst; reflexivity.
  - cbn [accepts_drained run step]. rewrite Hz.
    destruct (Nat.ltb_spec 0 (connPool_cap p)) as [_|Hge]; [|lia].
    cbn. rewrite IH by (simpl; auto). simpl. repeat f_equal. lia.
Qed.

End ProxyFacts.

(** C2 (what the code does).  The connection limit does not hold: each
    token the accept loop puts into [connPool] can be taken out by a
    [connectionWorker] while the pipe it stands for still runs.  After [n]
    accepts, each followed by a worker's receive, [n] forwarded connections
    are in flight and none was closed, for every [n]; with [n = 101] the
    count is above the limit of 100. *)
Theorem connPool_limit_exceeded :
  (forall n,
     Proxy.run (Proxy.accepts_drained n) Proxy.NewProxy
     = Some {| Proxy.maxConns := 100; Proxy.connPool_cap := 100;
               Proxy.connPool := 0;
               Proxy.ActiveConnections := n;
               Proxy.rejected := 0 |}) /\
  (exists p,
     Proxy.run (Proxy.accepts_drained 101) Proxy.NewProxy = Some p /\
     Proxy.maxConns p < Proxy.ActiveConnections p /\
     Proxy.rejected p = 0).
Proof.
  assert (Hn : forall n,
     Proxy.run (Proxy.accepts_drained n) Proxy.NewProxy
     = Some {| Proxy.maxConns := 100; Proxy.connPool_cap := 100;
               Proxy.connPool := 0;
               Proxy.ActiveConnections := n;
               Proxy.rejected := 0 |}).
  { intros n. rewrite accepts_drained_run by (simpl; lia).
    simpl. rewrite Nat.add_0_r. reflexivity. }
  split; [exact Hn|].
  eexists. split; [apply Hn|]. simpl. split; [lia | reflexivity].
Qed.

Section ClientFacts.
Import Client.
Local Open Scope Z_scope.

Lemma wrap64_id z : - 2 ^ 63 <= z < 2 ^ 63 -> wrap64 z = z.
Proof.
  intros Hz. unfold wrap64.
  rewrite Z.mod_small by lia. lia.
Qed.

Lemma wrap64_range z : - 2 ^ 63 <= wrap64 z < 2 ^ 63.
Proof.
  unfold wrap64.
  pose proof (Z.mod_pos_bound (z + 2 ^ 63) (2 ^ 64) ltac:(lia)). lia.
Qed.

Lemma retry_backoff_final base cf ad since :
  fst (retry_backoff base cf ad since)
  = Z.min (wrap64 (base + snd (retry_backoff base cf ad since))) hard_ceiling.
Proof.
  unfold retry_backoff; cbn [fst snd].
  match goal with |- context [wrap64 (base + ?a)] => generalize (wrap64 (base + a)) end.
  intros f. destruct (Z.ltb_spec hard_ceiling f); lia.
Qed.

Lemma retry_backoff_probing base cf ad since :
  probing since = true ->
  snd (retry_backoff base cf ad since) = probe_backoff.
Proof.
  unfold probing, retry_backoff; cbn [snd].
  destruct since as [d|]; [|discriminate].
  intros ->. reflexivity.
Qed.

End ClientFacts.

(** C6 (amended).  The sleep before the next attempt is
    min(base + adaptive, hard ceiling), in 64-bit arithmetic, and so never
    exceeds the hard ceiling of ten minutes.  When the last success is
    older than the probe window of five minutes, the adaptive term is
    replaced by five seconds: the sleep is min(base + 5 s, ten minutes),
    which is the base plus five seconds for every base up to 9 min 55 s and
    so still grows with the exponential base. *)
Theorem retry_backoff_bounded (base cf ad : Z) (since : option Z) :
  let final := fst (Client.retry_backoff base cf ad since) in
  let adaptive := snd (Client.retry_backoff base cf ad since) in
  (final = Z.min (wrap64 (base + adaptive)) Client.hard_ceiling /\
   final <= Client.hard_ceiling /\
   Client.hard_ceiling = 600000000000 /\
   (Client.probing since = true ->
      adaptive = Client.probe_backoff /\
      final = Z.min (wrap64 (base + 5 * Client.Second)) (10 * Client.Minute) /\
      (0 <= base <= 595 * Client.Second -> final = base + 5 * Client.Second)) /\
   (forall Duration_for MaxRetryCount a now1 now2 s,
      match Client.connectionLoop_iteration Duration_for MaxRetryCount a now1 now2 s with
      | (_, Client.GiveUp) => True
      | (s', Client.Retry f) =>
          f <= Client.hard_ceiling /\
          exists b, f = Z.min (wrap64 (b + Client.adaptiveBackoff s')) Client.hard_ceiling
      end))%Z.
Proof.
  intros final adaptive. subst final adaptive.
  rewrite retry_backoff_final.
  split; [reflexivity|]. split; [apply Z.le_min_r|]. split; [reflexivity|].
  split; cycle 1.
  { intros Duration_for MaxRetryCount a now1 now2 s.
    unfold Client.connectionLoop_iteration.
    destruct (_ && _)%bool; [exact I|].
    cbn [Client.adaptiveBackoff]. rewrite retry_backoff_final.
    split; [apply Z.le_min_r|]. eexists. reflexivity. }
  intros Hp. rewrite (retry_backoff_probing _ _ _ _ Hp).
  split; [reflexivity|]. split; [reflexivity|].
  intros Hb. change Client.probe_backoff with (5 * Client.Second)%Z.
  rewrite wrap64_id; unfold Client.hard_ceiling, Client.Minute, Client.Second,
    Client.Millisecond in *; lia.
Qed.

(** Thirteen failures in a row, the base at its maximum of five minutes,
    the last success fifteen minutes ago: the probe branch is taken and the
    sleep is 5 min 5 s, sixty-one times the probe value.  Two failures
    earlier, with a base of 102.4 s, it is 107.4 s: the sleep follows the
    base. *)
Lemma retry_backoff_probe_not_capped :
  (Client.probing (Some (15 * Client.Minute)) = true /\
   fst (Client.retry_backoff (5 * Client.Minute) 13 (10 * Client.Minute)
          (Some (15 * Client.Minute)))
   = 305 * Client.Second /\
   fst (Client.retry_backoff (102400 * Client.Millisecond) 11 (10 * Client.Minute)
          (Some (10 * Client.Minute)))
   = 107400 * Client.Millisecond /\
   Client.probe_backoff < 305 * Client.Second)%Z.
Proof.
  split; [reflexivity|]. split; [vm_compute; reflexivity|].
  split; [vm_compute; reflexivity | vm_compute; reflexivity].
Qed.

(** C7.  An attempt is connected exactly when its session was handed to
    [BindSSH] and was up for longer than the stability threshold of five
    seconds, measured from the config request to the return of [BindSSH].
    Exactly then [connectionLoop] resets the backoff state: attempt
    counter, consecutive failures and adaptive term become zero.  Every
    other attempt, also one that ends at the threshold or below it, leaves
    the attempt counter and the adaptive term as they are and adds one to
    the consecutive failures. *)
Theorem connected_resets_backoff (a : Client.attempt) (now : Z) (s : Client.backoff_state) :
  let connected := fst (Client.connectionOnce a) in
  let s' := Client.record_attempt connected now s in
  (connected = true <->
     Client.session_bound a = true /\
     (Client.stability_threshold < Client.session_uptime a)%Z) /\
  (connected = true ->
     Client.b_attempt s' = 0%Z /\
     Client.consecutiveFailures s' = 0%Z /\
     Client.adaptiveBackoff s' = 0%Z /\
     Client.lastSuccess s' = Some now) /\
  (connected = false ->
     Client.consecutiveFailures s' = wrap64 (Client.consecutiveFailures s + 1) /\
     Client.b_attempt s' = Client.b_attempt s /\
     Client.adaptiveBackoff s' = Client.adaptiveBackoff s /\
     Client.lastSuccess s' = Client.lastSuccess s) /\
  ((0 <= Client.consecutiveFailures s < 2 ^ 62)%Z -> connected = false ->
     Client.consecutiveFailures s' = (Client.consecutiveFailures s + 1)%Z /\
     Client.consecutiveFailures s' <> 0%Z) /\
  (Client.session_bound a = true ->
     (Client.session_uptime a <= Client.stability_threshold)%Z ->
     connected = false).
Proof.
  intros connected s'. subst connected s'.
  assert (Hiff : fst (Client.connectionOnce a) = true <->
                 Client.session_bound a = true /\
                 (Client.stability_threshold < Client.session_uptime a)%Z).
  { unfold Client.connectionOnce, Client.session_bound, Client.session_uptime.
    destruct (Client.ctx_done a); simpl; [intuition discriminate|].
    destruct (Client.proxy_err a); simpl; [intuition discriminate|].
    destruct (Client.dial_err a); simpl; [intuition discriminate|].
    destruct (Client.handshake_err a); simpl; [intuition discriminate|].
    destruct (Client.config_err a); simpl; [intuition discriminate|].
    destruct (String.length (Client.configerr a)) as [|n]; simpl.
    - rewrite Z.ltb_lt. intuition.
    - intuition discriminate. }
  split; [exact Hiff|].
  split; [intros ->; simpl; auto|].
  split; [intros ->; simpl; auto|].
  split.
  { intros Hr ->. simpl. rewrite wrap64_id by lia. split; lia. }
  intros Hb Hup.
  destruct (fst (Client.connectionOnce a)) eqn:Hc; [|reflexivity].
  destruct Hiff as [H1 _]. specialize (H1 eq_refl). lia.
Qed.

(** C8 (amended).  Whatever the environment and the configuration, the
    Upgrade request of a client dial offers the single subprotocol
    [MaskedWebSocketProtocol], the string chat, which is not the protocol
    version identifier [ProtocolVersion]. *)
Theorem dial_offers_masked_subprotocol (ws_timeout ws_buff_size : Z) :
  let d := Client.connectionOnce_dialer ws_timeout ws_buff_size in
  Client.Subprotocols d = [Chshare.MaskedWebSocketProtocol] /\
  Client.Sec_WebSocket_Protocol d = "chat"%string /\
  Client.Sec_WebSocket_Protocol d <> Chshare.ProtocolVersion /\
  ~ In Chshare.ProtocolVersion (Client.Subprotocols d).
Proof.
  intros d. subst d. split; [reflexivity|]. split; [reflexivity|].
  split; [discriminate|].
  simpl. intros [H|[]]. discriminate H.
Qed.

(** A dial with a 45 s handshake timeout and default buffers: the header
    is chat where the claim has the protocol version chisel-v3. *)
Lemma dial_subprotocol_is_not_protocol_version :
  Client.Sec_WebSocket_Protocol (Client.connectionOnce_dialer (45 * Client.Second) 0) = "chat"%string /\
  Chshare.ProtocolVersion = "chisel-v3"%string /\
  Client.Sec_WebSocket_Protocol (Client.connectionOnce_dialer (45 * Client.Second) 0)
  <> Chshare.ProtocolVersion.
Proof.
  split; [reflexivity|]. split; [reflexivity|]. discriminate.
Qed.

Section CioFacts.
Import Cio.

Lemma pipe_init_inv copyA copyB : pipe_inv copyA copyB pipe_init.
Proof.
  unfold pipe_inv, before_once; simpl.
  repeat split; auto; try congruence; try discriminate.
Qed.

Ltac pipe_crush :=
  unfold before_once, closing, not_closing in *; simpl in *;
  repeat match goal with
         | H : _ /\ _ |- _ => destruct H
         | H : exists _, _ |- _ => destruct H
         end;
  repeat split; intros;
  try match goal with
      | Hr : forall r, ?rt = Some r -> _, H : ?rt = Some _ |- _ =>
          destruct (Hr _ H) as (? & ? & ?)
      end;
  try solve [ congruence | lia | eauto
            | intuition (try congruence; try lia; eauto) ].

Lemma step_inv copyA copyB t s s' :
  pipe_inv copyA copyB s -> step copyA copyB t s = Some s' -> pipe_inv copyA copyB s'.
Proof.
  unfold pipe_inv.
  destruct s as [pa pb o w sc dc sn rc rt].
  intros (Hctl & Hwg & HA & HB & Hret) Hstep; simpl in *.
  destruct t; simpl in Hstep.
  - destruct pa; simpl in Hstep.
    + destruct copyA as [[n e]|]; [|discriminate]. injection Hstep as <-.
      destruct o; pipe_crush.
    + destruct o; [| discriminate |]; injection Hstep as <-; pipe_crush.
    + injection Hstep as <-. destruct o; pipe_crush.
    + injection Hstep as <-. destruct o; pipe_crush.
    + injection Hstep as <-. destruct o; pipe_crush.
    + discriminate.
  - destruct pb; simpl in Hstep.
    + destruct copyB as [[n e]|]; [|discriminate]. injection Hstep as <-.
      destruct o; pipe_crush.
    + destruct o; [| discriminate |]; injection Hstep as <-; pipe_crush.
    + injection Hstep as <-. destruct o; pipe_crush.
    + injection Hstep as <-. destruct o; pipe_crush.
    + injection Hstep as <-. destruct o; pipe_crush.
    + discriminate.
  - destruct rt; [discriminate|]. destruct w; [|discriminate].
    injection Hstep as <-. destruct o, pa, pb; pipe_crush.
Qed.

Lemma run_inv copyA copyB sched : forall s s',
  pipe_inv copyA copyB s -> run copyA copyB sched s = Some s' -> pipe_inv copyA copyB s'.
Proof.
  induction sched as [|t rest IH]; intros s s' Hinv Hrun; simpl in Hrun.
  - injection Hrun as <-. exact Hinv.
  - destruct (step copyA copyB t s) as [s1|] eqn:Hs; [|discriminate].
    eapply IH; [eapply step_inv; eauto | exact Hrun].
Qed.

Lemma reachable_inv copyA copyB s :
  reachable copyA copyB s -> pipe_inv copyA copyB s.
Proof.
  intros [sched Hrun]. eapply run_inv; [apply pipe_init_inv | exact Hrun].
Qed.

Lemma step_measure copyA copyB t s s' :
  step copyA copyB t s = Some s' -> measure s' < measure s.
Proof.
  destruct s as [pa pb o w sc dc sn rc rt]. unfold measure; simpl.
  destruct t; simpl.
  - destruct pa; simpl; try discriminate.
    + destruct copyA as [[n e]|]; [|discriminate]. intros [= <-]; simpl; lia.
    + destruct o; try discriminate; intros [= <-]; simpl; lia.
    + intros [= <-]; simpl; lia.
    + intros [= <-]; simpl; lia.
    + intros [= <-]; simpl; lia.
  - destruct pb; simpl; try discriminate.
    + destruct copyB as [[n e]|]; [|discriminate]. intros [= <-]; simpl; lia.
    + destruct o; try discriminate; intros [= <-]; simpl; lia.
    + intros [= <-]; simpl; lia.
    + intros [= <-]; simpl; lia.
    + intros [= <-]; simpl; lia.
  - destruct rt; [discriminate|]. destruct w; [|discriminate].
    intros [= <-]; simpl; lia.
Qed.

Lemma run_measure copyA copyB sched : forall s s',
  run copyA copyB sched s = Some s' -> List.length sched + measure s' <= measure s.
Proof.
  induction sched as [|t rest IH]; intros s s' Hrun; simpl in Hrun.
  - injection Hrun as <-. simpl. lia.
  - destruct (step copyA copyB t s) as [s1|] eqn:Hs; [|discriminate].
    apply step_measure in Hs. apply IH in Hrun. simpl. lia.
Qed.

(** With both copies returning, a state in which nobody can move is one
    where [Pipe] has returned. *)
Lemma terminal_returned nA eA nB eB s :
  pipe_inv (Some (nA, eA)) (Some (nB, eB)) s ->
  terminal (Some (nA, eA)) (Some (nB, eB)) s ->
  returned s = Some (nB, nA).
Proof.
  unfold pipe_inv, terminal.
  destruct s as [pa pb o w sc dc sn rc rt].
  intros (Hctl & Hwg & HA & HB & Hret) Hterm; simpl in *.
  pose proof (Hterm A) as HtA. pose proof (Hterm B) as HtB.
  pose proof (Hterm Main) as HtM. simpl in HtA, HtB, HtM.
  destruct pa, pb, o; simpl in *; try discriminate;
    unfold before_once, closing, not_closing in Hctl;
    try solve [exfalso; intuition (try congruence; try discriminate)].
  subst w. destruct rt as [r|]; [|discriminate].
  destruct (Hret r eq_refl) as (_ & _ & ->).
  destruct HA as [e1 HA]; [discriminate|]. destruct HB as [e2 HB]; [discriminate|].
  congruence.
Qed.

Lemma run_app_pipe copyA copyB s1 : forall s2 s,
  run copyA copyB (s1 ++ s2) s
  = match run copyA copyB s1 s with
    | Some s' => run copyA copyB s2 s'
    | None => None
    end.
Proof.
  induction s1 as [|t s1 IH]; intros s2 s; simpl; [reflexivity|].
  destruct (step copyA copyB t s); [apply IH | reflexivity].
Qed.

(** The count that [chunkedCopy] returns does not depend on which error
    ends the stream of [src]. *)
Lemma chunkedCopy_count_blind intn e1 e2 reads : forall i writes total,
  option_map fst
    (chunkedCopy intn i (reads ++ [fun _ => {| nr := 0; er := Some e1 |}]) writes total)
  = option_map fst
    (chunkedCopy intn i (reads ++ [fun _ => {| nr := 0; er := Some e2 |}]) writes total).
Proof.
  induction reads as [|rd reads IH]; intros i writes total.
  - simpl. unfold after_read; simpl. destruct e1, e2; reflexivity.
  - cbn [app chunkedCopy].
    destruct (0 <? nr (rd _))%Z.
    + destruct writes as [|w writes]; [reflexivity|].
      destruct (_ || _)%bool.
      * destruct (ew w); reflexivity.
      * destruct (ew w); [reflexivity|].
        destruct (_ =? _)%Z; [|reflexivity].
        unfold after_read.
        destruct (er (rd _)) as [[]|]; try reflexivity.
        apply IH.
    + unfold after_read.
      destruct (er (rd _)) as [[]|]; try reflexivity.
      apply IH.
Qed.

Lemma step_error_blind n1 e1 e1' n2 e2 e2' t s :
  step (Some (n1, e1)) (Some (n2, e2)) t s = step (Some (n1, e1')) (Some (n2, e2')) t s.
Proof. destruct t; simpl; try reflexivity; destruct (get_pc _ s); reflexivity. Qed.

Lemma run_error_blind n1 e1 e1' n2 e2 e2' sched : forall s,
  run (Some (n1, e1)) (Some (n2, e2)) sched s
  = run (Some (n1, e1')) (Some (n2, e2')) sched s.
Proof.
  induction sched as [|t rest IH]; intros s; simpl; [reflexivity|].
  rewrite (step_error_blind n1 e1 e1' n2 e2 e2').
  destruct (step _ _ t s); [apply IH | reflexivity].
Qed.

Lemma terminal_dec copyA copyB s :
  terminal copyA copyB s \/ exists t s', step copyA copyB t s = Some s'.
Proof.
  destruct (step copyA copyB A s) as [s'|] eqn:HA; [right; eauto|].
  destruct (step copyA copyB B s) as [s'|] eqn:HB; [right; eauto|].
  destruct (step copyA copyB Main s) as [s'|] eqn:HM; [right; eauto|].
  left. intros []; assumption.
Qed.

(** Every execution can be run to the end. *)
Lemma run_completes copyA copyB n : forall s,
  measure s <= n ->
  exists rest s', run copyA copyB rest s = Some s' /\ terminal copyA copyB s'.
Proof.
  induction n as [|n IH]; intros s Hm.
  - destruct (terminal_dec copyA copyB s) as [Ht|(t & s' & Hs)].
    + exists [], s. split; [reflexivity | exact Ht].
    + apply step_measure in Hs. lia.
  - destruct (terminal_dec copyA copyB s) as [Ht|(t & s' & Hs)].
    + exists [], s. split; [reflexivity | exact Ht].
    + pose proof (step_measure _ _ _ _ _ Hs) as Hlt.
      destruct (IH s' ltac:(lia)) as (rest & s'' & Hrun & Hterm).
      exists (t :: rest), s''. simpl. rewrite Hs. auto.
Qed.

End CioFacts.

(** C4.  In every state that [Pipe(src, dst)] reaches: each endpoint has
    been closed at most once; as soon as either direction is past its
    [o.Do(close)], both endpoints are closed; the direction whose copy ends
    first (by an error or by EOF) closes both without waiting for the other
    one, which may still be copying; [Pipe] has returned only when both
    goroutines are finished, and its results are the count of the copy from
    [src] to [dst] and the count of the copy from [dst] to [src].  The two
    directions run concurrently: from the start either goroutine can move
    first, to the same effect. *)
Theorem Pipe_closes_once_waits_for_both
  (copyA copyB : option (Z * option Cio.error)) (s : Cio.pipe_state) :
  Cio.reachable copyA copyB s ->
  Cio.src_closes s <= 1 /\ Cio.dst_closes s <= 1 /\
  (Cio.past_once (Cio.pcA s) || Cio.past_once (Cio.pcB s) = true ->
     Cio.src_closes s = 1 /\ Cio.dst_closes s = 1) /\
  (forall t, t <> Cio.Main -> Cio.get_pc t s = Cio.AtOnce -> Cio.once s = Cio.OnceIdle ->
     exists s', Cio.run copyA copyB [t; t; t] s = Some s' /\
                Cio.src_closes s' = 1 /\ Cio.dst_closes s' = 1 /\
                Cio.get_pc (Cio.other t) s' = Cio.get_pc (Cio.other t) s) /\
  (forall r, Cio.returned s = Some r ->
     Cio.pcA s = Cio.Finished /\ Cio.pcB s = Cio.Finished /\ Cio.wg s = 0 /\
     exists eA eB, copyB = Some (fst r, eB) /\ copyA = Some (snd r, eA)) /\
  (forall nA eA nB eB, copyA = Some (nA, eA) -> copyB = Some (nB, eB) ->
     exists s', Cio.run copyA copyB [Cio.A; Cio.B] Cio.pipe_init = Some s' /\
                Cio.run copyA copyB [Cio.B; Cio.A] Cio.pipe_init = Some s').
Proof.
  intros Hreach. pose proof (reachable_inv _ _ _ Hreach) as Hinv.
  unfold Cio.pipe_inv in Hinv. destruct Hinv as (Hctl & Hwg & HA & HB & Hret).
  destruct s as [pa pb o w sc dc sn rc rt]; simpl in *.
  assert (Hle : sc <= 1 /\ dc <= 1).
  { destruct o; unfold Cio.closing in Hctl; intuition lia. }
  split; [apply Hle|]. split; [apply Hle|].
  split.
  { intros Hpast. destruct o; unfold Cio.before_once, Cio.closing in Hctl.
    - destruct Hctl as ([-> | ->] & [-> | ->] & _); discriminate.
    - destruct Hctl as [([(-> & _)|(-> & _)] & [-> | ->])|([(-> & _)|(-> & _)] & [-> | ->])];
        discriminate.
    - intuition. }
  split.
  { intros t Ht Hpc Ho. subst o. unfold Cio.before_once in Hctl.
    destruct Hctl as (_ & _ & -> & ->).
    destruct t; [| |congruence]; simpl in Hpc; subst; simpl; eexists; repeat split. }
  split.
  { intros r Hr. destruct (Hret r Hr) as (-> & -> & ->).
    split; [reflexivity|]. split; [reflexivity|]. split; [exact Hwg|].
    destruct HA as [eA HA]; [discriminate|]. destruct HB as [eB HB]; [discriminate|].
    exists eA, eB. simpl. auto. }
  intros nA eA nB eB -> ->. eexists. split; reflexivity.
Qed.

(** One direction copies 3 bytes and ends by EOF, the other 5 bytes and
    ends by a reset; goroutine [A] runs to its end, then [B], then the
    caller returns. *)
Lemma Pipe_closes_once_waits_for_both_witness :
  Cio.run (Some (3%Z, None)) (Some (5%Z, Some (Cio.ErrOther "reset")))
    [Cio.A; Cio.A; Cio.A; Cio.A; Cio.A; Cio.B; Cio.B; Cio.B; Cio.Main]
    Cio.pipe_init = Some (Cio.pipe_done 5 3) /\
  Cio.src_closes (Cio.pipe_done 5 3) <= 1 /\
  Cio.dst_closes (Cio.pipe_done 5 3) <= 1 /\
  exists eA eB,
    Some (5%Z, Some (Cio.ErrOther "reset")) = Some (5%Z, eB) /\
    Some (3%Z, @None Cio.error) = Some (3%Z, eA).
Proof.
  assert (Hrun :
    Cio.run (Some (3%Z, None)) (Some (5%Z, Some (Cio.ErrOther "reset")))
      [Cio.A; Cio.A; Cio.A; Cio.A; Cio.A; Cio.B; Cio.B; Cio.B; Cio.Main]
      Cio.pipe_init = Some (Cio.pipe_done 5 3)) by (vm_compute; reflexivity).
  split; [exact Hrun|].
  destruct (Pipe_closes_once_waits_for_both _ _ _ (ex_intro _ _ Hrun))
    as (H1 & H2 & _ & _ & Hret & _).
  split; [exact H1|]. split; [exact H2|].
  destruct (Hret _ eq_refl) as (_ & _ & _ & Hc). exact Hc.
Defined.

(** C9.  [Pipe] drops the errors of its two copies.  With the copies
    returning counts [nA] and [nB], whatever errors come with them: an
    execution takes at most eleven steps and can always be run to its end;
    at the end [Pipe] has returned, and what it returned is the pair of
    counts; the same schedule with any other errors leads to the same
    state, so the caller sees no difference.  In particular [chunkedCopy]
    returns the same count whether its source ends by EOF or by a
    transport error. *)
Theorem Pipe_discards_copy_errors
  (nA nB : Z) (eA eB : option Cio.error) (sched : list Cio.tid) (s : Cio.pipe_state) :
  Cio.run (Some (nA, eA)) (Some (nB, eB)) sched Cio.pipe_init = Some s ->
  List.length sched <= 11 /\
  (exists rest s',
     Cio.run (Some (nA, eA)) (Some (nB, eB)) (sched ++ rest) Cio.pipe_init = Some s' /\
     Cio.terminal (Some (nA, eA)) (Some (nB, eB)) s') /\
  (Cio.terminal (Some (nA, eA)) (Some (nB, eB)) s -> Cio.returned s = Some (nB, nA)) /\
  (forall r, Cio.returned s = Some r -> r = (nB, nA)) /\
  (forall eA' eB',
     Cio.run (Some (nA, eA')) (Some (nB, eB')) sched Cio.pipe_init = Some s) /\
  (forall intn reads writes msg,
     option_map fst
       (Cio.chunkedCopy intn 0
          (reads ++ [fun _ => {| Cio.nr := 0; Cio.er := Some Cio.EOF |}]) writes 0)
     = option_map fst
       (Cio.chunkedCopy intn 0
          (reads ++ [fun _ => {| Cio.nr := 0; Cio.er := Some (Cio.ErrOther msg) |}]) writes 0)).
Proof.
  intros Hrun.
  assert (Hinv : Cio.pipe_inv (Some (nA, eA)) (Some (nB, eB)) s).
  { apply reachable_inv. exists sched. exact Hrun. }
  split.
  { pose proof (run_measure _ _ _ _ _ Hrun) as Hm.
    change (Cio.measure Cio.pipe_init) with 11 in Hm. lia. }
  split.
  { destruct (run_completes (Some (nA, eA)) (Some (nB, eB)) (Cio.measure s) s (le_n _))
      as (rest & s' & Hrest & Hterm).
    exists rest, s'. rewrite run_app_pipe, Hrun. auto. }
  split; [apply terminal_returned; exact Hinv|].
  split.
  { intros r Hr. unfold Cio.pipe_inv in Hinv.
    destruct Hinv as (_ & _ & HA & HB & Hret).
    destruct (Hret r Hr) as (Hpa & Hpb & ->).
    destruct HA as [e1 HA]; [rewrite Hpa; discriminate|].
    destruct HB as [e2 HB]; [rewrite Hpb; discriminate|].
    congruence. }
  split.
  { intros eA' eB'. rewrite <- Hrun. apply run_error_blind. }
  intros intn reads writes msg. apply chunkedCopy_count_blind.
Qed.

(** Both directions copy 3 bytes; one ends by EOF, the other by a reset.
    The reader [src] gives 3 bytes and then ends; [chunkedCopy] returns 3
    with a nil error in the first case and 3 with the error in the second,
    and [Pipe] returns (3, 3) either way. *)
Lemma Pipe_discards_copy_errors_witness :
  Cio.chunkedCopy (fun _ _ => 0%Z) 0
    [fun _ => {| Cio.nr := 3; Cio.er := None |};
     fun _ => {| Cio.nr := 0; Cio.er := Some Cio.EOF |}]
    [{| Cio.nw := 3; Cio.ew := None |}] 0 = Some (3%Z, None) /\
  Cio.chunkedCopy (fun _ _ => 0%Z) 0
    [fun _ => {| Cio.nr := 3; Cio.er := None |};
     fun _ => {| Cio.nr := 0; Cio.er := Some (Cio.ErrOther "reset") |}]
    [{| Cio.nw := 3; Cio.ew := None |}] 0 = Some (3%Z, Some (Cio.ErrOther "reset")) /\
  Cio.run (Some (3%Z, None)) (Some (3%Z, Some (Cio.ErrOther "reset")))
    [Cio.B; Cio.B; Cio.B; Cio.B; Cio.A; Cio.B; Cio.A; Cio.A; Cio.Main]
    Cio.pipe_init = Some (Cio.pipe_done 3 3) /\
  Cio.run (Some (3%Z, None)) (Some (3%Z, None))
    [Cio.B; Cio.B; Cio.B; Cio.B; Cio.A; Cio.B; Cio.A; Cio.A; Cio.Main]
    Cio.pipe_init = Some (Cio.pipe_done 3 3) /\
  Cio.returned (Cio.pipe_done 3 3) = Some (3%Z, 3%Z).
Proof.
  split; [vm_compute; reflexivity|]. split; [vm_compute; reflexivity|].
  assert (Hrun :
    Cio.run (Some (3%Z, None)) (Some (3%Z, Some (Cio.ErrOther "reset")))
      [Cio.B; Cio.B; Cio.B; Cio.B; Cio.A; Cio.B; Cio.A; Cio.A; Cio.Main]
      Cio.pipe_init = Some (Cio.pipe_done 3 3)) by (vm_compute; reflexivity).
  split; [exact Hrun|].
  destruct (Pipe_discards_copy_errors _ _ _ _ _ _ Hrun) as (_ & _ & _ & _ & H & _).
  split; [apply H | reflexivity].
Defined.

Section KeepAliveFacts.
Import Tunnel.


End KeepAliveFacts.



Section CnetWriteFacts.
Import Cnet CnetWrite.

Lemma chunks_fuel size : 1 <= size -> forall f1 f2 (b : bytes),
  List.length b <= f1 -> List.length b <= f2 ->
  chunks f1 size b = chunks f2 size b.
Proof.
  intros Hs. induction f1 as [|f1 IH]; intros f2 b H1 H2.
  - destruct b; simpl in H1; [|lia]. destruct f2; reflexivity.
  - destruct b as [|x b]; [destruct f2; reflexivity|].
    destruct f2 as [|f2]; [simpl in H2; lia|].
    cbn [chunks]. f_equal. apply IH.
    + rewrite length_skipn. simpl in *. lia.
    + rewrite length_skipn. simpl in *. lia.
Qed.

Lemma chunks_concat size : 1 <= size -> forall f (b : bytes),
  List.length b <= f -> List.concat (chunks f size b) = b.
Proof.
  intros Hs. induction f as [|f IH]; intros b Hb.
  - destruct b; [reflexivity | simpl in Hb; lia].
  - destruct b as [|x b]; [reflexivity|].
    cbn [chunks List.concat]. rewrite IH.
    + apply firstn_skipn.
    + rewrite length_skipn. simpl in *. lia.
Qed.

(** Every message has between one and [size] bytes, and all but the last
    have [size]. *)
Lemma chunks_sizes size : 1 <= size -> forall f (b : bytes),
  List.length b <= f ->
  Forall (fun p => 1 <= List.length p <= size) (chunks f size b) /\
  Forall (fun p => List.length p = size) (removelast (chunks f size b)).
Proof.
  intros Hs. induction f as [|f IH]; intros b Hb.
  - simpl. split; constructor.
  - destruct b as [|x b]; [simpl; split; constructor|].
    assert (Hrest : List.length (skipn size (x :: b)) <= f)
      by (rewrite length_skipn; simpl in *; lia).
    destruct (IH _ Hrest) as [H1 H2].
    cbn [chunks]. split.
    + constructor; [|exact H1]. rewrite length_firstn. simpl. lia.
    + destruct (chunks f size (skipn size (x :: b))) as [|p ps] eqn:Hc.
      * simpl. constructor.
      * cbn [removelast]. constructor; [|exact H2].
        rewrite length_firstn.
        destruct (Nat.le_gt_cases size (List.length (x :: b))) as [Hle|Hgt]; [lia|].
        rewrite skipn_all2 in Hc by lia.
        destruct f; discriminate.
Qed.

Lemma chunks_length size : 1 <= size -> forall f (b : bytes),
  List.length b <= f ->
  List.length (chunks f size b) * size < List.length b + size /\
  List.length b <= List.length (chunks f size b) * size.
Proof.
  intros Hs. induction f as [|f IH]; intros b Hb.
  - destruct b; simpl in *; lia.
  - destruct b as [|x b]; [simpl; lia|].
    assert (Hrest : List.length (skipn size (x :: b)) <= f)
      by (rewrite length_skipn; simpl in *; lia).
    destruct (IH _ Hrest) as [H1 H2].
    cbn [chunks]. rewrite length_skipn in H1, H2.
    change (List.length (firstn size (x :: b) :: ?l)) with (S (List.length l)).
    rewrite Nat.mul_succ_l.
    remember (List.length (x :: b)) as n eqn:Hn.
    assert (1 <= n) by (subst n; simpl; lia).
    remember (List.length (chunks f size (skipn size (x :: b))) * size) as q.
    destruct (Nat.le_gt_cases size n) as [Hle|Hgt]; [lia|].
    rewrite skipn_all2 in Heqq by lia.
    assert (q = 0) by (subst q; destruct f; reflexivity).
    lia.
Qed.

Lemma slice_chunk (b : bytes) (i M : Z) :
  (0 < M)%Z -> (0 <= i < Z.of_nat (List.length b))%Z ->
  slice b i (if (Z.of_nat (List.length b) <? i + M)%Z
             then Z.of_nat (List.length b) else (i + M)%Z)
  = Ok (firstn (Z.to_nat M) (skipn (Z.to_nat i) b)).
Proof.
  intros HM Hi. unfold slice.
  destruct (Z.ltb_spec (Z.of_nat (List.length b)) (i + M)) as [Hlt|Hge].
  - replace ((0 <=? i) && (i <=? Z.of_nat (List.length b))
             && (Z.of_nat (List.length b) <=? Z.of_nat (List.length b)))%Z with true
      by (symmetry; rewrite !andb_true_iff, !Z.leb_le; lia).
    f_equal. rewrite !firstn_all2; try reflexivity; rewrite length_skipn; lia.
  - replace ((0 <=? i) && (i <=? i + M) && (i + M <=? Z.of_nat (List.length b)))%Z with true
      by (symmetry; rewrite !andb_true_iff, !Z.leb_le; lia).
    f_equal. f_equal. lia.
Qed.

Lemma sent_on_nil k : sent_on k [] (writable k) = k.
Proof. destruct k; unfold sent_on; simpl. rewrite app_nil_r. reflexivity. Qed.

(** The loop against its description. *)
Lemma Write_loop_result (b : bytes) (M : Z) : (0 < M)%Z ->
  forall fuel i k,
    (0 <= i)%Z ->
    (Z.max 0 (Z.of_nat (List.length b) - i) < Z.of_nat fuel)%Z ->
    Write_loop fuel M b i k
    = Returns (Write_result M (Z.of_nat (List.length b)) i k
                 (chunks (List.length b) (Z.to_nat M) (skipn (Z.to_nat i) b))).
Proof.
  intros HM. induction fuel as [|fuel IH]; intros i k Hi Hf.
  - exfalso. lia.
  - cbn [Write_loop].
    destruct (Z.ltb_spec i (Z.of_nat (List.length b))) as [Hlt|Hge].
    + rewrite slice_chunk by lia.
      assert (Hne : skipn (Z.to_nat i) b <> []).
      { intros H. apply (f_equal (@List.length _)) in H.
        rewrite length_skipn in H. simpl in H. lia. }
      assert (Hch : chunks (List.length b) (Z.to_nat M) (skipn (Z.to_nat i) b)
                    = firstn (Z.to_nat M) (skipn (Z.to_nat i) b)
                      :: chunks (List.length b) (Z.to_nat M) (skipn (Z.to_nat (i + M)) b)).
      { rewrite (chunks_fuel (Z.to_nat M) ltac:(lia) (List.length b) (S (List.length b))
                   (skipn (Z.to_nat i) b)) by (rewrite length_skipn; lia).
        destruct (skipn (Z.to_nat i) b) as [|x rest] eqn:Hsk; [congruence|].
        cbn [chunks]. f_equal. rewrite <- Hsk, skipn_skipn.
        f_equal. f_equal. lia. }
      rewrite Hch. unfold WriteMessage, Write_result.
      destruct (writable k) as [[|m]|] eqn:Hw.
      * cbn [List.length Nat.leb firstn]. f_equal. f_equal.
        -- rewrite <- Hw. symmetry. apply sent_on_nil.
        -- f_equal. lia.
      * rewrite IH by lia. unfold Write_result, sent_on. cbn [writable outbound writeErr].
        cbn [List.length Nat.leb firstn].
        destruct (List.length _ <=? m); cbn [Nat.sub];
          rewrite <- app_assoc; cbn [app]; [reflexivity|].
        do 3 f_equal. lia.
      * rewrite IH by lia. unfold Write_result, sent_on. cbn [writable outbound writeErr].
        rewrite <- app_assoc. reflexivity.
    + rewrite skipn_all2 by lia.
      assert (Hc : chunks (List.length b) (Z.to_nat M) (@nil Byte.byte) = [])
        by (destruct (List.length b); reflexivity).
      rewrite Hc. unfold Write_result.
      destruct (writable k) as [m|] eqn:Hw.
      * cbn [List.length Nat.leb Nat.sub]. rewrite Nat.sub_0_r, <- Hw, sent_on_nil.
        reflexivity.
      * rewrite <- Hw, sent_on_nil. reflexivity.
Qed.

End CnetWriteFacts.

Section CnetWriteResults.
Import Cnet CnetWrite.

Lemma firstn_plus {A} (n m : nat) : forall l : list A,
  firstn (n + m) l = firstn n l ++ firstn m (skipn n l).
Proof.
  induction n as [|n IH]; intros l; [reflexivity|].
  destruct l as [|x l]; simpl.
  - rewrite firstn_nil. reflexivity.
  - rewrite IH. reflexivity.
Qed.

(** The first [m] messages, when more follow, are [m] full ones: the first
    [m * size] bytes. *)
Lemma chunks_prefix size : 1 <= size -> forall m f (b : bytes),
  List.length b <= f ->
  m < List.length (chunks f size b) ->
  List.concat (firstn m (chunks f size b)) = firstn (m * size) b.
Proof.
  intros Hs. induction m as [|m IH]; intros f b Hb Hm; [reflexivity|].
  destruct f as [|f]; [simpl in Hm; lia|].
  destruct b as [|x b]; [simpl in Hm; lia|].
  cbn [chunks] in *. cbn [List.length] in Hm. cbn [firstn List.concat].
  rewrite IH.
  - replace (S m * size) with (size + m * size) by lia. symmetry. apply firstn_plus.
  - rewrite length_skipn. simpl in *. lia.
  - lia.
Qed.

Lemma Write_is_Write_result c k b :
  (0 < writeBufSize c)%Z ->
  Write c k b
  = Returns (Write_result (writeBufSize c) (Z.of_nat (List.length b)) 0 k
               (frames_of c b)).
Proof.
  intros HM. unfold Write, frames_of.
  destruct (Z.ltb_spec (writeBufSize c) (Z.of_nat (List.length b))) as [Hlt|Hge].
  - rewrite Write_loop_result by lia. reflexivity.
  - unfold WriteMessage, Write_result.
    destruct (writable k) as [[|m]|] eqn:Hw; cbn [List.length Nat.leb firstn].
    + f_equal. f_equal. rewrite <- Hw. symmetry. apply sent_on_nil.
    + destruct m; reflexivity.
    + reflexivity.
Qed.

Lemma frames_of_facts c b :
  (0 < writeBufSize c)%Z ->
  let fs := frames_of c b in
  List.concat fs = b /\
  fs <> [] /\
  Forall (fun p => (Z.of_nat (List.length p) <= writeBufSize c)%Z) fs /\
  Forall (fun p => Z.of_nat (List.length p) = writeBufSize c) (removelast fs).
Proof.
  intros HM. unfold frames_of.
  destruct (Z.ltb_spec (writeBufSize c) (Z.of_nat (List.length b))) as [Hlt|Hge]; cbv zeta.
  - set (M := Z.to_nat (writeBufSize c)).
    assert (HMz : Z.of_nat M = writeBufSize c) by (subst M; lia).
    assert (H1 : 1 <= M) by lia.
    split; [apply chunks_concat; [exact H1 | lia]|].
    destruct (chunks_sizes M H1 (List.length b) b (le_n _)) as [Hs Hl].
    split.
    { destruct b as [|x b]; [simpl in Hlt; lia|]. discriminate. }
    split.
    + eapply List.Forall_impl; [|exact Hs]. simpl. intros p Hp. lia.
    + eapply List.Forall_impl; [|exact Hl]. simpl. intros p Hp. lia.
  - split; [simpl; apply app_nil_r|]. split; [discriminate|].
    split; [constructor; [lia | constructor] | constructor].
Qed.

End CnetWriteResults.

(** X1.  [Write(b)] on an adapter with a positive [writeBufSize] (65536
    after [NewWebSocketConn]), when the transport accepts all its messages:
    the messages handed over are [b] cut every [writeBufSize] bytes (one
    message, also for an empty [b], when [b] is no longer than that);
    their concatenation is [b], none is longer than [writeBufSize], all but
    the last have exactly that length, and the call returns [len(b)] and no
    error. *)
Theorem Write_sends_payload_in_frames (c : Cnet.wsConn) (k : CnetWrite.WConn) (b : Cnet.bytes) :
  let fs := CnetWrite.frames_of c b in
  (0 < Cnet.writeBufSize c)%Z ->
  accepts k (List.length fs) ->
  CnetWrite.Write c k b
  = CnetWrite.Returns
      (sent_on k fs (option_map (fun m => m - List.length fs) (CnetWrite.writable k)),
       (Z.of_nat (List.length b), None)) /\
  List.concat fs = b /\
  fs <> [] /\
  Forall (fun p => (Z.of_nat (List.length p) <= Cnet.writeBufSize c)%Z) fs /\
  Forall (fun p => Z.of_nat (List.length p) = Cnet.writeBufSize c) (removelast fs).
Proof.
  intros fs HM Hacc. split; [|apply frames_of_facts; exact HM].
  rewrite Write_is_Write_result by exact HM. fold fs.
  unfold Write_result, accepts in *.
  destruct (CnetWrite.writable k) as [m|]; [|reflexivity].
  destruct (Nat.leb_spec (List.length fs) m); [reflexivity | lia].
Qed.

(** Five bytes through an adapter cutting every two bytes, over a transport
    that takes three more messages. *)
Lemma Write_sends_payload_in_frames_witness :
  CnetWrite.Write
    {| Cnet.conn := CnetWrite.receiving []; Cnet.buff := [];
       Cnet.readBufSize := 4; Cnet.writeBufSize := 2 |}
    {| CnetWrite.outbound := []; CnetWrite.writable := Some 3;
       CnetWrite.writeErr := Cnet.ErrClosed |}
    [x01; x02; x03; x04; x05]
  = CnetWrite.Returns
      ({| CnetWrite.outbound := [[x01; x02]; [x03; x04]; [x05]];
          CnetWrite.writable := Some 0;
          CnetWrite.writeErr := Cnet.ErrClosed |}, (5%Z, None)).
Proof.
  apply (Write_sends_payload_in_frames
           {| Cnet.conn := CnetWrite.receiving []; Cnet.buff := [];
              Cnet.readBufSize := 4; Cnet.writeBufSize := 2 |}
           {| CnetWrite.outbound := []; CnetWrite.writable := Some 3;
              CnetWrite.writeErr := Cnet.ErrClosed |}
           [x01; x02; x03; x04; x05]).
  - simpl. lia.
  - unfold accepts. simpl. lia.
Defined.

(** X2.  [Write(b)] when the transport fails after [m] of the messages:
    those [m] messages were handed over, they are the first
    [m * writeBufSize] bytes of [b], and the call returns that count with
    the transport's error; the count is the number of bytes in the messages
    that went out. *)
Theorem Write_partial_failure (c : Cnet.wsConn) (k : CnetWrite.WConn) (b : Cnet.bytes) (m : nat) :
  let fs := CnetWrite.frames_of c b in
  (0 < Cnet.writeBufSize c)%Z ->
  CnetWrite.writable k = Some m ->
  m < List.length fs ->
  CnetWrite.Write c k b
  = CnetWrite.Returns
      (sent_on k (firstn m fs) (Some 0),
       ((Z.of_nat m * Cnet.writeBufSize c)%Z, Some (CnetWrite.writeErr k))) /\
  List.concat (firstn m fs) = firstn (m * Z.to_nat (Cnet.writeBufSize c)) b /\
  (Z.of_nat m * Cnet.writeBufSize c <= Z.of_nat (List.length b))%Z.
Proof.
  intros fs HM Hw Hm.
  split.
  { rewrite Write_is_Write_result by exact HM. fold fs. unfold Write_result. rewrite Hw.
    destruct (Nat.leb_spec (List.length fs) m); [lia | reflexivity]. }
  revert Hm. subst fs. unfold CnetWrite.frames_of.
  destruct (Z.ltb_spec (Cnet.writeBufSize c) (Z.of_nat (List.length b))) as [Hlt|Hge]; intros Hm.
  - set (M := Z.to_nat (Cnet.writeBufSize c)) in *.
    assert (HMz : Z.of_nat M = Cnet.writeBufSize c) by (subst M; lia).
    split.
    + apply chunks_prefix; [lia | lia | exact Hm].
    + pose proof (chunks_length M ltac:(lia) (List.length b) b (le_n _)) as [H1 H2].
      nia.
  - simpl in Hm. assert (m = 0) by lia. subst m. simpl. split; [reflexivity | lia].
Qed.

(** Five bytes through an adapter cutting every two bytes, over a transport
    that fails after one message: two bytes went out and 2 is returned. *)
Lemma Write_partial_failure_witness :
  CnetWrite.Write
    {| Cnet.conn := CnetWrite.receiving []; Cnet.buff := [];
       Cnet.readBufSize := 4; Cnet.writeBufSize := 2 |}
    {| CnetWrite.outbound := []; CnetWrite.writable := Some 1;
       CnetWrite.writeErr := Cnet.ErrTransport "broken pipe" |}
    [x01; x02; x03; x04; x05]
  = CnetWrite.Returns
      ({| CnetWrite.outbound := [[x01; x02]];
          CnetWrite.writable := Some 0;
          CnetWrite.writeErr := Cnet.ErrTransport "broken pipe" |},
       (2%Z, Some (Cnet.ErrTransport "broken pipe"))).
Proof.
  apply (Write_partial_failure
           {| Cnet.conn := CnetWrite.receiving []; Cnet.buff := [];
              Cnet.readBufSize := 4; Cnet.writeBufSize := 2 |}
           {| CnetWrite.outbound := []; CnetWrite.writable := Some 1;
              CnetWrite.writeErr := Cnet.ErrTransport "broken pipe" |}
           [x01; x02; x03; x04; x05] 1).
  - simpl. lia.
  - reflexivity.
  - simpl. lia.
Defined.


Section CnetWriteRead.
Import Cnet CnetWrite.

(** The first message of a payload longer than the limit [L], cut every
    [M > L] bytes, is longer than [L]. *)
Lemma frames_of_first_over c b (L : Z) :
  (0 < L)%Z -> (L < writeBufSize c)%Z -> (L < Z.of_nat (List.length b))%Z ->
  exists p rest, frames_of c b = p :: rest /\ over_limit L p = true.
Proof.
  intros HL HM Hb. unfold frames_of.
  destruct (Z.ltb_spec (writeBufSize c) (Z.of_nat (List.length b))) as [Hlt|Hge].
  - set (M := Z.to_nat (writeBufSize c)).
    assert (HMz : Z.of_nat M = writeBufSize c) by (subst M; lia).
    destruct b as [|x b]; [simpl in Hb; lia|].
    exists (firstn M (x :: b)), (chunks (List.length b) M (skipn M (x :: b))).
    split; [reflexivity|].
    unfold over_limit. rewrite length_firstn.
    apply andb_true_iff. split; [apply Z.ltb_lt; lia | apply Z.ltb_lt; lia].
  - exists b, []. split; [reflexivity|].
    unfold over_limit. apply andb_true_iff. split; apply Z.ltb_lt; lia.
Qed.

End CnetWriteRead.

(** X3.  A payload of at most 32768 bytes written through one adapter made
    by [NewWebSocketConn] goes out as one message, and the reads of the
    adapter at the other end, whatever the sizes of their destinations,
    return bytes of it in order and leave the rest of it to later reads:
    what was read followed by what is still owed is the payload. *)
Theorem Write_then_Reads_round_trip (c0 : Cnet.Conn) (b : Cnet.bytes) (sizes : list nat) :
  let fs := CnetWrite.frames_of (Cnet.NewWebSocketConn c0) b in
  let peer := Cnet.NewWebSocketConn (CnetWrite.receiving fs) in
  (Z.of_nat (List.length b) <= 32 * 1024)%Z ->
  fs = [b] /\
  Cnet.stream peer = b /\
  exists c rs,
    Cnet.Reads peer sizes = Ok (c, rs) /\
    List.concat (map fst rs) ++ Cnet.stream c = b.
Proof.
  intros fs peer Hb.
  assert (Hfs : fs = [b]).
  { subst fs. unfold CnetWrite.frames_of. cbn [Cnet.writeBufSize Cnet.NewWebSocketConn].
    destruct (Z.ltb_spec (64 * 1024) (Z.of_nat (List.length b))); [lia | reflexivity]. }
  assert (Hs : Cnet.stream peer = b).
  { subst peer. rewrite Hfs. unfold Cnet.stream, CnetWrite.receiving.
    cbn [Cnet.buff Cnet.conn Cnet.NewWebSocketConn Cnet.readErr Cnet.inbound
         Cnet.readBufSize map Cnet.accepted app].
    replace (Cnet.over_limit (32 * 1024) b) with false.
    - cbn [List.concat]. rewrite !app_nil_r. reflexivity.
    - symmetry. unfold Cnet.over_limit. apply andb_false_iff. right.
      apply Z.ltb_ge. exact Hb. }
  split; [exact Hfs|]. split; [exact Hs|].
  destruct (Reads_stream sizes peer (NewWebSocketConn_bounded _))
    as (c & rs & Hrs & _ & Hcat).
  exists c, rs. split; [exact Hrs|]. rewrite Hcat. exact Hs.
Qed.

(** Five bytes read through destinations of two bytes and of eight. *)
Lemma Write_then_Reads_round_trip_witness :
  exists c rs,
    Cnet.Reads
      (Cnet.NewWebSocketConn
         (CnetWrite.receiving
            (CnetWrite.frames_of (Cnet.NewWebSocketConn (CnetWrite.receiving []))
               [x01; x02; x03; x04; x05])))
      [2; 8] = Ok (c, rs) /\
    List.concat (map fst rs) ++ Cnet.stream c = [x01; x02; x03; x04; x05].
Proof.
  apply (Write_then_Reads_round_trip (CnetWrite.receiving [])
           [x01; x02; x03; x04; x05] [2; 8]).
  simpl. lia.
Defined.

(** X4.  A payload of more than 32768 bytes written through one adapter
    made by [NewWebSocketConn] over a transport that takes every message:
    [Write] returns [len(b)] and no error, yet its first message is longer
    than the 32768 bytes the adapter at the other end allows, whose first
    [Read] returns no byte and the read-limit error; none of the payload
    arrives. *)
Theorem Write_over_peer_read_limit (c0 : Cnet.Conn) (sent : list Cnet.bytes)
    (b : Cnet.bytes) (ldst : nat) :
  let fs := CnetWrite.frames_of (Cnet.NewWebSocketConn c0) b in
  let peer := Cnet.NewWebSocketConn (CnetWrite.receiving fs) in
  (32 * 1024 < Z.of_nat (List.length b))%Z ->
  CnetWrite.Write (Cnet.NewWebSocketConn c0) (CnetWrite.unlimited sent) b
  = CnetWrite.Returns
      (CnetWrite.unlimited (sent ++ fs), (Z.of_nat (List.length b), None)) /\
  Cnet.stream peer = [] /\
  exists c, Cnet.Read peer ldst = Ok (c, ([], Some Cnet.ErrReadLimit)) /\
            Cnet.stream c = [].
Proof.
  intros fs peer Hb.
  split.
  { rewrite Write_is_Write_result by (cbn [Cnet.writeBufSize Cnet.NewWebSocketConn]; lia).
    reflexivity. }
  destruct (frames_of_first_over (Cnet.NewWebSocketConn c0) b (32 * 1024))
    as (p & rest & Hfs & Hover);
    [lia | cbn [Cnet.writeBufSize Cnet.NewWebSocketConn]; lia | exact Hb |].
  subst peer. fold fs in Hfs. rewrite Hfs.
  unfold Cnet.stream, Cnet.Read, CnetWrite.receiving, Cnet.ReadMessage, Cnet.SetReadLimit.
  cbn [Cnet.buff Cnet.conn Cnet.NewWebSocketConn Cnet.readErr Cnet.inbound
       Cnet.readBufSize Cnet.readLimit map Cnet.accepted app List.length Nat.ltb Nat.leb].
  rewrite Hover.
  split; [reflexivity|].
  eexists. split; reflexivity.
Qed.

(** 32769 bytes. *)
Lemma Write_over_peer_read_limit_witness :
  exists c,
    Cnet.Read
      (Cnet.NewWebSocketConn
         (CnetWrite.receiving
            (CnetWrite.frames_of (Cnet.NewWebSocketConn (CnetWrite.receiving []))
               (repeat x00 (Z.to_nat (32 * 1024 + 1))))))
      8 = Ok (c, ([], Some Cnet.ErrReadLimit)) /\
    Cnet.stream c = [].
Proof.
  apply (Write_over_peer_read_limit (CnetWrite.receiving []) []
           (repeat x00 (Z.to_nat (32 * 1024 + 1))) 8).
  rewrite repeat_length. lia.
Defined.


(** X5.  [connectionLoop] calls [connectionOnce], and so [BindSSH], again
    and again on one tunnel, each call after the one before has returned.
    Whatever the number of sessions, and with the watcher goroutines of
    this and of earlier calls firing wherever they like, no call hits the
    [double bind ssh] panic, and after the last return no session is
    stored. *)
Theorem BindSSH_successive_sessions (sessions : list (Tunnel.Conn * list Tunnel.action)) :
  Forall (fun cs => Tunnel.caller (snd cs) = Tunnel.BindSSH (fst cs)) sessions ->
  exists t',
    Tunnel.run (List.concat (map snd sessions)) Tunnel.New = Ok t' /\
    Tunnel.activeConn t' = None /\
    Tunnel.wg_n (Tunnel.activatingConn t') <= 1.
Proof.
  intros Hall.
  assert (Hgen : forall t,
    Tunnel.activeConn t = None -> Tunnel.wg_n (Tunnel.activatingConn t) <= 1 ->
    exists t', Tunnel.run (List.concat (map snd sessions)) t = Ok t' /\
               Tunnel.activeConn t' = None /\
               Tunnel.wg_n (Tunnel.activatingConn t') <= 1).
  { induction Hall as [|[c sched] rest Hc _ IH]; intros t Hn Hle.
    - exists t. split; [reflexivity | split; assumption].
    - cbn [map snd List.concat]. rewrite run_app.
      simpl in Hc. rewrite (run_BindSSH c sched t Hc Hn Hle). cbn [res_bind].
      apply IH; [reflexivity|]. simpl. destruct (Tunnel.released sched); lia. }
  apply Hgen; [reflexivity | simpl; lia].
Qed.

(** Two sessions, the watcher of the first firing during the second. *)
Lemma BindSSH_successive_sessions_witness :
  exists t',
    Tunnel.run
      (Tunnel.BindSSH 7
       ++ [Tunnel.BindStore 8; Tunnel.CtxWatcher; Tunnel.BindRelease;
           Tunnel.BindRearm; Tunnel.BindClear])
      Tunnel.New = Ok t' /\
    Tunnel.activeConn t' = None /\
    Tunnel.wg_n (Tunnel.activatingConn t') <= 1.
Proof.
  apply (BindSSH_successive_sessions
           [(7, Tunnel.BindSSH 7);
            (8, [Tunnel.BindStore 8; Tunnel.CtxWatcher; Tunnel.BindRelease;
                 Tunnel.BindRearm; Tunnel.BindClear])]).
  repeat constructor.
Defined.


Section ProxyInvariants.
Import Proxy.

Lemma run_counts sched : forall p p',
  run sched p = Some p' ->
  connPool p <= connPool_cap p ->
  connPool p <= ActiveConnections p ->
  connPool_cap p' = connPool_cap p /\
  maxConns p' = maxConns p /\
  connPool p' <= connPool_cap p /\
  connPool p' <= ActiveConnections p' /\
  rejected p <= rejected p' /\
  ActiveConnections p' + returns_in sched + rejected p'
  = ActiveConnections p + accepts_in sched + rejected p /\
  (rejected p < rejected p' ->
   connPool_cap p + rejected p' <= accepts_in sched + connPool p + rejected p).
Proof.
  unfold accepts_in, returns_in.
  induction sched as [|e rest IH]; intros p p' Hrun Hcap Hact.
  - injection Hrun as <-. simpl. repeat split; lia.
  - destruct e; cbn [run step] in Hrun.
    + destruct (Nat.ltb_spec (connPool p) (connPool_cap p)) as [Hlt|Hge];
        apply IH in Hrun; cbn [connPool connPool_cap ActiveConnections rejected maxConns] in *;
        try lia; cbn [List.filter List.length]; repeat split; lia.
    + destruct (connPool p) as [|n] eqn:Hn; [discriminate|].
      apply IH in Hrun; cbn [connPool connPool_cap ActiveConnections rejected maxConns] in *;
        try lia; cbn [List.filter List.length]; repeat split; lia.
    + destruct (ActiveConnections p) as [|a] eqn:Ha; [discriminate|].
      apply IH in Hrun; cbn [connPool connPool_cap ActiveConnections rejected maxConns] in *;
        try lia; cbn [List.filter List.length]; repeat split; lia.
Qed.

End ProxyInvariants.

(** X6.  What holds of a proxy made by [NewProxy] after any interleaving
    of the accept loop, the [connectionWorker] goroutines and returning
    [pipeRemote] goroutines: [connPool] never holds more than its 100
    tokens, nor more tokens than there are connections in flight; every
    accepted connection is in flight, finished or rejected; and a
    connection is rejected only after 100 others were let in, so none of
    the first 100 local connections is ever rejected. *)
Theorem runTCP_pool_accounting (sched : list Proxy.event) (p' : Proxy.Proxy) :
  Proxy.run sched Proxy.NewProxy = Some p' ->
  Proxy.connPool p' <= 100 /\
  Proxy.connPool p' <= Proxy.ActiveConnections p' /\
  Proxy.ActiveConnections p' + returns_in sched + Proxy.rejected p' = accepts_in sched /\
  (0 < Proxy.rejected p' -> 100 + Proxy.rejected p' <= accepts_in sched).
Proof.
  intros Hrun.
  destruct (run_counts sched _ _ Hrun) as (_ & _ & H1 & H2 & _ & H3 & H4);
    [simpl; lia | simpl; lia |].
  cbn [Proxy.connPool Proxy.connPool_cap Proxy.ActiveConnections Proxy.rejected
       Proxy.NewProxy] in *.
  repeat split; lia.
Qed.

(** Two connections accepted, a worker takes a token, one pipe returns. *)
Lemma runTCP_pool_accounting_witness :
  exists p',
    Proxy.run [Proxy.runTCP_accept; Proxy.runTCP_accept;
               Proxy.connectionWorker_recv; Proxy.pipeRemote_return]
      Proxy.NewProxy = Some p' /\
    Proxy.connPool p' <= 100 /\
    Proxy.connPool p' <= Proxy.ActiveConnections p'.
Proof.
  eexists. split; [reflexivity|].
  destruct (runTCP_pool_accounting
              [Proxy.runTCP_accept; Proxy.runTCP_accept;
               Proxy.connectionWorker_recv; Proxy.pipeRemote_return]
              _ eq_refl) as (H1 & H2 & _).
  split; [exact H1 | exact H2].
Defined.

(** X7.  The connection limit holds as long as no [connectionWorker]
    takes a token: in any interleaving of the accept loop and returning
    [pipeRemote] goroutines in which the workers do not receive, every
    token in [connPool] stands for a connection in flight, and there are
    never more than [maxConns] = 100 of them. *)
Theorem connPool_limit_without_workers (sched : list Proxy.event) (p' : Proxy.Proxy) :
  forallb (fun e => negb (Proxy.is_worker e)) sched = true ->
  Proxy.run sched Proxy.NewProxy = Some p' ->
  Proxy.connPool p' = Proxy.ActiveConnections p' /\
  Proxy.ActiveConnections p' <= Proxy.maxConns p' /\
  Proxy.maxConns p' = 100.
Proof.
  intros Hnw Hrun.
  destruct (connPool_bounds_without_workers sched Proxy.NewProxy p' Hnw eq_refl
              ltac:(simpl; lia) Hrun) as (H1 & H2 & H3).
  destruct (run_counts sched _ _ Hrun) as (_ & Hm & _); [simpl; lia | simpl; lia |].
  cbn [Proxy.connPool_cap Proxy.maxConns Proxy.NewProxy] in *.
  repeat split; lia.
Qed.

(** Three connections accepted and one finished. *)
Lemma connPool_limit_without_workers_witness :
  exists p',
    Proxy.run [Proxy.runTCP_accept; Proxy.runTCP_accept; Proxy.runTCP_accept;
               Proxy.pipeRemote_return]
      Proxy.NewProxy = Some p' /\
    Proxy.connPool p' = Proxy.ActiveConnections p' /\
    Proxy.ActiveConnections p' <= Proxy.maxConns p'.
Proof.
  eexists. split; [reflexivity|].
  destruct (connPool_limit_without_workers
              [Proxy.runTCP_accept; Proxy.runTCP_accept; Proxy.runTCP_accept;
               Proxy.pipeRemote_return]
              _ eq_refl eq_refl) as (H1 & H2 & _).
  split; [exact H1 | exact H2].
Defined.


(** X8.  When [chunkedCopy] returns a nil error, it has copied everything:
    some read reported [io.EOF], no read before it reported an error, every
    read up to and including that one which returned bytes (also the one
    that returned bytes together with [io.EOF]) was followed by a write
    that took exactly those bytes without error, and the count returned is
    the number of bytes read, added up in [int64]. *)
Theorem chunkedCopy_nil_error_copied_all (intn : nat -> Z -> Z)
    (reads : list (Z -> Cio.read_result)) :
  forall (i : nat) (writes : list Cio.write_result) (total t : Z),
  Cio.chunkedCopy intn i reads writes total = Some (t, None) ->
  exists k,
    let rs := firstn (S k) (answers intn i reads) in
    let data := with_data rs in
    option_map Cio.er (nth_error (answers intn i reads) k) = Some (Some Cio.EOF) /\
    Forall (fun r => Cio.er r = None) (firstn k (answers intn i reads)) /\
    Forall2 (fun r w => Cio.nw w = Cio.nr r /\ Cio.ew w = None)
      data (firstn (List.length data) writes) /\
    t = fold_left (fun a r => wrap64 (a + Cio.nr r)) data total.
Proof.
  induction reads as [|rd reads IH]; intros i writes total t Hc; [discriminate|].
  cbn [Cio.chunkedCopy] in Hc. cbn [answers].
  set (r := rd (Cio.chunkSizeMin + intn i (Cio.chunkSizeMax - Cio.chunkSizeMin + 1))%Z) in *.
  destruct (0 <? Cio.nr r)%Z eqn:Hnr.
  - destruct writes as [|w writes]; [discriminate|].
    destruct ((Cio.nw w <? 0) || (Cio.nr r <? Cio.nw w))%Z eqn:Hshort.
    { destruct (Cio.ew w); discriminate. }
    destruct (Cio.ew w) eqn:Hew; [discriminate|].
    destruct (Z.eqb_spec (Cio.nr r) (Cio.nw w)) as [Heq|]; [|discriminate].
    unfold Cio.after_read in Hc.
    destruct (Cio.er r) as [e|] eqn:Her.
    + destruct e; try discriminate. injection Hc as <-.
      exists 0. cbn [firstn nth_error option_map with_data List.filter].
      rewrite Hnr, Her. cbn [List.length firstn fold_left].
      repeat split; [constructor | | rewrite Heq; reflexivity].
      constructor; [split; [symmetry; exact Heq | exact Hew] | constructor].
    + apply IH in Hc. destruct Hc as (k & H1 & H2 & H3 & H4).
      exists (S k). cbn [firstn nth_error with_data List.filter] in *.
      rewrite Hnr. cbn [List.length firstn fold_left].
      split; [exact H1|]. split; [constructor; assumption|].
      split; [constructor; [split; [symmetry; exact Heq | exact Hew] | exact H3]|].
      rewrite Heq. exact H4.
  - unfold Cio.after_read in Hc.
    destruct (Cio.er r) as [e|] eqn:Her.
    + destruct e; try discriminate. injection Hc as <-.
      exists 0. cbn [firstn nth_error option_map with_data List.filter].
      rewrite Hnr, Her. cbn [List.length firstn fold_left].
      repeat split; constructor.
    + apply IH in Hc. destruct Hc as (k & H1 & H2 & H3 & H4).
      exists (S k). cbn [firstn nth_error with_data List.filter] in *.
      rewrite Hnr.
      split; [exact H1|]. split; [constructor; assumption|].
      split; [exact H3 | exact H4].
Qed.

(** Three bytes, then two bytes together with [io.EOF]: five bytes are
    copied. *)
Lemma chunkedCopy_nil_error_copied_all_witness :
  exists k,
    let reads := [fun _ : Z => {| Cio.nr := 3; Cio.er := None |};
                  fun _ : Z => {| Cio.nr := 2; Cio.er := Some Cio.EOF |}] in
    let rs := firstn (S k) (answers (fun _ _ => 0%Z) 0 reads) in
    let data := with_data rs in
    option_map Cio.er (nth_error (answers (fun _ _ => 0%Z) 0 reads) k) = Some (Some Cio.EOF) /\
    Forall (fun r => Cio.er r = None) (firstn k (answers (fun _ _ => 0%Z) 0 reads)) /\
    Forall2 (fun r w => Cio.nw w = Cio.nr r /\ Cio.ew w = None)
      data (firstn (List.length data)
              [{| Cio.nw := 3; Cio.ew := None |}; {| Cio.nw := 2; Cio.ew := None |}]) /\
    5%Z = fold_left (fun a r => wrap64 (a + Cio.nr r)) data 0%Z.
Proof.
  apply (chunkedCopy_nil_error_copied_all (fun _ _ => 0%Z)
           [fun _ : Z => {| Cio.nr := 3; Cio.er := None |};
            fun _ : Z => {| Cio.nr := 2; Cio.er := Some Cio.EOF |}]
           0 [{| Cio.nw := 3; Cio.ew := None |}; {| Cio.nw := 2; Cio.ew := None |}]
           0%Z 5%Z).
  vm_compute. reflexivity.
Defined.


(** X9.  The converse: when the reader reports [io.EOF] at some read and
    no error before it, and the writer takes without error exactly the
    bytes of every read that returned some, [chunkedCopy] returns with a
    nil error and the number of bytes read. *)
Theorem chunkedCopy_copies_until_EOF (intn : nat -> Z -> Z) (k : nat) :
  forall (reads : list (Z -> Cio.read_result)) (i : nat)
         (writes : list Cio.write_result) (total : Z),
  let rs := firstn (S k) (answers intn i reads) in
  let data := with_data rs in
  option_map Cio.er (nth_error (answers intn i reads) k) = Some (Some Cio.EOF) ->
  Forall (fun r => Cio.er r = None) (firstn k (answers intn i reads)) ->
  Forall2 (fun r w => Cio.nw w = Cio.nr r /\ Cio.ew w = None)
    data (firstn (List.length data) writes) ->
  Cio.chunkedCopy intn i reads writes total
  = Some (fold_left (fun a r => wrap64 (a + Cio.nr r)) data total, None).
Proof.
  induction k as [|k IH]; intros reads i writes total rs data Heof Hbefore Hw;
    subst rs data; (destruct reads as [|rd reads]; [discriminate|]);
    cbn [answers firstn nth_error option_map with_data List.filter] in *;
    cbn [Cio.chunkedCopy];
    set (r := rd (Cio.chunkSizeMin + intn i (Cio.chunkSizeMax - Cio.chunkSizeMin + 1))%Z) in *.
  - injection Heof as Heof.
    destruct (0 <? Cio.nr r)%Z eqn:Hnr.
    + cbn [List.length firstn fold_left] in *.
      destruct writes as [|w writes]; inversion Hw as [|? ? ? ? [Hnw Hew] _]; subst.
      apply Z.ltb_lt in Hnr.
      replace ((Cio.nw w <? 0) || (Cio.nr r <? Cio.nw w))%Z with false
        by (symmetry; apply orb_false_iff; split; apply Z.ltb_ge; lia).
      rewrite Hew, Hnw, Z.eqb_refl. unfold Cio.after_read. rewrite Heof. reflexivity.
    + unfold Cio.after_read. rewrite Heof. reflexivity.
  - inversion Hbefore as [|? ? Her Hrest]; subst.
    destruct (0 <? Cio.nr r)%Z eqn:Hnr.
    + cbn [List.length firstn fold_left] in *.
      destruct writes as [|w writes]; inversion Hw as [|? ? ? ? [Hnw Hew] Hw']; subst.
      apply Z.ltb_lt in Hnr.
      replace ((Cio.nw w <? 0) || (Cio.nr r <? Cio.nw w))%Z with false
        by (symmetry; apply orb_false_iff; split; apply Z.ltb_ge; lia).
      rewrite Hew, Hnw, Z.eqb_refl. unfold Cio.after_read. rewrite Her.
      apply IH; assumption.
    + unfold Cio.after_read. rewrite Her. apply IH; assumption.
Qed.

(** A read without bytes, three bytes, then [io.EOF]. *)
Lemma chunkedCopy_copies_until_EOF_witness :
  Cio.chunkedCopy (fun _ _ => 0%Z) 0
    [fun _ : Z => {| Cio.nr := 0; Cio.er := None |};
     fun _ : Z => {| Cio.nr := 3; Cio.er := None |};
     fun _ : Z => {| Cio.nr := 0; Cio.er := Some Cio.EOF |}]
    [{| Cio.nw := 3; Cio.ew := None |}] 0
  = Some (3%Z, None).
Proof.
  apply (chunkedCopy_copies_until_EOF (fun _ _ => 0%Z) 2
           [fun _ : Z => {| Cio.nr := 0; Cio.er := None |};
            fun _ : Z => {| Cio.nr := 3; Cio.er := None |};
            fun _ : Z => {| Cio.nr := 0; Cio.er := Some Cio.EOF |}]
           0 [{| Cio.nw := 3; Cio.ew := None |}] 0%Z).
  - reflexivity.
  - repeat constructor.
  - repeat constructor.
Defined.


(** X10.  [chunkedCopy] only ever asks its reader for between 1024 and
    32768 bytes, so [buf[:chunkSize]] stays within the 32768 bytes of
    [buf]: with [rng.Intn(n)] drawing from [0, n), two readers that answer
    alike to requests of these sizes give the same copy. *)
Theorem chunkedCopy_asks_within_buffer (intn : nat -> Z -> Z)
    (reads reads' : list (Z -> Cio.read_result)) :
  (forall i n, 0 < n -> 0 <= intn i n < n)%Z ->
  Forall2 (fun rd rd' : Z -> Cio.read_result =>
             forall size, (1024 <= size <= 32768)%Z -> rd size = rd' size)
    reads reads' ->
  forall i writes total,
    Cio.chunkedCopy intn i reads writes total
    = Cio.chunkedCopy intn i reads' writes total.
Proof.
  intros Hrng Hall. induction Hall as [|rd rd' reads reads' Hrd _ IH];
    intros i writes total; [reflexivity|].
  cbn [Cio.chunkedCopy].
  assert (Hsize : rd (Cio.chunkSizeMin + intn i (Cio.chunkSizeMax - Cio.chunkSizeMin + 1))%Z
                  = rd' (Cio.chunkSizeMin + intn i (Cio.chunkSizeMax - Cio.chunkSizeMin + 1))%Z).
  { apply Hrd. unfold Cio.chunkSizeMin, Cio.chunkSizeMax.
    pose proof (Hrng i (32 * 1024 - 1 * 1024 + 1)%Z ltac:(lia)). lia. }
  rewrite Hsize.
  destruct (0 <? Cio.nr _)%Z.
  - destruct writes as [|w writes]; [reflexivity|].
    rewrite !IH. reflexivity.
  - rewrite IH. reflexivity.
Qed.

(** A reader that would fail when asked for less than 1024 bytes is never
    asked that. *)
Lemma chunkedCopy_asks_within_buffer_witness :
  Cio.chunkedCopy (fun _ _ => 0%Z) 0
    [fun size : Z => if (size <? 1024)%Z
                     then {| Cio.nr := 0; Cio.er := Some (Cio.ErrOther "short buffer") |}
                     else {| Cio.nr := 0; Cio.er := Some Cio.EOF |}] [] 0
  = Cio.chunkedCopy (fun _ _ => 0%Z) 0
      [fun _ : Z => {| Cio.nr := 0; Cio.er := Some Cio.EOF |}] [] 0.
Proof.
  apply (chunkedCopy_asks_within_buffer (fun _ _ => 0%Z)
           [fun size : Z => if (size <? 1024)%Z
                            then {| Cio.nr := 0; Cio.er := Some (Cio.ErrOther "short buffer") |}
                            else {| Cio.nr := 0; Cio.er := Some Cio.EOF |}]
           [fun _ : Z => {| Cio.nr := 0; Cio.er := Some Cio.EOF |}]).
  - intros i n Hn. lia.
  - constructor; [|constructor]. intros size Hs; cbv beta.
    destruct (Z.ltb_spec size 1024); [lia | reflexivity].
Defined.


Section KeepAliveLoopFacts.
Import Tunnel.

Lemma strange_normal b : strange b = negb (normal_ping (PingReply b)).
Proof.
  unfold strange, normal_ping. destruct b as [|a b]; [reflexivity|].
  cbn [String.length Nat.ltb Nat.leb andb]. simpl (String.eqb (String a b) "").
  rewrite orb_false_l. reflexivity.
Qed.

End KeepAliveLoopFacts.

(** X11.  [keepAliveLoop] sleeps before every ping, the first included,
    and goes on as long as the pings are answered without error by an
    empty body or by [pong]: whatever the generator and the clock, the
    number of its sleeps is one more than the number of such answers
    before the first error or other body, at which it leaves the loop. *)
Theorem keepAliveLoop_stops_at_first_abnormal_ping {R} (rand : Tunnel.Rand R)
    (KeepAlive now : Z) (pings : list Tunnel.ping) :
  List.length (Tunnel.keepAliveLoop rand KeepAlive now pings)
  = S (List.length (leading_normal pings)).
Proof.
  unfold Tunnel.keepAliveLoop. generalize (Tunnel.NewSource rand now) as rng.
  induction pings as [|p rest IH]; intros rng; cbn [Tunnel.keepAlive_sleeps leading_normal];
    destruct (Tunnel.Float64 rand rng) as [u rng'].
  - reflexivity.
  - destruct p as [|b]; [reflexivity|].
    rewrite strange_normal. destruct (normal_ping (Tunnel.PingReply b)); cbn [negb].
    + cbn [List.length]. rewrite IH. reflexivity.
    + reflexivity.
Qed.


Section RemotesFacts.
Import Remotes.
Context {N : Type} (net : Net N).

(** A proxy that [listen] accepted for an inbound tunnel is ready. *)
Lemma NewProxy_ready index r n n1 p :
  NewProxy net true index r n = (n1, (p, None)) ->
  ready p /\ id p = wrap64 (index + 1) /\ remote p = r.
Proof.
  unfold NewProxy, listen, ready, Run.
  cbn [remote inbound id tcp udp]. change (negb true) with false.
  rewrite andb_false_r.
  destruct (Stdio r) eqn:Hs.
  { intros H. injection H as <- <-. cbn [remote inbound id]. rewrite Hs. auto. }
  destruct (String.eqb (LocalProto r) "tcp") eqn:Ht.
  { destruct (ResolveTCPAddr net n _) as [n2 [e|addr]]; [discriminate|].
    destruct (ListenTCP net n2 addr) as [n3 [e|l]]; [discriminate|].
    intros H. injection H as <- <-. cbn [remote inbound id tcp set_tcp].
    rewrite Hs, Ht. change (negb true) with false. rewrite andb_false_r.
    split; [|auto]. split; [reflexivity|].
    right. left. exists l. auto. }
  destruct (String.eqb (LocalProto r) "udp") eqn:Hu; [|discriminate].
  destruct (listenUDP net n r) as [n2 [e|l]]; [discriminate|].
  intros H. injection H as <- <-. cbn [remote inbound id udp set_udp].
  rewrite Hs, Ht, Hu. split; [|auto]. split; [reflexivity|].
  right. right. exists l. auto.
Qed.

Lemma BindRemotes_loop_ready remotes : forall t proxies n n' t' ps,
  Inbound t = true ->
  (0 <= proxyCount t)%Z ->
  (proxyCount t + Z.of_nat (List.length remotes) < 2 ^ 63)%Z ->
  BindRemotes_loop net t remotes proxies n = (n', (t', inr ps)) ->
  exists made,
    ps = proxies ++ made /\
    Forall ready made /\
    map remote made = remotes /\
    map id made
    = map (fun j => (proxyCount t + 1 + Z.of_nat j)%Z) (seq 0 (List.length remotes)) /\
    proxyCount t' = (proxyCount t + Z.of_nat (List.length remotes))%Z.
Proof.
  induction remotes as [|r rest IH]; intros t proxies n n' t' ps Hin H0 Hlt Hrun.
  - injection Hrun as _ <- <-. exists []. rewrite app_nil_r. simpl.
    repeat split; [constructor | lia].
  - cbn [BindRemotes_loop] in Hrun. rewrite Hin in Hrun.
    destruct (NewProxy net true (proxyCount t) r n) as [n1 [p [err|]]] eqn:Hnew;
      [discriminate|].
    destruct (NewProxy_ready _ _ _ _ _ Hnew) as (Hready & Hid & Hrem).
    cbn [List.length] in Hlt.
    assert (Hw : wrap64 (proxyCount t + 1) = (proxyCount t + 1)%Z)
      by (apply wrap64_id; lia).
    rewrite Hw in *.
    apply IH in Hrun; cbn [Inbound proxyCount]; [| reflexivity | lia | lia].
    destruct Hrun as (made & Hps & Hall & Hrems & Hids & Hcount).
    cbn [proxyCount] in *.
    exists (p :: made). rewrite Hps, <- app_assoc. split; [reflexivity|].
    split; [constructor; assumption|].
    split; [cbn [map]; rewrite Hrem, Hrems; reflexivity|].
    split.
    + cbn [map List.length seq]. rewrite Hid, Hids, <- seq_shift, map_map.
      f_equal; [lia|]. apply map_ext. intros j. lia.
    + cbn [List.length]. lia.
Qed.

End RemotesFacts.

(** X12.  When [BindRemotes] gets as far as running proxies, the tunnel is
    inbound, there is one proxy per remote, in order, numbered from
    [proxyCount + 1] on, and [proxyCount] has advanced by their number;
    each of them has passed [listen], so [Run] finds the listener it needs
    (none for stdio) and never reaches its [should not get here] panic, nor
    the branch of [runTCP] that only waits: for an inbound tunnel the
    reverse case of [listen] and [runTCP] is never taken. *)
Theorem BindRemotes_runs_listening_proxies {N : Type} (net : Remotes.Net N)
    (t t' : Remotes.Tunnel) (remotes : list Remotes.Remote) (n n' : N)
    (proxies : list Remotes.Proxy) :
  (0 <= Remotes.proxyCount t)%Z ->
  (Remotes.proxyCount t + Z.of_nat (List.length remotes) < 2 ^ 63)%Z ->
  Remotes.BindRemotes net t remotes n = (n', (t', inr proxies)) ->
  Remotes.Inbound t = true /\
  remotes <> [] /\
  map Remotes.remote proxies = remotes /\
  map Remotes.id proxies
  = map (fun j => (Remotes.proxyCount t + 1 + Z.of_nat j)%Z)
        (seq 0 (List.length remotes)) /\
  Remotes.proxyCount t' = (Remotes.proxyCount t + Z.of_nat (List.length remotes))%Z /\
  Forall (fun p =>
            Remotes.Run p = Ok Remotes.runStdio \/
            (exists l, Remotes.Run p = Ok (Remotes.runTCP_accepts (Some l)) /\
                       Remotes.tcp p = Some l) \/
            (exists l, Remotes.Run p = Ok (Remotes.udp_run (Some l)) /\
                       Remotes.udp p = Some l))
    proxies.
Proof.
  intros H0 Hlt Hrun. unfold Remotes.BindRemotes in Hrun.
  destruct remotes as [|r rest] eqn:Hr; [discriminate|]. rewrite <- Hr in *.
  destruct (Remotes.Inbound t) eqn:Hin; [|discriminate]. cbn [negb] in Hrun.
  destruct (BindRemotes_loop_ready net remotes t [] n n' t' proxies Hin H0 Hlt Hrun)
    as (made & Hps & Hall & Hrems & Hids & Hcount).
  cbn [app] in Hps. subst made.
  split; [reflexivity|]. split; [rewrite Hr; discriminate|].
  split; [exact Hrems|]. split; [exact Hids|]. split; [exact Hcount|].
  eapply List.Forall_impl; [|exact Hall].
  intros p (_ & [[H _]|[H|H]]); auto.
Qed.

(** A tcp remote and a stdio remote on a tunnel that has made two proxies
    before. *)
Lemma BindRemotes_runs_listening_proxies_witness :
  exists proxies t',
    Remotes.BindRemotes Remotes.open_net
      {| Remotes.Inbound := true; Remotes.proxyCount := 2 |}
      [{| Remotes.Reverse := false; Remotes.Stdio := false;
          Remotes.LocalProto := "tcp"; Remotes.LocalHost := "0.0.0.0";
          Remotes.LocalPort := "3000" |};
       {| Remotes.Reverse := false; Remotes.Stdio := true;
          Remotes.LocalProto := ""; Remotes.LocalHost := "";
          Remotes.LocalPort := "" |}] 0%Z
    = (1%Z, (t', inr proxies)) /\
    map Remotes.id proxies = [3%Z; 4%Z] /\
    Remotes.proxyCount t' = 4%Z.
Proof.
  eexists. eexists. split; [vm_compute; reflexivity|].
  destruct (BindRemotes_runs_listening_proxies Remotes.open_net
              {| Remotes.Inbound := true; Remotes.proxyCount := 2 |} _
              [{| Remotes.Reverse := false; Remotes.Stdio := false;
                  Remotes.LocalProto := "tcp"; Remotes.LocalHost := "0.0.0.0";
                  Remotes.LocalPort := "3000" |};
               {| Remotes.Reverse := false; Remotes.Stdio := true;
                  Remotes.LocalProto := ""; Remotes.LocalHost := "";
                  Remotes.LocalPort := "" |}] 0%Z _ _
              ltac:(simpl; lia) ltac:(simpl; lia) ltac:(vm_compute; reflexivity))
    as (_ & _ & _ & Hids & Hcount & _).
  split; [exact Hids | exact Hcount].
Defined.


Section RemotesErrors.
Import Remotes.
Context {N : Type} (net : Net N).

Lemma BindRemotes_loop_app r1 : forall r2 t proxies n,
  BindRemotes_loop net t (r1 ++ r2) proxies n
  = match BindRemotes_loop net t r1 proxies n with
    | (n1, (t1, inr ps)) => BindRemotes_loop net t1 r2 ps n1
    | (n1, (t1, inl e)) => (n1, (t1, inl e))
    end.
Proof.
  induction r1 as [|r r1 IH]; intros r2 t proxies n; [reflexivity|].
  cbn [app BindRemotes_loop].
  destruct (NewProxy net (Inbound t) (proxyCount t) r n) as [n1 [p [err|]]];
    [reflexivity | apply IH].
Qed.

End RemotesErrors.

(** X13.  [BindRemotes] stops at the first remote whose proxy cannot
    listen and returns that error: the remotes after it are not looked at
    and no proxy is run, while what was done for the remotes before it is
    not undone: the network is left with their listeners and [proxyCount]
    keeps the numbers given to them.  The failing proxy itself takes no
    number. *)
Theorem BindRemotes_stops_at_first_failure {N : Type} (net : Remotes.Net N)
    (t t1 : Remotes.Tunnel) (good rest : list Remotes.Remote) (bad : Remotes.Remote)
    (n n1 n2 : N) (ps : list Remotes.Proxy) (p : Remotes.Proxy) (err : Remotes.error) :
  Remotes.Inbound t = true ->
  Remotes.BindRemotes_loop net t good [] n = (n1, (t1, inr ps)) ->
  Remotes.NewProxy net true (Remotes.proxyCount t1) bad n1 = (n2, (p, Some err)) ->
  Remotes.BindRemotes net t (good ++ bad :: rest) n = (n2, (t1, inl err)).
Proof.
  intros Hin Hgood Hbad. unfold Remotes.BindRemotes.
  destruct (good ++ bad :: rest) as [|r0 l0] eqn:Hr.
  { destruct good; discriminate. }
  rewrite Hin. cbn [negb]. rewrite <- Hr.
  rewrite BindRemotes_loop_app, Hgood. cbn [Remotes.BindRemotes_loop].
  assert (Hin1 : Remotes.Inbound t1 = true).
  { clear Hbad Hr. revert t n ps Hin Hgood. generalize (@nil Remotes.Proxy).
    induction good as [|g good IH]; intros acc t n ps Hin Hgood.
    - injection Hgood as _ <- _. exact Hin.
    - cbn [Remotes.BindRemotes_loop] in Hgood.
      destruct (Remotes.NewProxy net (Remotes.Inbound t) (Remotes.proxyCount t) g n)
        as [n' [q [e|]]]; [discriminate|].
      apply IH in Hgood; [exact Hgood | exact Hin]. }
  rewrite Hin1, Hbad. reflexivity.
Qed.

(** A tcp remote that listens, then one of an unknown protocol, then a
    third: the listener of the first stays, its number stays taken. *)
Lemma BindRemotes_stops_at_first_failure_witness :
  Remotes.BindRemotes Remotes.open_net
    {| Remotes.Inbound := true; Remotes.proxyCount := 0 |}
    ([{| Remotes.Reverse := false; Remotes.Stdio := false;
         Remotes.LocalProto := "tcp"; Remotes.LocalHost := "0.0.0.0";
         Remotes.LocalPort := "3000" |}]
     ++ {| Remotes.Reverse := false; Remotes.Stdio := false;
           Remotes.LocalProto := "sctp"; Remotes.LocalHost := "0.0.0.0";
           Remotes.LocalPort := "3001" |}
     :: [{| Remotes.Reverse := false; Remotes.Stdio := true;
            Remotes.LocalProto := ""; Remotes.LocalHost := "";
            Remotes.LocalPort := "" |}]) 0%Z
  = (1%Z, ({| Remotes.Inbound := true; Remotes.proxyCount := 1 |},
           inl Remotes.ErrUnknownLocalProto)).
Proof.
  eapply (BindRemotes_stops_at_first_failure Remotes.open_net).
  - reflexivity.
  - vm_compute. reflexivity.
  - vm_compute. reflexivity.
Defined.

(** X14.  [New] panics exactly when [KeepAlive] is one nanosecond: the
    health-check ticker is made with the period [KeepAlive / 2], which is
    then zero, and [time.NewTicker] panics on it.  In every other case
    [New] returns a tunnel without a session whose latch is armed once, and
    the health check runs, every [KeepAlive / 2], exactly when [KeepAlive]
    is positive. *)
Theorem New_panics_on_one_nanosecond (c : NewTunnel.Config) :
  (NewTunnel.KeepAlive c = 1%Z <->
   NewTunnel.New c = Panic "non-positive interval for NewTicker") /\
  (NewTunnel.KeepAlive c <> 1%Z ->
   exists t,
     NewTunnel.New c = Ok t /\
     NewTunnel.session t = Tunnel.New /\
     Tunnel.getSSH Tunnel.live (NewTunnel.session t) = Tunnel.Waits /\
     NewTunnel.proxyCount t = 0%Z /\
     NewTunnel.healthCheck t
     = (if (0 <? NewTunnel.KeepAlive c)%Z
        then Some (NewTunnel.KeepAlive c / 2)%Z else None) /\
     (forall d, NewTunnel.healthCheck t = Some d -> (0 < d)%Z)).
Proof.
  unfold NewTunnel.New, NewTunnel.NewTicker.
  destruct (Z.ltb_spec 0 (NewTunnel.KeepAlive c)) as [Hpos|Hle].
  - destruct (Z.leb_spec (Z.quot (NewTunnel.KeepAlive c) 2) 0) as [Hq|Hq]; cbn [res_bind].
    + assert (H1 : NewTunnel.KeepAlive c = 1%Z).
      { destruct (Z.eq_dec (NewTunnel.KeepAlive c) 1) as [|Hne]; [assumption|].
        pose proof (Z.quot_le_lower_bound (NewTunnel.KeepAlive c) 2 1). lia. }
      split; [split; auto | intros Hne; contradiction].
    + assert (H1 : NewTunnel.KeepAlive c <> 1%Z).
      { intros H1. rewrite H1 in Hq. vm_compute in Hq. discriminate. }
      split; [split; [contradiction | discriminate]|]. intros _.
      eexists. split; [reflexivity|]. cbn.
      rewrite Z.quot_div_nonneg by lia.
      repeat split. intros d Hd. injection Hd as <-.
      rewrite <- Z.quot_div_nonneg by lia. exact Hq.
  - split; [split; [lia | discriminate]|]. intros _.
    eexists. split; [reflexivity|]. cbn. repeat split. discriminate.
Qed.


Section ConnectionLoopFacts.
Import Client.

Lemma connectionLoop_budget Duration_for (m : Z) : forall (left : nat) rounds s,
  (0 <= b_attempt s)%Z ->
  (b_attempt s + Z.of_nat left = m)%Z ->
  (left < List.length rounds)%nat ->
  forallb failed_round (firstn (S left) rounds) = true ->
  forallb (fun r => negb (cancelled_in_sleep r)) (firstn left rounds) = true ->
  exists sleeps,
    connectionLoop_from Duration_for m rounds s = (sleeps, GaveUp) /\
    List.length sleeps = left.
Proof.
  induction left as [|left IH]; intros rounds s Hb Hm Hlen Hfail Hnc;
    (destruct rounds as [|r rest]; [simpl in Hlen; lia|]);
    cbn [firstn forallb] in Hfail, Hnc;
    apply andb_true_iff in Hfail; destruct Hfail as [Hf Hfail];
    unfold failed_round in Hf; apply negb_true_iff in Hf;
    cbn [connectionLoop_from]; unfold connectionLoop_iteration; rewrite Hf;
    unfold record_attempt; cbn [b_attempt lastSuccess consecutiveFailures adaptiveBackoff].
  - replace ((0 <=? m) && (m <=? b_attempt s))%Z with true
      by (symmetry; apply andb_true_iff; split; apply Z.leb_le; lia).
    exists []. split; reflexivity.
  - replace ((0 <=? m) && (m <=? b_attempt s))%Z with false
      by (symmetry; apply andb_false_iff; right; apply Z.leb_gt; lia).
    apply andb_true_iff in Hnc. destruct Hnc as [Hc Hnc].
    apply negb_true_iff in Hc. rewrite Hc.
    edestruct (IH rest) as (sleeps & Hrun & Hl);
      [| | | exact Hfail | exact Hnc |];
      [| | | rewrite Hrun; eexists; split; [reflexivity | simpl; rewrite Hl; reflexivity]];
      cbn [b_attempt]; simpl in Hlen; lia.
Qed.

Lemma connectionLoop_unlimited Duration_for (m : Z) : (m < 0)%Z ->
  forall rounds s, snd (connectionLoop_from Duration_for m rounds s) <> GaveUp.
Proof.
  intros Hm. induction rounds as [|r rest IH]; intros s; [discriminate|].
  cbn [connectionLoop_from]. unfold connectionLoop_iteration.
  replace (0 <=? m)%Z with false by (symmetry; apply Z.leb_gt; lia). cbn [andb].
  destruct (cancelled_in_sleep r); [discriminate|].
  match goal with |- context [connectionLoop_from _ _ rest ?s'] =>
    specialize (IH s'); destruct (connectionLoop_from Duration_for m rest s') as [sl e] end.
  exact IH.
Qed.

End ConnectionLoopFacts.

(** X15.  The retry budget of [connectionLoop].  With [MaxRetryCount] =
    [m >= 0] and attempts that all fail to count as connected, the loop
    makes exactly [m + 1] attempts: it sleeps [m] times and gives up after
    attempt [m + 1], whatever the durations and the clock.  With [m = 0] it
    gives up after its first attempt even when that one was a long, stable
    session.  With a negative [MaxRetryCount] it never gives up: it ends
    only by cancellation. *)
Theorem connectionLoop_retry_budget (Duration_for : Z -> Z) (m : nat)
    (rounds : list round) :
  (m < List.length rounds)%nat ->
  forallb failed_round (firstn (S m) rounds) = true ->
  forallb (fun r => negb (cancelled_in_sleep r)) (firstn m rounds) = true ->
  (exists sleeps,
     connectionLoop Duration_for (Z.of_nat m) rounds = (sleeps, GaveUp) /\
     List.length sleeps = m) /\
  (forall r rest, connectionLoop Duration_for 0 (r :: rest) = ([], GaveUp)) /\
  (forall k rs, (k < 0)%Z -> snd (connectionLoop Duration_for k rs) <> GaveUp).
Proof.
  intros Hlen Hfail Hnc. split; [|split].
  - apply (connectionLoop_budget Duration_for (Z.of_nat m) m rounds Client.initial_state);
      try assumption; simpl; lia.
  - intros r rest. unfold connectionLoop. cbn [connectionLoop_from].
    unfold Client.connectionLoop_iteration, Client.record_attempt, Client.initial_state.
    destruct (fst (Client.connectionOnce (round_attempt r))); reflexivity.
  - intros k rs Hk. apply connectionLoop_unlimited. exact Hk.
Qed.

(** [MaxRetryCount] = 2 and a server that refuses every dial: three
    attempts, two sleeps. *)
Lemma connectionLoop_retry_budget_witness :
  exists sleeps,
    connectionLoop (fun n => (100000000 * 2 ^ n)%Z) 2
      (repeat {| round_attempt :=
                   {| Client.ctx_done := false; Client.proxy_err := None;
                      Client.dial_err := Some "connection refused"%string;
                      Client.handshake_err := None; Client.t0 := 0;
                      Client.config_err := None; Client.configerr := "";
                      Client.bind_err := None; Client.t_return := 0 |};
                 now1 := 0; now2 := 0; cancelled_in_sleep := false |} 5)
    = (sleeps, GaveUp) /\
    List.length sleeps = 2.
Proof.
  apply (connectionLoop_retry_budget (fun n => (100000000 * 2 ^ n)%Z) 2).
  - simpl. lia.
  - reflexivity.
  - reflexivity.
Defined.


Section TrafficFacts.
Import stdpp.base stdpp.gmap stdpp.strings.
Import Traffic.

Lemma index_in (l : list string) (i : Z) :
  (0 <= i < Z.of_nat (List.length l))%Z ->
  exists s, index l i = Ok s /\ In s l.
Proof.
  intros Hi. unfold index.
  destruct (Z.ltb_spec i 0) as [|_]; [lia|].
  destruct (nth_error l (Z.to_nat i)) as [s|] eqn:Hn.
  - exists s. split; [reflexivity | eapply nth_error_In; exact Hn].
  - apply nth_error_None in Hn. lia.
Qed.

Lemma GenerateRealisticHeaders_result {R} (rand : Rand R) (rng : R) :
  Intn_in_range rand ->
  exists ua lang origin rng',
    In ua userAgents /\ In lang languages /\ In origin origins /\
    GenerateRealisticHeaders rand rng
    = Ok (<["Pragma" := ["no-cache"]]>
          (<["Cache-Control" := ["no-cache"]]>
           (<["Origin" := [origin]]>
            (<["Accept-Encoding" := ["gzip, deflate, br"]]>
             (<["Accept-Language" := [lang]]>
              (<["Accept" := ["*/*"]]>
               (<["User-Agent" := [ua]]> (empty : Header))))))), rng').
Proof.
  intros Hrng. unfold GenerateRealisticHeaders.
  pose proof (Hrng rng (Z.of_nat (List.length userAgents)) ltac:(simpl; lia)) as H1.
  destruct (Intn rand rng (Z.of_nat (List.length userAgents))) as [i1 r1].
  destruct (index_in userAgents i1 H1) as (ua & -> & Hua). cbn [res_bind].
  pose proof (Hrng r1 (Z.of_nat (List.length languages)) ltac:(simpl; lia)) as H2.
  destruct (Intn rand r1 (Z.of_nat (List.length languages))) as [i2 r2].
  destruct (index_in languages i2 H2) as (lang & -> & Hlang). cbn [res_bind].
  pose proof (Hrng r2 (Z.of_nat (List.length origins)) ltac:(simpl; lia)) as H3.
  destruct (Intn rand r2 (Z.of_nat (List.length origins))) as [i3 r3].
  destruct (index_in origins i3 H3) as (origin & -> & Horigin). cbn [res_bind].
  exists ua, lang, origin, r3. repeat split; try assumption.
Qed.

Lemma fold_left_insert (l : list (string * list string)) (m : Header) :
  fold_left (fun res kv => <[fst kv := snd kv]> res) l m
  = union (list_to_map (rev l)) m.
Proof.
  rewrite <- (foldr_insert_union m (rev l)).
  rewrite <- (fold_left_rev_right (fun kv res => <[fst kv := snd kv]> res) l m).
  reflexivity.
Qed.

End TrafficFacts.


Section TrafficHeaders.
Import stdpp.base stdpp.gmap stdpp.strings.
Import Traffic.

Lemma list_to_map_visit (m : Header) (order : list (string * list string)) :
  Permutation order (map_to_list m) ->
  list_to_map (rev order) = m.
Proof.
  intros Hp. transitivity (list_to_map (map_to_list m) : Header).
  - symmetry. apply list_to_map_proper.
    + apply NoDup_fst_map_to_list.
    + rewrite <- Hp. apply Permutation_rev.
  - apply list_to_map_to_list.
Qed.

Lemma MergeHeaders_in_union (userHeaders realisticHeaders : Header)
    (user_order realistic_order : list (string * list string)) :
  Permutation user_order (map_to_list userHeaders) ->
  Permutation realistic_order (map_to_list realisticHeaders) ->
  MergeHeaders_in user_order realistic_order = union userHeaders realisticHeaders.
Proof.
  intros Hu Hr. unfold MergeHeaders_in. rewrite !fold_left_insert.
  rewrite (list_to_map_visit _ _ Hu), (list_to_map_visit _ _ Hr).
  rewrite (right_id_L empty union). reflexivity.
Qed.

Lemma userAgents_not_empty s : In s userAgents -> String.eqb s "" = false.
Proof.
  unfold userAgents. cbn [In].
  intros [<-|[<-|[<-|[<-|[<-|[<-|[]]]]]]]; reflexivity.
Qed.

Lemma userAgents_found s : In s userAgents -> existsb (String.eqb s) userAgents = true.
Proof.
  intros Hs. apply existsb_exists. exists s. split; [exact Hs | apply String.eqb_refl].
Qed.

Lemma languages_not_empty s : In s languages -> String.eqb s "" = false.
Proof.
  unfold languages. cbn [In].
  intros [<-|[<-|[<-|[<-|[<-|[<-|[<-|[]]]]]]]]; reflexivity.
Qed.

Lemma origins_not_empty s : In s origins -> String.eqb s "" = false.
Proof.
  unfold origins. cbn [In].
  intros [<-|[<-|[<-|[<-|[<-|[<-|[<-|[]]]]]]]]; reflexivity.
Qed.

End TrafficHeaders.

Section TrafficTheorems.
Import stdpp.base stdpp.gmap stdpp.strings.

(** X16.  With [rng.Intn(n)] drawing from [0, n), [GenerateRealisticHeaders]
    does not panic and returns a header with exactly seven keys:
    [User-Agent], [Accept-Language] and [Origin] hold one value each, taken
    from [userAgents], [languages] and [origins]; [Accept],
    [Accept-Encoding], [Cache-Control] and [Pragma] hold their fixed value;
    no other key is set, in particular neither [Connection] nor
    [Upgrade]. *)
Theorem GenerateRealisticHeaders_sets_seven_headers {R} (rand : Traffic.Rand R) (rng : R) :
  Traffic.Intn_in_range rand ->
  exists headers rng' ua lang origin,
    Traffic.GenerateRealisticHeaders rand rng = Ok (headers, rng') /\
    In ua Traffic.userAgents /\ In lang Traffic.languages /\ In origin Traffic.origins /\
    headers !! "User-Agent" = Some [ua] /\
    headers !! "Accept" = Some ["*/*"] /\
    headers !! "Accept-Language" = Some [lang] /\
    headers !! "Accept-Encoding" = Some ["gzip, deflate, br"] /\
    headers !! "Origin" = Some [origin] /\
    headers !! "Cache-Control" = Some ["no-cache"] /\
    headers !! "Pragma" = Some ["no-cache"] /\
    (forall k, ~ In k Traffic.generated_keys -> headers !! k = None) /\
    Traffic.Header_Get headers "Connection" = "" /\
    Traffic.Header_Get headers "Upgrade" = "".
Proof.
  intros Hrng.
  destruct (GenerateRealisticHeaders_result rand rng Hrng)
    as (ua & lang & origin & rng' & Hua & Hlang & Horigin & Hgen).
  eexists. exists rng', ua, lang, origin.
  split; [exact Hgen|].
  do 3 (split; [assumption|]).
  do 7 (split; [reflexivity|]).
  split; [|split; reflexivity].
  intros k Hk. unfold Traffic.generated_keys in Hk. cbn [In] in Hk.
  unfold Traffic.Header.
  rewrite !lookup_insert_ne by (intros <-; apply Hk; tauto).
  apply lookup_empty.
Qed.

(** The generator that always draws 0. *)
Lemma GenerateRealisticHeaders_sets_seven_headers_witness :
  exists headers rng',
    Traffic.GenerateRealisticHeaders Traffic.zero_rand tt = Ok (headers, rng') /\
    headers !! "Accept" = Some ["*/*"] /\
    Traffic.Header_Get headers "Upgrade" = "".
Proof.
  destruct (GenerateRealisticHeaders_sets_seven_headers Traffic.zero_rand tt)
    as (headers & rng' & ua & lang & origin & Hgen & _ & _ & _ & _ & Hacc & _ & _ & _ & _
        & _ & _ & _ & Hup).
  - intros rng n Hn. simpl. lia.
  - exists headers, rng'. split; [exact Hgen|]. split; [exact Hacc | exact Hup].
Defined.

(** X17.  The package's own test of [GenerateRealisticHeaders] fails on
    every run: whatever the generator draws, it reports that the required
    headers [Connection] and [Upgrade] are missing and that [Upgrade] is
    not [websocket], and nothing else.  The test asks for the two headers
    that the function leaves to the WebSocket library. *)
Theorem TestGenerateRealisticHeaders_fails {R} (rand : Traffic.Rand R) (rng : R) :
  Traffic.Intn_in_range rand ->
  Traffic.TestGenerateRealisticHeaders rand rng
  = Ok ["Required header Connection is missing";
        "Required header Upgrade is missing";
        "Upgrade header should be 'websocket', got ''"].
Proof.
  intros Hrng.
  destruct (GenerateRealisticHeaders_result rand rng Hrng)
    as (ua & lang & origin & rng' & Hua & Hlang & Horigin & Hgen).
  unfold Traffic.TestGenerateRealisticHeaders. rewrite Hgen. cbn [res_bind].
  match goal with |- context [Traffic.Header_Get ?h "Upgrade"] => set (headers := h) end.
  unfold Traffic.requiredHeaders. cbn [flat_map].
  change (Traffic.Header_Get headers "User-Agent") with ua.
  change (Traffic.Header_Get headers "Accept") with "*/*".
  change (Traffic.Header_Get headers "Accept-Language") with lang.
  change (Traffic.Header_Get headers "Accept-Encoding") with "gzip, deflate, br".
  change (Traffic.Header_Get headers "Origin") with origin.
  change (Traffic.Header_Get headers "Connection") with "".
  change (Traffic.Header_Get headers "Upgrade") with "".
  rewrite (userAgents_not_empty ua Hua), (languages_not_empty lang Hlang),
    (origins_not_empty origin Horigin), (userAgents_found ua Hua).
  reflexivity.
Qed.

(** The generator that always draws 0. *)
Lemma TestGenerateRealisticHeaders_fails_witness :
  Traffic.TestGenerateRealisticHeaders Traffic.zero_rand tt
  = Ok ["Required header Connection is missing";
        "Required header Upgrade is missing";
        "Upgrade header should be 'websocket', got ''"].
Proof.
  apply (TestGenerateRealisticHeaders_fails Traffic.zero_rand tt).
  intros rng n Hn. simpl. lia.
Defined.

(** X18.  [MergeHeaders] does not depend on the order in which its two
    loops visit the maps: the result is the user's header completed by the
    realistic one, so a key that the user set keeps the user's values,
    whole; the values of the two headers are never mixed under one key. *)
Theorem MergeHeaders_user_takes_precedence
    (userHeaders realisticHeaders : Traffic.Header)
    (user_order realistic_order : list (string * list string)) :
  Permutation user_order (map_to_list userHeaders) ->
  Permutation realistic_order (map_to_list realisticHeaders) ->
  Traffic.MergeHeaders_in user_order realistic_order
  = union userHeaders realisticHeaders /\
  forall k,
    Traffic.MergeHeaders_in user_order realistic_order !! k
    = match userHeaders !! k with
      | Some v => Some v
      | None => realisticHeaders !! k
      end.
Proof.
  intros Hu Hr.
  pose proof (MergeHeaders_in_union _ _ _ _ Hu Hr) as Hm.
  split; [exact Hm|]. intros k. rewrite Hm. unfold Traffic.Header in *.
  rewrite lookup_union.
  destruct (userHeaders !! k), (realisticHeaders !! k); reflexivity.
Qed.

(** The user sets [User-Agent] and a header of their own; the realistic
    header has [User-Agent] and [Accept]. *)
Lemma MergeHeaders_user_takes_precedence_witness :
  Traffic.MergeHeaders_in
    [("X-Custom-Header", ["custom-value"]); ("User-Agent", ["Custom-Agent/1.0"])]
    [("Accept", ["*/*"]); ("User-Agent", ["Mozilla/5.0"])]
  = union
      (<["User-Agent" := ["Custom-Agent/1.0"]]>
         (<["X-Custom-Header" := ["custom-value"]]> (empty : Traffic.Header)))
      (<["User-Agent" := ["Mozilla/5.0"]]>
         (<["Accept" := ["*/*"]]> (empty : Traffic.Header))).
Proof.
  apply (MergeHeaders_user_takes_precedence
           (<["User-Agent" := ["Custom-Agent/1.0"]]>
              (<["X-Custom-Header" := ["custom-value"]]> (empty : Traffic.Header)))
           (<["User-Agent" := ["Mozilla/5.0"]]>
              (<["Accept" := ["*/*"]]> (empty : Traffic.Header)))).
  - vm_compute. repeat constructor.
  - vm_compute. repeat constructor.
Defined.

End TrafficTheorems.


Section MeterFacts.
Import Meter.

Lemma initial_meter_inv : meter_inv initial.
Proof.
  unfold meter_inv, initial; simpl. repeat split; try lia. constructor.
Qed.

Lemma wrap64_sub_nonneg a b :
  (0 <= b <= a)%Z -> (a < 2 ^ 63)%Z -> (0 <= wrap64 (a - b))%Z.
Proof. intros H1 H2. rewrite wrap64_id; lia. Qed.

Lemma goprint_inv_mono m m' g :
  goprint_inv m g ->
  lsent m' = lsent m -> lrecv m' = lrecv m ->
  (sent m <= sent m')%Z -> (recv m <= recv m')%Z ->
  goprint_inv m' g.
Proof.
  intros (H1 & H2 & H3) Hls Hlr Hs Hr. unfold goprint_inv.
  split; [intros Hq; specialize (H1 Hq); lia|].
  split; [intros Hq; specialize (H2 Hq); lia|].
  intros Hq. rewrite (H3 Hq). symmetry. exact Hls.
Qed.

Lemma step_meter_inv e st st' :
  meter_inv st ->
  counts_ok e ->
  (sent (meter st) + added_sent e < 2 ^ 63)%Z ->
  (recv (meter st) + added_recv e < 2 ^ 63)%Z ->
  step e st = Some st' ->
  meter_inv st' /\
  sent (meter st') = (sent (meter st) + added_sent e)%Z /\
  recv (meter st') = (recv (meter st) + added_recv e)%Z.
Proof.
  intros (Hs & Hr & Hp & Hd) [Hcr Hcs] Hbs Hbr Hstep.
  destruct st as [m ps ds]; cbn [meter printers deltas] in *.
  destruct e as [n|n| |i now]; cbn [step meter printers deltas added_sent added_recv] in *.
  - injection Hstep as <-. unfold meter_inv, set_meter.
    cbn [meter printers deltas sent recv printing lsent lrecv].
    rewrite wrap64_id by lia.
    split; [|split; lia]. split; [lia|]. split; [lia|]. split; [|exact Hd].
    destruct (printing m); [|exact Hp].
    destruct Hp as (g & -> & Hg). exists g. split; [reflexivity|].
    apply (goprint_inv_mono m); cbn; try reflexivity; try lia. exact Hg.
  - injection Hstep as <-. unfold meter_inv, set_meter.
    cbn [meter printers deltas sent recv printing lsent lrecv].
    rewrite wrap64_id by lia.
    split; [|split; lia]. split; [lia|]. split; [lia|]. split; [|exact Hd].
    destruct (printing m); [|exact Hp].
    destruct Hp as (g & -> & Hg). exists g. split; [reflexivity|].
    apply (goprint_inv_mono m); cbn; try reflexivity; try lia. exact Hg.
  - destruct (printing m) eqn:Hpr; injection Hstep as <-; (split; [|split; cbn; lia]);
      unfold meter_inv; cbn [meter printers deltas sent recv printing lsent lrecv].
    + rewrite Hpr. auto.
    + subst ps. split; [lia|]. split; [lia|]. split; [|exact Hd].
      eexists. split; [reflexivity|].
      unfold goprint_inv, passed; cbn. repeat split; discriminate.
  - destruct (printing m) eqn:Hpr.
    2:{ subst ps. destruct i; discriminate. }
    destruct Hp as (g & -> & H1 & H2 & H3).
    destruct i as [|i]; [|destruct i; discriminate].
    cbn [nth_error] in Hstep. unfold goprint_op in Hstep.
    destruct g as [p gs gr gc gl gls]; cbn [pc s r curr last_ ls at_] in *.
    unfold passed in H1, H2; cbn [pc] in H1, H2.
    destruct p; injection Hstep as <-;
      (split; [|split; cbn; lia]);
      unfold meter_inv, goprint_inv, passed;
      cbn [meter printers deltas put sent recv printing last lsent lrecv pc s r curr last_ ls
           at_ app];
      rewrite ?Hpr, ?app_nil_r;
      try (specialize (H1 eq_refl)); try (specialize (H2 eq_refl));
      try (specialize (H3 eq_refl)); subst;
      (split; [lia|]); (split; [lia|]);
      (split; [try reflexivity;
               try (eexists; split; [reflexivity|];
                    cbn; split; [intros; try discriminate; lia|];
                    split; [intros; try discriminate; lia|];
                    intros; try discriminate; reflexivity)
              |try exact Hd]).
    apply Forall_app. split; [exact Hd|]. constructor; [|constructor].
    cbn [fst snd]. split; apply wrap64_sub_nonneg; lia.
Qed.

Lemma run_meter_inv sched : forall st st',
  meter_inv st ->
  Forall counts_ok sched ->
  (sent (meter st) + total_sent sched < 2 ^ 63)%Z ->
  (recv (meter st) + total_recv sched < 2 ^ 63)%Z ->
  run sched st = Some st' ->
  meter_inv st'.
Proof.
  induction sched as [|e rest IH]; intros st st' Hinv Hok Hbs Hbr Hrun.
  - injection Hrun as <-. exact Hinv.
  - cbn [run] in Hrun. destruct (step e st) as [st1|] eqn:Hstep; [|discriminate].
    inversion Hok as [|? ? He Hrest]; subst.
    unfold total_sent, total_recv in *; cbn [map fold_right] in *.
    assert (Hnn : forall l, Forall counts_ok l ->
              (0 <= fold_right Z.add 0 (map added_sent l))%Z /\
              (0 <= fold_right Z.add 0 (map added_recv l))%Z).
    { induction 1 as [|x l [Hx1 Hx2] _ [IH1 IH2]]; cbn; [lia|]. lia. }
    destruct (Hnn rest Hrest) as [Hn1 Hn2]. destruct He as [He1 He2].
    destruct (step_meter_inv e st st1 Hinv (conj He1 He2)) as (Hinv1 & Hs1 & Hr1);
      [lia | lia | exact Hstep |].
    apply (IH st1 st' Hinv1 Hrest); [rewrite Hs1; lia | rewrite Hr1; lia | exact Hrun].
Qed.

End MeterFacts.

(** X19.  The printer of a [Meter] is single-flight.  In every
    interleaving of reads and writes through the meter, calls of [print]
    and operations of [goprint] goroutines, starting from [NewMeter], at
    most one [goprint] goroutine runs at any time, and one runs exactly
    when [printing] is set.  As a consequence the values last printed never
    run ahead of the counters, and the byte counts [s - ls] and [r - lr]
    that the speeds are computed from are never negative. *)
Theorem Meter_print_single_flight (sched : list Meter.event) (st : Meter.system) :
  Forall Meter.counts_ok sched ->
  (Meter.total_sent sched < 2 ^ 63)%Z ->
  (Meter.total_recv sched < 2 ^ 63)%Z ->
  Meter.run sched Meter.initial = Some st ->
  (List.length (Meter.printers st) <= 1)%nat /\
  (Meter.printing (Meter.meter st) = true <-> List.length (Meter.printers st) = 1%nat) /\
  (Meter.lsent (Meter.meter st) <= Meter.sent (Meter.meter st))%Z /\
  (Meter.lrecv (Meter.meter st) <= Meter.recv (Meter.meter st))%Z /\
  Forall (fun d => (0 <= fst d)%Z /\ (0 <= snd d)%Z) (Meter.deltas st).
Proof.
  intros Hok Hs Hr Hrun.
  destruct (run_meter_inv sched Meter.initial st initial_meter_inv Hok) as (H1 & H2 & H3 & H4);
    [simpl; lia | simpl; lia | exact Hrun |].
  destruct (Meter.printing (Meter.meter st)).
  - destruct H3 as (g & -> & _). simpl. repeat split; try lia; auto.
  - rewrite H3. simpl. repeat split; try lia; try discriminate; auto.
Qed.

(** A read of 10 bytes, two calls of [print] of which the second finds the
    printer busy, and the first two operations of the printer. *)
Lemma Meter_print_single_flight_witness :
  exists st,
    Meter.run [Meter.recv_Add 10; Meter.print; Meter.print;
               Meter.goprint_step 0 0; Meter.goprint_step 0 0]
      Meter.initial = Some st /\
    (List.length (Meter.printers st) <= 1)%nat.
Proof.
  eexists. split; [reflexivity|].
  apply (Meter_print_single_flight
           [Meter.recv_Add 10; Meter.print; Meter.print;
            Meter.goprint_step 0 0; Meter.goprint_step 0 0]).
  - repeat constructor; simpl; lia.
  - vm_compute. reflexivity.
  - vm_compute. reflexivity.
  - reflexivity.
Defined.


Section SimulatorFacts.
Import Simulator.
Context {R : Type} (rand : Rand R) (Hrand : in_range rand).

Lemma Intn_range rng n : (0 < n)%Z -> (0 <= fst (Intn rand rng n) < n)%Z.
Proof using Hrand. intros Hn. apply (Hrand rng n Hn). Qed.

Lemma simulate_with_facts bn bb chance cn cb nn nb s rng :
  (0 < cn)%Z -> (1 <= cb)%Z -> (cn + cb < 2 ^ 63)%Z ->
  burst_inv s ->
  let s' := fst (snd (simulate_with rand bn bb chance cn cb nn nb s rng)) in
  pattern s' = pattern s /\
  burst_inv s' /\
  (burstMode s = true ->
   burstCount s' = (burstCount s - 1)%Z /\
   burstMode s' = negb (burstCount s =? 1)%Z) /\
  (burstMode s = false -> burstMode s' = true ->
   (cb <= burstCount s' <= cb + cn - 1)%Z).
Proof using Hrand.
  intros Hcn Hcb Hsum Hinv. unfold simulate_with, burst_inv in *.
  destruct (burstMode s) eqn:Hb.
  - specialize (Hinv eq_refl).
    destruct (Int63n rand rng bn) as [d rng1]. cbn [fst snd pattern burstMode burstCount set_burst].
    rewrite wrap64_id by lia.
    split; [reflexivity|]. split.
    { intros Hm. apply negb_true_iff, Z.leb_gt in Hm. lia. }
    split; [|discriminate]. intros _. split; [reflexivity|].
    destruct (Z.eqb_spec (burstCount s) 1) as [->|Hne]; cbn [negb].
    + reflexivity.
    + apply negb_true_iff, Z.leb_gt. lia.
  - destruct (Intn rand rng 100) as [c rng1].
    destruct (c <? chance)%Z.
    + pose proof (Intn_range rng1 cn Hcn) as Hk.
      destruct (Intn rand rng1 cn) as [k rng2]. cbn [fst] in Hk.
      destruct (Int63n rand rng2 nn) as [d rng3].
      cbn [fst snd pattern burstMode burstCount set_burst].
      rewrite wrap64_id by lia.
      split; [reflexivity|]. split; [intros _; lia|].
      split; [discriminate|]. intros _ _. lia.
    + destruct (Int63n rand rng1 nn) as [d rng3]. cbn [fst snd].
      split; [reflexivity|]. split; [rewrite Hb; discriminate|].
      split; [discriminate|]. rewrite Hb. discriminate.
Qed.

Lemma simulateHTTPLike_facts now s rng :
  burst_inv s ->
  let s' := fst (snd (simulateHTTPLike rand now s rng)) in
  pattern s' = pattern s /\
  burst_inv s' /\
  (burstMode s = true ->
   burstCount s' = (burstCount s - 1)%Z /\
   burstMode s' = negb (burstCount s =? 1)%Z) /\
  (burstMode s = false -> burstMode s' = true -> (5 <= burstCount s' <= 14)%Z).
Proof using Hrand.
  intros Hinv. unfold simulateHTTPLike, burst_inv in *.
  destruct (burstMode s) eqn:Hb.
  - specialize (Hinv eq_refl). rewrite wrap64_id by lia.
    destruct (Z.leb_spec (burstCount s - 1) 0) as [Hle|Hgt].
    + destruct (Int63n rand rng _) as [d1 rng1].
      destruct (Int63n rand rng1 _) as [d2 rng2].
      cbn [fst snd pattern burstMode burstCount set_burst].
      split; [reflexivity|]. split; [discriminate|].
      split; [|discriminate]. intros _. split; [reflexivity|].
      replace (burstCount s) with 1%Z by lia. reflexivity.
    + destruct (Int63n rand rng _) as [d2 rng2].
      cbn [fst snd pattern burstMode burstCount set_burst].
      split; [reflexivity|]. split; [intros _; lia|].
      split; [|discriminate]. intros _. split; [reflexivity|].
      destruct (Z.eqb_spec (burstCount s) 1); [lia | reflexivity].
  - destruct (idlePeriod s <? Client.Since (lastUpdate s) now)%Z.
    + pose proof (Intn_range rng 10 ltac:(lia)) as Hk.
      destruct (Intn rand rng 10) as [k rng1]. cbn [fst] in Hk.
      destruct (Int63n rand rng1 _) as [d rng2].
      cbn [fst snd pattern burstMode burstCount set_burst].
      rewrite wrap64_id by lia.
      split; [reflexivity|]. split; [intros _; lia|].
      split; [discriminate|]. intros _ _. lia.
    + destruct (Int63n rand rng _) as [d rng2]. cbn [fst snd].
      split; [reflexivity|]. split; [rewrite Hb; discriminate|].
      split; [discriminate|]. rewrite Hb. discriminate.
Qed.

Lemma interval_of_facts now s rng :
  burst_inv s ->
  (0 <= pattern s <= 2)%Z ->
  let s' := fst (snd (interval_of rand now s rng)) in
  pattern s' = pattern s /\
  burst_inv s' /\
  (burstMode s = true ->
   burstCount s' = (burstCount s - 1)%Z /\
   burstMode s' = negb (burstCount s =? 1)%Z) /\
  (burstMode s = false -> burstMode s' = true ->
   (fst (burst_length_range (pattern s)) <= burstCount s'
    <= snd (burst_length_range (pattern s)))%Z).
Proof using Hrand.
  intros Hinv Hp. unfold interval_of, burst_length_range,
    PatternHTTPLike, PatternSSHLike, PatternRandom.
  destruct (Z.eqb_spec (pattern s) 0); [apply simulateHTTPLike_facts; exact Hinv|].
  destruct (Z.eqb_spec (pattern s) 1).
  { unfold simulateSSHLike.
    destruct (simulate_with_facts (400 * Client.Millisecond) (100 * Client.Millisecond)
                5 8 3 (2500 * Client.Millisecond) (500 * Client.Millisecond) s rng)
      as (H1 & H2 & H3 & H4); try lia; [exact Hinv|].
    cbv zeta in *. split; [exact H1|]. split; [exact H2|]. split; [exact H3|].
    intros Ha Hb. specialize (H4 Ha Hb). cbn [fst snd]. lia. }
  destruct (Z.eqb_spec (pattern s) 2); [|lia].
  unfold simulateRandom.
  destruct (simulate_with_facts (100 * Client.Millisecond) (10 * Client.Millisecond)
              10 20 5 (5 * Client.Second) (100 * Client.Millisecond) s rng)
    as (H1 & H2 & H3 & H4); try lia; [exact Hinv|].
  cbv zeta in *. split; [exact H1|]. split; [exact H2|]. split; [exact H3|].
  intros Ha Hb. specialize (H4 Ha Hb). cbn [fst snd]. lia.
Qed.

Lemma simulatePattern_state now s rng :
  fst (snd (simulatePattern rand now s rng)) = fst (snd (interval_of rand now s rng)) /\
  snd (snd (simulatePattern rand now s rng)) = snd (snd (interval_of rand now s rng)) /\
  (50 * Client.Millisecond <= fst (simulatePattern rand now s rng))%Z.
Proof.
  unfold simulatePattern.
  destruct (interval_of rand now s rng) as [interval [s1 rng1]]. cbn [fst snd].
  repeat split.
  destruct (Z.ltb_spec (Tunnel.Duration_of_float64
              (Tunnel.float64_of_int64 interval
               * (Tunnel.float64_of_int64 (intensity s1) / 100))%float)
              (50 * Client.Millisecond)); lia.
Qed.

Lemma interval_of_cancelled now s rng :
  cancelled (fst (snd (interval_of rand now s rng))) = cancelled s.
Proof.
  unfold interval_of, simulateHTTPLike, simulateSSHLike, simulateRandom, simulate_with.
  repeat match goal with
         | |- context [if ?b then _ else _] => destruct b
         | |- context [let (_, _) := ?x in _] => destruct x
         end; reflexivity.
Qed.

(** A burst with [c] calls left is over after exactly [c] calls. *)
Lemma run_burst (c : nat) : forall nows s rng,
  (0 <= pattern s <= 2)%Z ->
  cancelled s = false ->
  burst_inv s ->
  burstMode s = true ->
  burstCount s = Z.of_nat (S c) ->
  List.length nows = S c ->
  let s' := fst (snd (run rand nows s rng)) in
  burstMode s' = false /\
  (forall k, (k <= c)%nat ->
     burstMode (fst (snd (run rand (firstn k nows) s rng))) = true) /\
  List.length (fst (run rand nows s rng)) = S c /\
  Forall (fun d => (50 * Client.Millisecond <= d)%Z) (fst (run rand nows s rng)).
Proof using Hrand.
  induction c as [|c IH]; intros nows s rng Hp Hlive Hinv Hb Hc Hlen;
    (destruct nows as [|now rest]; [discriminate|]).
  - destruct rest; [|discriminate]. cbn [run]. rewrite Hlive.
    destruct (simulatePattern_state now s rng) as (Hs1 & Hr1 & Hd).
    destruct (interval_of_facts now s rng) as (Hp1 & Hi1 & Hb1 & _);
      [exact Hinv | exact Hp |].
    destruct (Hb1 Hb) as [Hc1 Hm1].
    destruct (simulatePattern rand now s rng) as [d [s1 rng1]]. cbn [fst snd] in *.
    subst s1. split; [rewrite Hm1, Hc; reflexivity|].
    split; [|split; [reflexivity | constructor; [exact Hd | constructor]]].
    intros k Hk. assert (k = 0%nat) by lia. subst k. exact Hb.
  - cbn [run]. rewrite Hlive.
    destruct (simulatePattern_state now s rng) as (Hs1 & Hr1 & Hd).
    destruct (interval_of_facts now s rng) as (Hp1 & Hi1 & Hb1 & _);
      [exact Hinv | exact Hp |].
    destruct (Hb1 Hb) as [Hc1 Hm1].
    pose proof (interval_of_cancelled now s rng) as Hlive1.
    destruct (simulatePattern rand now s rng) as [d [s1 rng1]] eqn:Hsp. cbn [fst snd] in *.
    subst s1.
    assert (Hm1' : burstMode (fst (snd (interval_of rand now s rng))) = true).
    { rewrite Hm1. destruct (Z.eqb_spec (burstCount s) 1); [lia | reflexivity]. }
    specialize (IH rest (fst (snd (interval_of rand now s rng))) rng1
                  ltac:(rewrite Hp1; exact Hp) ltac:(rewrite Hlive1; exact Hlive)
                  Hi1 Hm1' ltac:(rewrite Hc1; lia)
                  ltac:(simpl in Hlen; lia)).
    destruct IH as (IH1 & IH2 & IH3 & IH4).
    destruct (run rand rest _ rng1) as [ds [s2 rng2]] eqn:Hrun. cbn [fst snd] in *.
    split; [exact IH1|]. split; [|split; [simpl; rewrite IH3; reflexivity
                                        | constructor; assumption]].
    intros k Hk. destruct k as [|k]; [exact Hb|].
    cbn [firstn run]. rewrite Hlive, Hsp.
    specialize (IH2 k ltac:(lia)).
    destruct (run rand (firstn k rest) _ rng1) as [ds' [s3 rng3]]. exact IH2.
Qed.

Lemma do_call_cancelled calls : forall s,
  cancelled s = true -> cancelled (fold_left do_call calls s) = true.
Proof.
  induction calls as [|c calls IH]; intros s Hs; [exact Hs|].
  cbn [fold_left]. apply IH. destruct c as [|[]| |]; cbn; auto.
Qed.

End SimulatorFacts.


(** X20.  One call of [simulatePattern] with one of the three patterns and
    a generator that draws within its bounds.  A simulator in a burst has
    at least one call of the burst left, before the call and after it.  A
    call in a burst counts one call down and leaves the burst exactly when
    that was the last; a call that starts a burst gives it a length of 5 to
    14 calls (HTTP-like), 3 to 10 (SSH-like) or 5 to 24 (random).  The
    duration slept is never below 50 ms, whatever the intensity. *)
Theorem simulatePattern_burst_step {R} (rand : Simulator.Rand R)
    (now : Z) (s : Simulator.Simulator) (rng : R) :
  Simulator.in_range rand ->
  Simulator.burst_inv s ->
  (0 <= Simulator.pattern s <= 2)%Z ->
  let s' := fst (snd (Simulator.simulatePattern rand now s rng)) in
  Simulator.pattern s' = Simulator.pattern s /\
  Simulator.burst_inv s' /\
  (Simulator.burstMode s = true ->
   Simulator.burstCount s' = (Simulator.burstCount s - 1)%Z /\
   Simulator.burstMode s' = negb (Simulator.burstCount s =? 1)%Z) /\
  (Simulator.burstMode s = false -> Simulator.burstMode s' = true ->
   (fst (Simulator.burst_length_range (Simulator.pattern s))
    <= Simulator.burstCount s'
    <= snd (Simulator.burst_length_range (Simulator.pattern s)))%Z) /\
  (50 * Client.Millisecond <= fst (Simulator.simulatePattern rand now s rng))%Z.
Proof.
  intros Hrand Hinv Hp s'. subst s'.
  destruct (simulatePattern_state rand now s rng) as (Hs & _ & Hd).
  rewrite Hs.
  destruct (interval_of_facts rand Hrand now s rng Hinv Hp) as (H1 & H2 & H3 & H4).
  split; [exact H1|]. split; [exact H2|]. split; [exact H3|]. split; [exact H4 | exact Hd].
Qed.

(** A new HTTP-like simulator whose clock has moved on: its first call
    starts a burst of five calls when the generator draws 0. *)
Lemma simulatePattern_burst_step_witness :
  Simulator.burstMode
    (fst (snd (Simulator.simulatePattern Simulator.zero_rand 1
                 (Simulator.NewSimulator Simulator.PatternHTTPLike 0) tt))) = true /\
  (5 <= Simulator.burstCount
          (fst (snd (Simulator.simulatePattern Simulator.zero_rand 1
                       (Simulator.NewSimulator Simulator.PatternHTTPLike 0) tt)))
   <= 14)%Z.
Proof.
  split; [vm_compute; reflexivity|].
  apply (simulatePattern_burst_step Simulator.zero_rand 1
           (Simulator.NewSimulator Simulator.PatternHTTPLike 0) tt).
  - intros rng n Hn. simpl. lia.
  - intros H. discriminate H.
  - unfold Simulator.PatternHTTPLike. simpl. lia.
  - reflexivity.
  - vm_compute. reflexivity.
Defined.

(** X21.  A burst lasts exactly as many calls as [burstCount] says when it
    starts: with [burstCount = c] on entering the loop of [run] in a burst,
    and the simulator not stopped, the loop makes its [c] calls, the
    simulator is still in the burst after every number of calls below [c],
    and out of it after the [c]-th. *)
Theorem burst_lasts_burstCount_calls {R} (rand : Simulator.Rand R)
    (c : nat) (nows : list Z) (s : Simulator.Simulator) (rng : R) :
  Simulator.in_range rand ->
  (0 <= Simulator.pattern s <= 2)%Z ->
  Simulator.cancelled s = false ->
  Simulator.burstMode s = true ->
  Simulator.burstCount s = Z.of_nat (S c) ->
  (Z.of_nat (S c) < 2 ^ 63)%Z ->
  List.length nows = S c ->
  Simulator.burstMode (fst (snd (Simulator.run rand nows s rng))) = false /\
  (forall k, (k <= c)%nat ->
     Simulator.burstMode (fst (snd (Simulator.run rand (firstn k nows) s rng))) = true) /\
  List.length (fst (Simulator.run rand nows s rng)) = S c /\
  Forall (fun d => (50 * Client.Millisecond <= d)%Z)
    (fst (Simulator.run rand nows s rng)).
Proof.
  intros Hrand Hp Hlive Hb Hc Hlt Hlen.
  apply (run_burst rand Hrand c nows s rng Hp); try assumption.
  intros _. lia.
Qed.

(** An SSH-like simulator with three calls of a burst left. *)
Lemma burst_lasts_burstCount_calls_witness :
  Simulator.burstMode
    (fst (snd (Simulator.run Simulator.zero_rand [10; 20; 30]%Z
                 (Simulator.set_burst
                    (Simulator.NewSimulator Simulator.PatternSSHLike 0) true 3 0 0)
                 tt))) = false.
Proof.
  apply (burst_lasts_burstCount_calls Simulator.zero_rand 2 [10; 20; 30]%Z
           (Simulator.set_burst
              (Simulator.NewSimulator Simulator.PatternSSHLike 0) true 3 0 0) tt).
  - intros rng n Hn. simpl. lia.
  - unfold Simulator.PatternSSHLike. simpl. lia.
  - reflexivity.
  - reflexivity.
  - reflexivity.
  - simpl. lia.
  - reflexivity.
Defined.

(** X23.  A simulator that was stopped stays stopped.  After [Stop] or
    [SetEnabled(false)] on a simulator made by [NewSimulator], whatever is
    called on it before and afterwards, [SetEnabled(true)] included, its
    context is cancelled: [Start] may start the goroutine again, but the
    loop of [run] returns at once, without a single call of
    [simulatePattern] and without touching the simulator. *)
Theorem Simulator_stays_stopped {R} (rand : Simulator.Rand R)
    (p now : Z) (before after : list Simulator.call) (stop : Simulator.call)
    (nows : list Z) (rng : R) :
  Simulator.stops stop = true ->
  let s := fold_left Simulator.do_call (before ++ stop :: after)
             (Simulator.NewSimulator p now) in
  Simulator.cancelled s = true /\
  Simulator.run rand nows s rng = ([], (s, rng)).
Proof.
  intros Hstop s.
  assert (Hc : Simulator.cancelled s = true).
  { subst s. rewrite fold_left_app. cbn [fold_left].
    apply do_call_cancelled.
    destruct stop as [|[]| |]; try discriminate; reflexivity. }
  split; [exact Hc|].
  destruct nows as [|n0 rest]; [reflexivity|]. cbn [Simulator.run]. rewrite Hc. reflexivity.
Qed.

(** Disabled and enabled again. *)
Lemma Simulator_stays_stopped_witness :
  Simulator.Start
    (fold_left Simulator.do_call
       [Simulator.call_SetEnabled false; Simulator.call_SetEnabled true]
       (Simulator.NewSimulator Simulator.PatternRandom 0)) = true /\
  Simulator.run Simulator.zero_rand [1; 2; 3]%Z
    (fold_left Simulator.do_call
       [Simulator.call_SetEnabled false; Simulator.call_SetEnabled true]
       (Simulator.NewSimulator Simulator.PatternRandom 0)) tt
  = ([], (fold_left Simulator.do_call
            [Simulator.call_SetEnabled false; Simulator.call_SetEnabled true]
            (Simulator.NewSimulator Simulator.PatternRandom 0), tt)).
Proof.
  split; [reflexivity|].
  apply (Simulator_stays_stopped Simulator.zero_rand Simulator.PatternRandom 0
           [] [Simulator.call_SetEnabled true] (Simulator.call_SetEnabled false)
           [1; 2; 3]%Z tt).
  reflexivity.
Defined.


(** X22.  [MergeHeaders] after [GenerateRealisticHeaders]: the package's
    test of [MergeHeaders] passes on every run, whatever the generator
    draws and in whatever order the loops visit the maps: the user's
    [User-Agent] replaces the generated one, the user's own header is kept,
    and the generated [Accept] is still there. *)
Theorem TestMergeHeaders_passes {R} (rand : Traffic.Rand R) (rng : R)
    (range : Traffic.Header -> list (string * list string)) :
  Traffic.Intn_in_range rand ->
  TrafficTest.visits_all range ->
  TrafficTest.TestMergeHeaders rand rng range = Ok [].
Proof.
  intros Hrng Hrange.
  destruct (GenerateRealisticHeaders_result rand rng Hrng)
    as (ua & lang & origin & rng' & _ & _ & _ & Hgen).
  unfold TrafficTest.TestMergeHeaders. rewrite Hgen. cbn [res_bind].
  unfold TrafficTest.MergeHeaders.
  rewrite (MergeHeaders_in_union _ _ _ _ (Hrange _) (Hrange _)).
  reflexivity.
Qed.

(** The generator that always draws 0, the loops visiting the entries in
    the order of [map_to_list]. *)
Lemma TestMergeHeaders_passes_witness :
  TrafficTest.TestMergeHeaders Traffic.zero_rand tt stdpp.fin_maps.map_to_list = Ok [].
Proof.
  apply (TestMergeHeaders_passes Traffic.zero_rand tt stdpp.fin_maps.map_to_list).
  - intros rng n Hn. simpl. lia.
  - intros h. apply Stdlib.Sorting.Permutation.Permutation_refl.
Defined.
